(** * Vivaldi: the violin fingering solver
    (backend/fingering/violin_solver.py)

    A shallow embedding of the dynamic-programming fingering solver, of its
    caller [compute_fingering] (backend/fingering/engine.py), of the second
    pitch parser (backend/fingering/utils.py) and of the MusicXML reader
    (backend/omr/musicxml_parser.py), and proofs about them.

    Modelling conventions.
    - Python [int] is [Z].
    - Python [float] values (beats, costs, seconds) are exact rationals [Q];
      rounding of binary64 arithmetic is not modelled.  [math.inf] is the
      extra constructor [Infinite] of [xcost].
    - Python [str] is a list of Unicode code points ([pystring]).
    - A Python [dict] is an association list in insertion order, because
      [min] over the final layer and the order of relaxation depend on it.
    - Exceptions are the [Err] side of [result].

    Layout: the embedding of the source, in source order; the notions that
    the statements and proofs use; the proofs; the claims; further
    properties. *)

From Stdlib Require Import String Ascii.
From Stdlib Require Import ZArith QArith Qminmax List Bool Lia Lqa.
Import ListNotations.

Local Open Scope Z_scope.

(** ** Errors *)

Definition pychar := N.
Definition pystring := list pychar.

(** An ASCII literal as a Python string. *)
Definition pystr (s : string) : pystring :=
  map N_of_ascii (list_ascii_of_string s).

Inductive error : Type :=
| InvalidNote (text : pystring)
    (* ValueError "Bad note format: ..." *)
| UnknownEventType (value : pystring) (index : nat)
    (* ValueError "Unknown event type ... at index ..." *)
| NoPlayableState (note_name : pystring) (midi : Z)
    (* ValueError "No playable states for note ..." *)
| NoFeasiblePath
    (* ValueError "No feasible fingering path found ..." *)
| KeyError
| IndexError
| ZeroDivisionError.

Inductive result (A : Type) : Type :=
| Ok (a : A)
| Err (e : error).
Arguments Ok {A} a.
Arguments Err {A} e.

Definition bind {A B : Type} (r : result A) (k : A -> result B) : result B :=
  match r with
  | Ok a => k a
  | Err e => Err e
  end.

Notation "x <- r ;; k" := (bind r (fun x => k))
  (at level 61, r at next level, right associativity).

(** ** Python string operations used by the solver *)

Module PyStr.

Local Open Scope N_scope.

Definition eqb (a b : pystring) : bool :=
    if list_eq_dec N.eq_dec a b then true else false.

  (** [str.isspace] for one character: the code points Python treats as
      whitespace. *)
Definition isspace (c : pychar) : bool :=
    ((9 <=? c) && (c <=? 13)) || ((28 <=? c) && (c <=? 32))
    || (c =? 133) || (c =? 160) || (c =? 5760)
    || ((8192 <=? c) && (c <=? 8202))
    || (c =? 8232) || (c =? 8233) || (c =? 8239) || (c =? 8287)
    || (c =? 12288).

Fixpoint lstrip (s : pystring) : pystring :=
    match s with
    | c :: s' => if isspace c then lstrip s' else s
    | [] => []
    end.

Definition rstrip (s : pystring) : pystring := rev (lstrip (rev s)).

Definition strip (s : pystring) : pystring := rstrip (lstrip s).

  (** [s.replace(old, new)] for one-character [old] and [new]. *)
Definition replace (old new : pychar) (s : pystring) : pystring :=
    map (fun c => if c =? old then new else c) s.

  (** [str.upper] on the ASCII letters; other code points are kept. *)
Definition upper_char (c : pychar) : pychar :=
    if (97 <=? c) && (c <=? 122) then c - 32 else c.

Definition upper (s : pystring) : pystring := map upper_char s.

  (** The decimal value of a digit, for [\d] and [int()]. Only the ASCII
      digits are modelled. *)
Definition digit_value (c : pychar) : option Z :=
    if (48 <=? c) && (c <=? 57) then Some (Z.of_N (c - 48)) else None.

Definition isdigit (c : pychar) : bool :=
    match digit_value c with Some _ => true | None => false end.

  (** [int(s)] for a string of decimal digits, most significant first. *)
Definition int_digits (s : pystring) : Z :=
    fold_left
      (fun acc c => match digit_value c with
                    | Some d => (10 * acc + d)%Z
                    | None => acc
                    end) s 0%Z.

End PyStr.

(** ** Pitch parsing *)

Definition sharp_sign : pychar := 9839%N.   (* U+266F *)
Definition flat_sign : pychar := 9837%N.    (* U+266D *)
Definition hash_char : pychar := 35%N.      (* '#' *)
Definition b_char : pychar := 98%N.         (* 'b' *)
Definition minus_char : pychar := 45%N.     (* '-' *)

Definition _NOTE_BASE : list (pychar * Z) :=
  [(67%N, 0); (68%N, 2); (69%N, 4); (70%N, 5); (71%N, 7); (65%N, 9); (66%N, 11)].

Fixpoint assoc_N {V : Type} (d : list (pychar * V)) (k : pychar) : option V :=
  match d with
  | [] => None
  | (k', v) :: d' => if N.eqb k k' then Some v else assoc_N d' k
  end.

(** The three groups of the pattern [([A-Ga-g])([#b]{0,2})(-?\d+)]. *)

Definition is_note_letter (c : pychar) : bool :=
  (((65 <=? c) && (c <=? 71)) || ((97 <=? c) && (c <=? 103)))%N.

Definition is_accidental (c : pychar) : bool :=
  N.eqb c hash_char || N.eqb c b_char.

(** [\d+] up to the end of the string. *)
Definition is_digits (s : pystring) : bool :=
  match s with
  | [] => false
  | _ => forallb PyStr.isdigit s
  end.

(** [-?\d+] up to the end of the string. *)
Definition is_octave (s : pystring) : bool :=
  match s with
  | c :: s' => if N.eqb c minus_char then is_digits s' else is_digits s
  | [] => false
  end.

(** One alternative of the greedy [{0,2}]: exactly [k] accidentals, then the
    octave. *)
Definition try_acc (k : nat) (rest : pystring)
  : option (pystring * pystring) :=
  let acc := firstn k rest in
  let tl := skipn k rest in
  if Nat.eqb (length acc) k && forallb is_accidental acc && is_octave tl
  then Some (acc, tl)
  else None.

Definition or_else {A : Type} (a b : option A) : option A :=
  match a with
  | Some _ => a
  | None => b
  end.

(** [re.fullmatch]: the longest run of accidentals is tried first. *)
Definition fullmatch_note (s : pystring)
  : option (pychar * pystring * pystring) :=
  match s with
  | [] => None
  | c :: rest =>
      if is_note_letter c
      then match or_else (try_acc 2 rest)
                   (or_else (try_acc 1 rest) (try_acc 0 rest)) with
           | Some (acc, oct) => Some (c, acc, oct)
           | None => None
           end
      else None
  end.

(** [int(m.group(3))]. *)
Definition int_of_octave (s : pystring) : Z :=
  match s with
  | c :: s' => if N.eqb c minus_char then - PyStr.int_digits s'
               else PyStr.int_digits s
  | [] => 0
  end.

Definition note_to_midi (note : pystring) : result Z :=
  let s := PyStr.replace flat_sign b_char
             (PyStr.replace sharp_sign hash_char (PyStr.strip note)) in
  match fullmatch_note s with
  | None => Err (InvalidNote note)
  | Some (g1, acc, g3) =>
      let letter := PyStr.upper_char g1 in
      let octave := int_of_octave g3 in
      match assoc_N _NOTE_BASE letter with
      | None => Err KeyError
      | Some base =>
          let sem :=
            fold_left
              (fun sem ch => sem + (if N.eqb ch hash_char then 1 else -1))
              acc base in
          let sem := sem mod 12 in
          Ok (12 * (octave + 1) + sem)
      end
  end.

(** ** Violin tuning model *)

Definition _OPEN_STRINGS : list (pystring * Z) :=
  [(pystr "G", 55); (pystr "D", 62); (pystr "A", 69); (pystr "E", 76)].
Definition _STRING_NAMES : list pystring := map fst _OPEN_STRINGS.
Definition _OPEN_MIDIS : list Z := map snd _OPEN_STRINGS.

(** [l[i]] for a Python list, negative indices counted from the end. *)
Definition py_index {A : Type} (l : list A) (i : Z) : option A :=
  if i <? 0
  then if - i <=? Z.of_nat (length l)
       then nth_error l (Z.to_nat (Z.of_nat (length l) + i))
       else None
  else nth_error l (Z.to_nat i).

(** [enumerate(l)]. *)
Definition enumerate {A : Type} (l : list A) : list (Z * A) :=
  combine (map Z.of_nat (seq 0 (length l))) l.

(** [range(lo, hi)]. *)
Definition py_range (lo hi : Z) : list Z :=
  map (fun k => lo + Z.of_nat k) (seq 0 (Z.to_nat (hi - lo))).

(** ** Parameters and hand shapes *)

Record HandShape : Type := mkHandShape { o2 : Z; o3 : Z; o4 : Z }.

Record ViolinFingeringParams : Type := {
  bpm : Q;
  max_stop_semitones : Z;
  max_anchor : Z;
  finger2_offsets : list Z;
  finger3_offsets : list Z;
  finger4_offsets : list Z;
  (* timing / feasibility *)
  shift_speed_semitones_per_sec : Q;
  adjacent_string_cross_time_sec : Q;
  skip_string_cross_time_sec : Q;
  time_slack_sec : Q;
  open_string_shift_speed_multiplier : Q;
  rest_shift_speed_multiplier : Q;
  (* costs *)
  shift_event_cost : Q;
  shift_cost_per_semitone : Q;
  adjacent_string_cross_cost : Q;
  skip_string_cross_cost : Q;
  anchor_linear_cost : Q;
  anchor_quadratic_cost : Q;
  stop_cost_per_semitone : Q;
  finger_change_cost : Q;
  same_finger_repeat_penalty : Q;
  same_finger_repeat_cross_string_same_place_penalty : Q;
  shape_change_cost_per_semitone : Q;
  used_finger_retarget_cost_per_semitone : Q;
  finger_base_cost : list (Z * Q);
  preferred_finger_by_delta : list (Z * Z);
  preferred_finger_bonus : Q;
  nonpreferred_finger_penalty : Q;
  open_string_note_cost : Q;
  unsettled_shift_penalty : Q;
  settled_shift_bonus : Q;
  long_rest_threshold_sec : Q;
  long_rest_shift_multiplier : Q;
  min_shift_event_cost_after_long_rest : Q
}.

(** The dataclass defaults; [bpm] has none. *)
Definition default_params (bpm0 : Q) : ViolinFingeringParams := {|
  bpm := bpm0;
  max_stop_semitones := 29;
  max_anchor := 29;
  finger2_offsets := [1; 2];
  finger3_offsets := [3; 4];
  finger4_offsets := [5; 6];
  shift_speed_semitones_per_sec := 0;
  adjacent_string_cross_time_sec := 0.0;
  skip_string_cross_time_sec := 0.0;
  time_slack_sec := 0.0;
  open_string_shift_speed_multiplier := 1.7;
  rest_shift_speed_multiplier := 1.4;
  shift_event_cost := 0.30;
  shift_cost_per_semitone := 0.02;
  adjacent_string_cross_cost := 0.2;
  skip_string_cross_cost := 1.0;
  anchor_linear_cost := 0.00;
  anchor_quadratic_cost := 0.00;
  stop_cost_per_semitone := 0.01;
  finger_change_cost := 0.08;
  same_finger_repeat_penalty := 0.5;
  same_finger_repeat_cross_string_same_place_penalty := 0.1;
  shape_change_cost_per_semitone := 0.2;
  used_finger_retarget_cost_per_semitone := 0.12;
  finger_base_cost :=
    [(0, 0.00%Q); (1, 0.00%Q); (2, 0.03%Q); (3, 0.06%Q); (4, 0.10%Q)];
  preferred_finger_by_delta :=
    [(0, 1); (1, 2); (2, 2); (3, 3); (4, 3); (5, 4); (6, 4); (7, 4)];
  preferred_finger_bonus := -0.20;
  nonpreferred_finger_penalty := 1.00;
  open_string_note_cost := 0.1;
  unsettled_shift_penalty := 0.35;
  settled_shift_bonus := 0.0;
  long_rest_threshold_sec := 2.0;
  long_rest_shift_multiplier := 0.10;
  min_shift_event_cost_after_long_rest := 0.02
|}.

Record State : Type := mkState {
  string_idx : Z;
  anchor : Z;
  shape : HandShape;
  finger : Z;        (* 0 = open, 1..4 *)
  stop : Z;
  pitch_midi : Z
}.

Definition string_name (st : State) : option pystring :=
  py_index _STRING_NAMES (string_idx st).

Record DPKey : Type := mkDPKey {
  state : State;
  settled : bool;
  last_o2 : Z;
  last_o3 : Z;
  last_o4 : Z
}.

(** Structural equality of the frozen dataclasses, as used for dictionary
    keys and [==]. *)

Definition HandShape_eqb (a b : HandShape) : bool :=
  (o2 a =? o2 b) && (o3 a =? o3 b) && (o4 a =? o4 b).

Definition State_eqb (a b : State) : bool :=
  (string_idx a =? string_idx b) && (anchor a =? anchor b)
  && HandShape_eqb (shape a) (shape b) && (finger a =? finger b)
  && (stop a =? stop b) && (pitch_midi a =? pitch_midi b).

Definition DPKey_eqb (a b : DPKey) : bool :=
  State_eqb (state a) (state b) && Bool.eqb (settled a) (settled b)
  && (last_o2 a =? last_o2 b) && (last_o3 a =? last_o3 b)
  && (last_o4 a =? last_o4 b).

(** ** Dictionaries in insertion order *)

Section Dict.
Context {K V : Type} (keqb : K -> K -> bool).

Fixpoint dict_get (d : list (K * V)) (k : K) : option V :=
    match d with
    | [] => None
    | (k', v) :: d' => if keqb k k' then Some v else dict_get d' k
    end.

  (** [d[k] = v]: an existing key keeps its place, a new one goes last. *)
Fixpoint dict_set (d : list (K * V)) (k : K) (v : V) : list (K * V) :=
    match d with
    | [] => [(k, v)]
    | (k', v') :: d' =>
        if keqb k k' then (k', v) :: d' else (k', v') :: dict_set d' k v
    end.
End Dict.

Definition Z_get {V : Type} (d : list (Z * V)) (k : Z) : option V :=
  dict_get Z.eqb d k.

(** ** The solver object *)

Record ViolinFingeringSolver : Type := {
  p : ViolinFingeringParams;
  sec_per_beat : Q;
  shapes : list HandShape
}.

(** [itertools.product] of the three offset tuples. *)
Definition product3 (l2 l3 l4 : list Z) : list HandShape :=
  flat_map (fun a =>
    flat_map (fun b =>
      map (fun c => mkHandShape a b c) l4) l3) l2.

(** [ViolinFingeringSolver.__init__]. *)
Definition new_solver (params : ViolinFingeringParams)
  : result ViolinFingeringSolver :=
  if Qeq_bool (bpm params) 0 then Err ZeroDivisionError
  else Ok {| p := params;
             sec_per_beat := (60.0 / bpm params)%Q;
             shapes := product3 (finger2_offsets params)
                                (finger3_offsets params)
                                (finger4_offsets params) |}.

(** ** Events and note records *)

(** One input tuple [(type, beats[, note])]; [ev_beats] is [float(ev[1])]
    and [ev_note] is [str(ev[2])]. *)
Record event : Type := mkEvent {
  ev_type : pystring;
  ev_beats : Q;
  ev_note : pystring
}.

Definition N_ (beats : Q) (note : string) : event :=
  mkEvent (pystr "N") beats (pystr note).
Definition R_ (beats : Q) : event :=
  mkEvent (pystr "R") beats [].

Module Note.
Record t : Type := mk {
    event_index : nat;
    note_name : pystring;
    pitch_midi : Z;
    duration_beats : Q;
    rest_after_beats : Q;
    gap_beats : Q
  }.
End Note.

(** [str(ev[0]).upper() == tag]. *)
Definition has_type (tag : string) (ev : event) : bool :=
  PyStr.eqb (PyStr.upper (ev_type ev)) (pystr tag).

(** The inner [while] of [_parse_events]: the run of rests after a note. *)
Fixpoint scan_rests (evs : list event) (gap rest_after : Q) : Q * Q :=
  match evs with
  | ev :: evs' =>
      if has_type "R" ev
      then scan_rests evs' (gap + ev_beats ev)%Q (rest_after + ev_beats ev)%Q
      else (gap, rest_after)
  | [] => (gap, rest_after)
  end.

(** The outer [while] of [_parse_events], from index [i] on.  After a note
    the source jumps over the rests just scanned ([i = j]); here they are
    passed one by one through the ["R"] branch, which records nothing. *)
Fixpoint parse_from (i : nat) (evs : list event) : result (list Note.t) :=
  match evs with
  | [] => Ok []
  | ev :: evs' =>
      if has_type "N" ev then
        let dur := ev_beats ev in
        let name := ev_note ev in
        midi <- note_to_midi name ;;
        let '(gap, rest_after) := scan_rests evs' dur 0.0%Q in
        notes <- parse_from (S i) evs' ;;
        Ok (Note.mk i name midi dur rest_after gap :: notes)
      else if has_type "R" ev then parse_from (S i) evs'
      else Err (UnknownEventType (ev_type ev) i)
  end.

Definition _parse_events (events : list event) : result (list Note.t) :=
  parse_from 0 events.

(** ** State enumeration *)

Definition skey : Type := Z * Z * HandShape * Z.

Definition skey_eqb (a b : skey) : bool :=
  let '(s1, a1, h1, f1) := a in
  let '(s2, a2, h2, f2) := b in
  (s1 =? s2) && (a1 =? a2) && HandShape_eqb h1 h2 && (f1 =? f2).

(** [if key not in seen: states.append(st); seen.add(key)]. *)
Definition add_state (acc : list State * list skey) (key : skey) (st : State)
  : list State * list skey :=
  let '(states, seen) := acc in
  if existsb (skey_eqb key) seen then acc
  else (states ++ [st], key :: seen).

Section Solver.
Variable slv : ViolinFingeringSolver.

  (** One of the four [if 1 <= anchor <= max_anchor] blocks. *)
Definition try_finger (s_idx stop0 pitch : Z) (sh : HandShape)
             (fing anchor0 : Z) (acc : list State * list skey)
    : list State * list skey :=
    if (1 <=? anchor0) && (anchor0 <=? max_anchor (p slv))
    then add_state acc (s_idx, anchor0, sh, fing)
                   (mkState s_idx anchor0 sh fing stop0 pitch)
    else acc.

Definition states_on_string (pitch : Z) (acc : list State * list skey)
             (entry : Z * Z) : list State * list skey :=
    let '(s_idx, open_midi) := entry in
    let stop0 := pitch - open_midi in
    if (stop0 <? 0) || (max_stop_semitones (p slv) <? stop0) then acc
    else if stop0 =? 0 then
      fold_left (fun acc sh =>
        fold_left (fun acc anchor0 =>
          add_state acc (s_idx, anchor0, sh, 0)
                    (mkState s_idx anchor0 sh 0 stop0 pitch))
          (py_range 0 (max_anchor (p slv) + 1)) acc)
        (shapes slv) acc
    else
      fold_left (fun acc sh =>
        let acc := try_finger s_idx stop0 pitch sh 1 stop0 acc in
        let acc := try_finger s_idx stop0 pitch sh 2 (stop0 - o2 sh) acc in
        let acc := try_finger s_idx stop0 pitch sh 3 (stop0 - o3 sh) acc in
        try_finger s_idx stop0 pitch sh 4 (stop0 - o4 sh) acc)
        (shapes slv) acc.

Definition _states_for_pitch (pitch : Z) : list State :=
    fst (fold_left (states_on_string pitch) (enumerate _OPEN_MIDIS) ([], [])).

  (** ** Costs *)

Definition _finger_preference_cost (fing delta : Z) : Q :=
    if fing =? 0 then 0.0%Q
    else match Z_get (preferred_finger_by_delta (p slv)) delta with
         | None => 0.0%Q
         | Some pref =>
             if fing =? pref then preferred_finger_bonus (p slv)
             else nonpreferred_finger_penalty (p slv)
         end.

Definition _note_cost (st : State) : Q :=
    if (finger st =? 0) && (stop st =? 0) then open_string_note_cost (p slv)
    else
      let a := anchor st in
      let cost := 0.0%Q in
      let cost := (cost + inject_Z a * anchor_linear_cost (p slv))%Q in
      let cost := (cost + inject_Z (a * a) * anchor_quadratic_cost (p slv))%Q in
      let cost := (cost + inject_Z (stop st) * stop_cost_per_semitone (p slv))%Q in
      let cost :=
        (cost + match Z_get (finger_base_cost (p slv)) (finger st) with
                | Some c => c
                | None => 0.0
                end)%Q in
      let delta := stop st - anchor st in
      (cost + _finger_preference_cost (finger st) delta)%Q.

Definition _is_anchor_note (st : State) : bool :=
    (finger st =? 1) && (stop st - anchor st =? 0).

Definition _offset_for_finger (sh : HandShape) (fing : Z) : Z :=
    if (fing =? 0) || (fing =? 1) then 0
    else if fing =? 2 then o2 sh
    else if fing =? 3 then o3 sh
    else if fing =? 4 then o4 sh
    else 0.

(** [math.inf] next to the finite costs. *)
Inductive xcost : Type :=
| Finite (q : Q)
| Infinite.

Definition Qlt_bool (a b : Q) : bool := negb (Qle_bool b a).

Definition _transition_cost_and_feasible
  (prev_key : DPKey) (cur_state : State) (next_settled : bool)
  (next_last_o2 next_last_o3 next_last_o4 : Z) (avail_sec : Q)
  (rest_after_prev_beats : Q) : xcost :=
  let prev := state prev_key in
  let cur := cur_state in
  let anchor_shift := Z.abs (anchor cur - anchor prev) in
  let string_cross := Z.abs (string_idx cur - string_idx prev) in
  (* timing *)
  let speed := shift_speed_semitones_per_sec (p slv) in
  let speed :=
    if (finger prev =? 0) && (stop prev =? 0)
    then (speed * open_string_shift_speed_multiplier (p slv))%Q else speed in
  let speed :=
    if Qlt_bool 0 rest_after_prev_beats
    then (speed * rest_shift_speed_multiplier (p slv))%Q else speed in
  let cross_time :=
    if string_cross <=? 1
    then (inject_Z string_cross * adjacent_string_cross_time_sec (p slv))%Q
    else (adjacent_string_cross_time_sec (p slv)
          + inject_Z (string_cross - 1) * skip_string_cross_time_sec (p slv))%Q in
  let required_sec :=
    (inject_Z anchor_shift / Qmax speed 1e-6 + cross_time)%Q in
  (* long rest discount on shifting *)
  let rest_sec := (rest_after_prev_beats * sec_per_beat slv)%Q in
  let shift_mult := 1.0%Q in
  let shift_mult :=
    if Qle_bool (long_rest_threshold_sec (p slv)) rest_sec
    then long_rest_shift_multiplier (p slv) else shift_mult in
  let cost := 0.0%Q in
  (* string crossing cost *)
  let cost :=
    if string_cross <=? 1
    then (cost + adjacent_string_cross_cost (p slv))%Q
    else (cost + inject_Z (string_cross - 1) * skip_string_cross_cost (p slv))%Q in
  (* shape change penalty if anchor unchanged *)
  let cost :=
    if (anchor cur =? anchor prev) && negb (HandShape_eqb (shape cur) (shape prev))
    then
      let dist := Z.abs (o2 (shape cur) - o2 (shape prev))
                  + Z.abs (o3 (shape cur) - o3 (shape prev))
                  + Z.abs (o4 (shape cur) - o4 (shape prev)) in
      (cost + inject_Z dist * shape_change_cost_per_semitone (p slv))%Q
    else cost in
  (* retarget penalty based on the last use of this finger *)
  let cost :=
    if (anchor cur =? anchor prev)
       && ((finger cur =? 2) || (finger cur =? 3) || (finger cur =? 4))
    then
      let cur_off := _offset_for_finger (shape cur) (finger cur) in
      let cost :=
        if (finger cur =? 2) && negb (last_o2 prev_key =? -1)
           && negb (last_o2 prev_key =? cur_off)
        then (cost + inject_Z (Z.abs (last_o2 prev_key - cur_off))
                     * used_finger_retarget_cost_per_semitone (p slv))%Q
        else cost in
      let cost :=
        if (finger cur =? 3) && negb (last_o3 prev_key =? -1)
           && negb (last_o3 prev_key =? cur_off)
        then (cost + inject_Z (Z.abs (last_o3 prev_key - cur_off))
                     * used_finger_retarget_cost_per_semitone (p slv))%Q
        else cost in
      if (finger cur =? 4) && negb (last_o4 prev_key =? -1)
         && negb (last_o4 prev_key =? cur_off)
      then (cost + inject_Z (Z.abs (last_o4 prev_key - cur_off))
                   * used_finger_retarget_cost_per_semitone (p slv))%Q
      else cost
    else cost in
  (* consecutive same-finger penalty, only for a different pitch *)
  let cost :=
    if negb (finger prev =? 0) && (finger prev =? finger cur)
       && negb (pitch_midi prev =? pitch_midi cur)
    then
      let same_place_only_string :=
        negb (string_idx prev =? string_idx cur)
        && (anchor prev =? anchor cur)
        && HandShape_eqb (shape prev) (shape cur)
        && (stop prev =? stop cur) in
      if same_place_only_string
      then (cost + same_finger_repeat_cross_string_same_place_penalty (p slv))%Q
      else (cost + same_finger_repeat_penalty (p slv))%Q
    else
      if negb (finger prev =? finger cur) && negb (finger prev =? 0)
         && negb (finger cur =? 0)
      then (cost + finger_change_cost (p slv))%Q
      else cost in
  (* anchor shift cost *)
  let cost :=
    if 0 <? anchor_shift then
      let cost :=
        if negb (settled prev_key)
        then (cost + unsettled_shift_penalty (p slv))%Q
        else (cost + settled_shift_bonus (p slv))%Q in
      let event_cost := (shift_event_cost (p slv) * shift_mult)%Q in
      let event_cost :=
        if Qlt_bool shift_mult 1.0
        then Qmax event_cost (min_shift_event_cost_after_long_rest (p slv))
        else event_cost in
      let cost := (cost + event_cost)%Q in
      (cost + (inject_Z anchor_shift * shift_cost_per_semitone (p slv))
              * shift_mult)%Q
    else cost in
  (* required_sec / avail_sec is not compared: nothing is rejected here *)
  Finite cost.

(** ** The dynamic programme *)

Definition dp_table : Type := list (DPKey * Q).
Definition back_table : Type := list (DPKey * option DPKey).

(** The key of a first note (the [init] loop of [solve]). *)
Definition init_key (st : State) : DPKey :=
  let settled0 := _is_anchor_note st in
  let last_o2 := if finger st =? 2 then o2 (shape st) else -1 in
  let last_o3 := if finger st =? 3 then o3 (shape st) else -1 in
  let last_o4 := if finger st =? 4 then o4 (shape st) else -1 in
  mkDPKey st settled0 last_o2 last_o3 last_o4.

Definition init_step (acc : dp_table * back_table) (st : State)
  : dp_table * back_table :=
  let '(dp_prev, first_back) := acc in
  let key := init_key st in
  (dict_set DPKey_eqb dp_prev key (_note_cost st),
   dict_set DPKey_eqb first_back key None).

Definition init_layer (sts : list State) : dp_table * back_table :=
  fold_left init_step sts ([], []).

(** The [settled] and [last_o*] update of the inner loop of [solve]. *)
Definition next_key (prev_key : DPKey) (cur_st : State) : DPKey :=
  let prev_st := state prev_key in
  let anchor_changed := negb (anchor cur_st =? anchor prev_st) in
  let next_settled :=
    if anchor_changed then _is_anchor_note cur_st
    else settled prev_key || _is_anchor_note cur_st in
  let next_last_o2 := if anchor_changed then -1 else last_o2 prev_key in
  let next_last_o3 := if anchor_changed then -1 else last_o3 prev_key in
  let next_last_o4 := if anchor_changed then -1 else last_o4 prev_key in
  let '(next_last_o2, next_last_o3, next_last_o4) :=
    if finger cur_st =? 2 then (o2 (shape cur_st), next_last_o3, next_last_o4)
    else if finger cur_st =? 3 then (next_last_o2, o3 (shape cur_st), next_last_o4)
    else if finger cur_st =? 4 then (next_last_o2, next_last_o3, o4 (shape cur_st))
    else (next_last_o2, next_last_o3, next_last_o4) in
  mkDPKey cur_st next_settled next_last_o2 next_last_o3 next_last_o4.

(** [C_trans]: the transition cost as [solve] calls it. *)
Definition trans_cost (prev_key : DPKey) (cur_st : State)
  (rest_after_prev : Q) : xcost :=
  let avail_sec := 100%Q in
  let nk := next_key prev_key cur_st in
  _transition_cost_and_feasible prev_key cur_st (settled nk)
    (last_o2 nk) (last_o3 nk) (last_o4 nk) avail_sec rest_after_prev.

(** The body of the two nested loops over [dp_prev.items()] and
    [states_per_note[i]]. *)
Definition relax (rest_after_prev : Q) (prev : DPKey * Q)
  (acc : dp_table * back_table) (cur_st : State) : dp_table * back_table :=
  let '(prev_key, prev_cost) := prev in
  let '(dp_cur, back_cur) := acc in
  match trans_cost prev_key cur_st rest_after_prev with
  | Infinite => acc
  | Finite tcost =>
      let total := (prev_cost + tcost + _note_cost cur_st)%Q in
      let cur_key := next_key prev_key cur_st in
      let better :=
        match dict_get DPKey_eqb dp_cur cur_key with
        | Some best => Qlt_bool total best
        | None => true      (* total < math.inf *)
        end in
      if better
      then (dict_set DPKey_eqb dp_cur cur_key total,
            dict_set DPKey_eqb back_cur cur_key (Some prev_key))
      else acc
  end.

Definition relax_layer (dp_prev : dp_table) (rest_after_prev : Q)
  (sts : list State) : dp_table * back_table :=
  fold_left (fun acc prev => fold_left (relax rest_after_prev prev) sts acc)
    dp_prev ([], []).

(** The loop [for i in range(1, len(notes))]: [prev_notes] starts at
    [notes[i-1]] and [sts] at [states_per_note[i]]. *)
Fixpoint iterate (dp_prev : dp_table) (backptr : list back_table)
  (prev_notes : list Note.t) (sts : list (list State))
  : dp_table * list back_table :=
  match prev_notes, sts with
  | n_prev :: prev_notes', sts_i :: sts' =>
      let '(dp_cur, back_cur) :=
        relax_layer dp_prev (Note.rest_after_beats n_prev) sts_i in
      iterate dp_cur (backptr ++ [back_cur]) prev_notes' sts'
  | _, _ => (dp_prev, backptr)
  end.

(** [min(dp_prev.keys(), key=lambda k: dp_prev[k])] with its cost; the first
    minimal key wins. *)
Definition dict_min (d : dp_table) : option (DPKey * Q) :=
  match d with
  | [] => None
  | kv :: d' =>
      Some (fold_left
              (fun best kv' => if Qlt_bool (snd kv') (snd best) then kv' else best)
              d' kv)
  end.

(** The back-pointer walk, on [backptr] reversed; the result is in reverse
    note order. *)
Fixpoint reconstruct (backptr_rev : list back_table) (cur : DPKey)
  : list DPKey :=
  match backptr_rev with
  | [] => []
  | b :: rest =>
      cur :: match dict_get DPKey_eqb b cur with
             | Some (Some prev) => reconstruct rest prev
             | _ => []
             end
  end.

End Solver.

(** ** Output *)

Module Fingering.
Record t : Type := mk {
  note : pystring;
  pitch_midi : Z;
  duration_beats : Q;
  string : pystring;
  string_index : Z;
  finger : Z;
  anchor_semitones : Z;
  o2 : Z;
  o3 : Z;
  o4 : Z;
  stop_semitones : Z;
  delta_stop_minus_anchor : Z;
  settled_since_last_shift : bool;
  last_o2_used : Z;
  last_o3_used : Z;
  last_o4_used : Z
}.
End Fingering.

Inductive event_out : Type :=
| OutR (beats : Q)
| OutN (beats : Q) (note : pystring) (fingering : option Fingering.t).

Record Solution : Type := {
  total_cost : Q;
  note_fingerings : list Fingering.t;
  events_out : list event_out
}.

Fixpoint mapM {A B : Type} (f : A -> result B) (l : list A)
  : result (list B) :=
  match l with
  | [] => Ok []
  | a :: l' => b <- f a ;; bs <- mapM f l' ;; Ok (b :: bs)
  end.

(** One entry of [note_fingerings]. *)
Definition make_fingering (nk : Note.t * DPKey) : result Fingering.t :=
  let '(n, key) := nk in
  let st := state key in
  match string_name st with
  | None => Err IndexError
  | Some name =>
      Ok (Fingering.mk (Note.note_name n) (Note.pitch_midi n)
            (Note.duration_beats n) name (string_idx st) (finger st)
            (anchor st) (o2 (shape st)) (o3 (shape st)) (o4 (shape st))
            (stop st) (stop st - anchor st) (settled key)
            (last_o2 key) (last_o3 key) (last_o4 key))
  end.

(** [{n["event_index"]: i for i, n in enumerate(notes)}]. *)
Definition index_by_event (notes : list Note.t) : list (nat * nat) :=
  fold_left
    (fun d (ix : nat * Note.t) =>
       dict_set Nat.eqb d (Note.event_index (snd ix)) (fst ix))
    (combine (seq 0 (length notes)) notes) [].

(** One step of the loop that maps the fingerings back to the events. *)
Definition make_event_out (note_idx_by_event_index : list (nat * nat))
  (note_fingerings : list Fingering.t) (iev : nat * event)
  : result event_out :=
  let '(ev_i, ev) := iev in
  if has_type "R" ev then Ok (OutR (ev_beats ev))
  else if has_type "N" ev then
    match dict_get Nat.eqb note_idx_by_event_index ev_i with
    | None => Ok (OutN (ev_beats ev) (ev_note ev) None)
    | Some idx =>
        match nth_error note_fingerings idx with
        | Some fing => Ok (OutN (ev_beats ev) (ev_note ev) (Some fing))
        | None => Err IndexError
        end
    end
  else Err (UnknownEventType (ev_type ev) ev_i).

(** The first note without a playable state raises. *)
Fixpoint check_playable (notes : list Note.t) (sts : list (list State))
  : result unit :=
  match notes, sts with
  | n :: notes', s :: sts' =>
      match s with
      | [] => Err (NoPlayableState (Note.note_name n) (Note.pitch_midi n))
      | _ => check_playable notes' sts'
      end
  | _, _ => Ok tt
  end.

(** The layers of the search: the last cost table and all back-pointer
    tables. *)
Definition run_dp (slv : ViolinFingeringSolver) (notes : list Note.t)
  (states_per_note : list (list State)) : dp_table * list back_table :=
  let '(dp0, first_back) := init_layer slv (hd [] states_per_note) in
  iterate slv dp0 [first_back] notes (tl states_per_note).

Definition solve (slv : ViolinFingeringSolver) (events : list event)
  : result Solution :=
  notes <- _parse_events events ;;
  match notes with
  | [] => Ok {| total_cost := 0.0; note_fingerings := []; events_out := [] |}
  | _ :: _ =>
      let states_per_note :=
        map (fun n => _states_for_pitch slv (Note.pitch_midi n)) notes in
      _ <- check_playable notes states_per_note ;;
      let '(dp_prev, backptr) := run_dp slv notes states_per_note in
      match dict_min dp_prev with
      | None => Err NoFeasiblePath
      | Some (end_key, total) =>
          let path_keys := rev (reconstruct (rev backptr) end_key) in
          fings <- mapM make_fingering (combine notes path_keys) ;;
          let note_idx_by_event_index := index_by_event notes in
          evs <- mapM (make_event_out note_idx_by_event_index fings)
                      (combine (seq 0 (length events)) events) ;;
          Ok {| total_cost := total;
                note_fingerings := fings;
                events_out := evs |}
      end
  end.

(** The solver for the default parameters at a tempo, as [new_solver]
    builds it. *)
Definition default_solver_at (bpm0 : Q) : ViolinFingeringSolver :=
  {| p := default_params bpm0;
     sec_per_beat := (60.0 / bpm0)%Q;
     shapes := product3 [1; 2] [3; 4] [5; 6] |}.

(** The solver of [compute_fingering] at its default tempo of 80. *)
Definition default_solver : ViolinFingeringSolver := default_solver_at 80.

(** * The caller of the solver
    (backend/schemas.py, backend/fingering/engine.py) *)

(** ** The dataclasses of schemas.py *)

(** [Event]: [type] is a string and [beats] a float; [note] may be
    [None]. *)
Module Event.
Record t : Type := mk {
  type : pystring;
  beats : Q;
  note : option pystring
}.
End Event.

(** [FingeringNote]; its [type] field is always ["N"].  The fields after
    [stop_semitones] are optional in the dataclass. *)
Module FingeringNote.
Record t : Type := mk {
  note : pystring;
  pitch_midi : Z;
  duration_beats : Q;
  string : pystring;
  string_index : Z;
  finger : Z;
  stop_semitones : Z;
  anchor_semitones : option Z;
  o2 : option Z;
  o3 : option Z;
  o4 : option Z;
  delta_stop_minus_anchor : option Z;
  settled_since_last_shift : option bool;
  last_o2_used : option Z;
  last_o3_used : option Z;
  last_o4_used : option Z
}.
End FingeringNote.

(** [asdict] of a [FingeringRest] or of a [FingeringNote]. *)
Inductive FingeringItem : Type :=
| ItemRest (duration_beats : Q)
| ItemNote (n : FingeringNote.t).

(** ** compute_fingering *)

Inductive engine_error : Type :=
| MissingNote
    (* ValueError "Note event missing 'note' field" *)
| UnknownType (value : pystring)
    (* ValueError "Unknown event type ..." *)
| SolverError (e : error)
    (* raised by ViolinFingeringSolver(...) or by solve *)
| TypeError.
    (* int(None), for an output note without a fingering *)

Inductive eresult (A : Type) : Type :=
| EOk (a : A)
| EErr (e : engine_error).
Arguments EOk {A} a.
Arguments EErr {A} e.

Definition ebind {A B : Type} (r : eresult A) (k : A -> eresult B)
  : eresult B :=
  match r with
  | EOk a => k a
  | EErr e => EErr e
  end.

(** An exception of the solver passes through [compute_fingering]. *)
Definition of_solver {A : Type} (r : result A) : eresult A :=
  match r with
  | Ok a => EOk a
  | Err e => EErr (SolverError e)
  end.

Fixpoint emapM {A B : Type} (f : A -> eresult B) (l : list A)
  : eresult (list B) :=
  match l with
  | [] => EOk []
  | a :: l' =>
      ebind (f a) (fun b => ebind (emapM f l') (fun bs => EOk (b :: bs)))
  end.

(** [str(ev.type).upper() == tag]. *)
Definition event_is (tag : string) (ev : Event.t) : bool :=
  PyStr.eqb (PyStr.upper (Event.type ev)) (pystr tag).

(** The body of the first loop: the tuple that the solver consumes. *)
Definition to_tuple (ev : Event.t) : eresult event :=
  if event_is "R" ev then EOk (mkEvent (pystr "R") (Event.beats ev) [])
  else if event_is "N" ev then
    match Event.note ev with
    | None | Some [] => EErr MissingNote          (* not ev.note *)
    | Some name => EOk (mkEvent (pystr "N") (Event.beats ev) name)
    end
  else EErr (UnknownType (Event.type ev)).

(** [a or b] on strings. *)
Definition str_or (a b : pystring) : pystring :=
  match a with
  | [] => b
  | _ => a
  end.

(** The body of the second loop.  The items of [events_out] carry the type
    ["R"] or ["N"], so the "Unexpected events_out item type" branch is not
    reached; a note without a fingering makes [fing] the empty dict and
    [int(fing.get("pitch_midi"))] fail. *)
Definition flatten_item (ev : event_out) : eresult FingeringItem :=
  match ev with
  | OutR beats => EOk (ItemRest beats)
  | OutN beats name None => EErr TypeError
  | OutN beats name (Some fing) =>
      EOk (ItemNote
             (FingeringNote.mk
                (str_or (Fingering.note fing) (str_or name []))
                (Fingering.pitch_midi fing)
                (Fingering.duration_beats fing)
                (Fingering.string fing)
                (Fingering.string_index fing)
                (Fingering.finger fing)
                (Fingering.stop_semitones fing)
                (Some (Fingering.anchor_semitones fing))
                (Some (Fingering.o2 fing))
                (Some (Fingering.o3 fing))
                (Some (Fingering.o4 fing))
                (Some (Fingering.delta_stop_minus_anchor fing))
                (Some (Fingering.settled_since_last_shift fing))
                (Some (Fingering.last_o2_used fing))
                (Some (Fingering.last_o3_used fing))
                (Some (Fingering.last_o4_used fing))))
  end.

Definition compute_fingering (events : list Event.t) (bpm0 : Q)
  : eresult (list FingeringItem * Q) :=
  ebind (emapM to_tuple events) (fun tuple_events =>
  ebind (of_solver (new_solver (default_params bpm0))) (fun solver =>
  ebind (of_solver (solve solver tuple_events)) (fun res =>
  ebind (emapM flatten_item (events_out res)) (fun flattened =>
  EOk (flattened, total_cost res))))).

(** * Note names written by the MusicXML parser
    (backend/omr/musicxml_parser.py) *)

(** The decimal digits of [n], most significant first, in front of [acc];
    [fuel] bounds the number of digits. *)
Fixpoint digits_fuel (fuel : nat) (n : Z) (acc : pystring) : pystring :=
  match fuel with
  | O => acc
  | S fuel' =>
      let acc' := (48 + Z.to_N (n mod 10))%N :: acc in
      if n <? 10 then acc' else digits_fuel fuel' (n / 10) acc'
  end.

(** [str(n)] for an int [n >= 0]. *)
Definition str_of_nonneg (n : Z) : pystring :=
  digits_fuel (S (Z.to_nat (Z.log2 n))) n [].

(** [str(n)] for an int, as an f-string formats it. *)
Definition str_of_int (n : Z) : pystring :=
  if n <? 0 then minus_char :: str_of_nonneg (- n) else str_of_nonneg n.

(** [s * n] for a string: empty when [n <= 0]. *)
Definition py_repeat (s : pystring) (n : Z) : pystring :=
  concat (repeat s (Z.to_nat n)).

(** [alter == v] for an [int | None]. *)
Definition alter_is (alter : option Z) (v : Z) : bool :=
  match alter with
  | Some a => a =? v
  | None => false
  end.

Definition _pitch_to_note (step : pystring) (alter : option Z) (octave : Z)
  : pystring :=
  let acc :=
    if alter_is alter 1 then [hash_char]
    else if alter_is alter (-1) then [b_char]
    else match alter with
         | Some a =>
             if negb (a =? 0)
             then if 0 <? a then py_repeat [hash_char] a
                  else py_repeat [b_char] (- a)
             else []
         | None => []
         end in
  PyStr.upper step ++ acc ++ str_of_int octave.

(** * The other pitch parser (backend/fingering/utils.py) *)

(** ** [int()] of a string *)

(** The blanks that [int()] skips at both ends: the ASCII blanks of C, and
    the Unicode spaces above ASCII. *)
Definition int_isspace (c : pychar) : bool :=
  (((9 <=? c) && (c <=? 13)) || (c =? 32)
   || ((127 <=? c) && PyStr.isspace c))%N.

Fixpoint drop_while (f : pychar -> bool) (s : pystring) : pystring :=
  match s with
  | c :: s' => if f c then drop_while f s' else s
  | [] => []
  end.

Definition underscore : pychar := 95%N.
Definition plus_char : pychar := 43%N.

(** Decimal digits with single underscores between them.  Only the ASCII
    digits are modelled, and not the limit on the number of digits. *)
Fixpoint int_body (s : pystring) (acc : Z) (after_digit : bool) : option Z :=
  match s with
  | [] => if after_digit then Some acc else None
  | c :: s' =>
      match PyStr.digit_value c with
      | Some d => int_body s' (10 * acc + d) true
      | None =>
          if N.eqb c underscore && after_digit then int_body s' acc false
          else None
      end
  end.

(** [int(s)]: [None] stands for its ValueError. *)
Definition py_int (s : pystring) : option Z :=
  let s := drop_while int_isspace s in
  let s := rev (drop_while int_isspace (rev s)) in
  match s with
  | c :: s' =>
      if N.eqb c minus_char then option_map Z.opp (int_body s' 0 false)
      else if N.eqb c plus_char then int_body s' 0 false
      else int_body s 0 false
  | [] => None
  end.

Module Utils.

Inductive exn : Type :=
| BadNote (text : pystring)        (* ValueError "Bad note: ..." *)
| InvalidLiteral (text : pystring) (* ValueError of int() *)
| MissingKey (step : pychar).      (* KeyError of NOTE_BASE[step] *)

Inductive outcome : Type :=
| Returns (v : Z)
| Raises (e : exn).

Definition NOTE_BASE : list (pychar * Z) :=
  [(67%N, 0); (68%N, 2); (69%N, 4); (70%N, 5); (71%N, 7); (65%N, 9);
   (66%N, 11)].

(** The [while] loop over the characters in ["#b"]: the accidentals summed
    and the rest of the string. *)
Fixpoint scan_accidentals (s : pystring) (acc : Z) : Z * pystring :=
  match s with
  | c :: s' =>
      if is_accidental c
      then scan_accidentals s' (acc + (if N.eqb c hash_char then 1 else -1))
      else (acc, s)
  | [] => (acc, [])
  end.

Definition note_to_midi (note : pystring) : outcome :=
  let note := PyStr.strip note in
  match note with
  | c :: ((_ :: _) as rest) =>
      let step := PyStr.upper_char c in
      let '(acc, tl) := scan_accidentals rest 0 in
      match py_int tl with
      | None => Raises (InvalidLiteral tl)
      | Some octave =>
          match assoc_N NOTE_BASE step with
          | None => Raises (MissingKey step)
          | Some base => Returns (12 * (octave + 1) + base + acc)
          end
      end
  | _ => Raises (BadNote note)       (* len(note) < 2 *)
  end.

Definition clamp (x lo hi : Z) : Z :=
  if x <? lo then lo else if hi <? x then hi else x.

End Utils.

(** * The MusicXML reader (backend/omr/musicxml_parser.py) *)

(** ** Elements of xml.etree.ElementTree *)

Module ET.

(** An element: its tag, its text (or [None]), its attributes and its
    children. *)
#[local] Unset Elimination Schemes.
Inductive Element : Type :=
| mkElement (tag : pystring) (text : option pystring)
    (attrib : list (pystring * pystring)) (children : list Element).
#[local] Set Elimination Schemes.

Definition tag (e : Element) : pystring :=
  let 'mkElement t _ _ _ := e in t.
Definition text (e : Element) : option pystring :=
  let 'mkElement _ t _ _ := e in t.
Definition attrib (e : Element) : list (pystring * pystring) :=
  let 'mkElement _ _ a _ := e in a.
(** [list(e)]. *)
Definition children (e : Element) : list Element :=
  let 'mkElement _ _ _ c := e in c.

(** [e.get(key)]. *)
Definition get (e : Element) (key : string) : option pystring :=
  dict_get PyStr.eqb (attrib e) (pystr key).

(** [e.iter()]: the element and its descendants, in document order. *)
Fixpoint iter (e : Element) : list Element :=
  match e with
  | mkElement _ _ _ c => e :: flat_map iter c
  end.

(** [bool(e)]: an element without children is false. *)
Definition truth (e : Element) : bool :=
  match children e with
  | [] => false
  | _ :: _ => true
  end.

End ET.

(** ** Helpers *)

(** The part of [s] after the first [c], when [c] occurs in [s]. *)
Fixpoint after_first (c : pychar) (s : pystring) : option pystring :=
  match s with
  | [] => None
  | x :: s' => if N.eqb x c then Some s' else after_first c s'
  end.

(** [tag.split("}", 1)[-1] if "}" in tag else tag]. *)
Definition _strip_ns (tag : pystring) : pystring :=
  match after_first 125%N tag with
  | Some rest => rest
  | None => tag
  end.

(** [_strip_ns(e.tag) == name]. *)
Definition has_tag (name : string) (e : ET.Element) : bool :=
  PyStr.eqb (_strip_ns (ET.tag e)) (pystr name).

(** The truth value of a [str | None]. *)
Definition str_truth (s : option pystring) : bool :=
  match s with
  | Some (_ :: _) => true
  | _ => false
  end.

(** [int(t.strip())] under [try]: [None] when it raises. *)
Definition int_of_text (t : pystring) : option Z := py_int (PyStr.strip t).

Module ParsedEvent.
Record t : Type := mk {
  type : pystring;
  beats : Q;
  note : option pystring
}.
End ParsedEvent.

(** The inner loop of [_get_divisions], over the children of one
    [attributes] element: [Some r] when it returns [r]. *)
Fixpoint divisions_in (ds : list ET.Element) : option (option Z) :=
  match ds with
  | [] => None
  | d :: ds' =>
      match ET.text d with
      | Some ((_ :: _) as t) =>
          if has_tag "divisions" d then Some (int_of_text t)
          else divisions_in ds'
      | _ => divisions_in ds'
      end
  end.

(** The outer loop of [_get_divisions]. *)
Fixpoint divisions_of (els : list ET.Element) : option Z :=
  match els with
  | [] => None
  | a :: els' =>
      if has_tag "attributes" a
      then match divisions_in (ET.children a) with
           | Some r => r
           | None => divisions_of els'
           end
      else divisions_of els'
  end.

Definition _get_divisions (measure_or_root : ET.Element) : option Z :=
  divisions_of (ET.iter measure_or_root).

Definition _note_has_child (note_el : ET.Element) (child_name : string)
  : bool :=
  existsb (has_tag child_name) (ET.children note_el).

(** [x or 1] and [if div_here: divisions = div_here]: zero and [None] are
    false. *)
Definition or_divisions (d : option Z) (otherwise : Z) : Z :=
  match d with
  | Some v => if v =? 0 then otherwise else v
  | None => otherwise
  end.

(** ** _parse_part *)

Inductive xml_error : Type :=
| XmlZeroDivision          (* ZeroDivisionError of [dur_divs / float(divisions)] *)
| XmlValueError (text : pystring).   (* ValueError of [int()] *)

Inductive xresult (A : Type) : Type :=
| XOk (a : A)
| XErr (e : xml_error).
Arguments XOk {A} a.
Arguments XErr {A} e.

Definition xbind {A B : Type} (r : xresult A) (k : A -> xresult B)
  : xresult B :=
  match r with
  | XOk a => k a
  | XErr e => XErr e
  end.

(** A loop whose body may raise. *)
Fixpoint xfold {A B : Type} (f : A -> B -> xresult A) (l : list B) (a : A)
  : xresult A :=
  match l with
  | [] => XOk a
  | b :: l' => xbind (f a b) (xfold f l')
  end.

(** [dur_divs / float(divisions)]. *)
Definition beats_of (dur_divs divisions : Z) : xresult Q :=
  if divisions =? 0 then XErr XmlZeroDivision
  else XOk (inject_Z dur_divs / inject_Z divisions)%Q.

(** The [type] attributes of the [tie] children, then of the [tied]
    children of the [notations] children. *)
Definition type_of (tag_name : string) (t : ET.Element) : list pystring :=
  if has_tag tag_name t
  then match ET.get t "type" with
       | Some ((_ :: _) as ty) => [ty]
       | _ => []
       end
  else [].

Definition tie_types_of (note_el : ET.Element) : list pystring :=
  flat_map (type_of "tie") (ET.children note_el)
  ++ flat_map (fun notations => flat_map (type_of "tied") (ET.children notations))
       (filter (has_tag "notations") (ET.children note_el)).

(** One step of the loop over the children of [pitch]. *)
Definition read_pitch_child (acc : option pystring * option Z * option Z)
  (pc : ET.Element) : option pystring * option Z * option Z :=
  let '(step, alter, octave) := acc in
  match ET.text pc with
  | Some ((_ :: _) as t) =>
      if has_tag "step" pc then (Some (PyStr.strip t), alter, octave)
      else if has_tag "alter" pc then (step, int_of_text t, octave)
      else if has_tag "octave" pc then (step, alter, int_of_text t)
      else acc
  | _ =>
      (* (p.text or "").strip() *)
      if has_tag "step" pc then (Some [], alter, octave) else acc
  end.

(** What the first half of the loop body reads from a [note] element:
    nothing (a [continue]), a rest, or a note with its name and tie
    types. *)
Inductive reading : Type :=
| Skipped
| RestRead (beats : Q)
| PitchRead (beats : Q) (note_name : pystring) (tie_types : list pystring).

Definition read_pitch (beats : Q) (tie_types : list pystring)
  (note_el : ET.Element) : reading :=
  match find (has_tag "pitch") (ET.children note_el) with
  | None => Skipped
  | Some pitch_el =>
      match fold_left read_pitch_child (ET.children pitch_el)
                      (None, None, None) with
      | (Some ((_ :: _) as step), alter, Some octave) =>
          PitchRead beats (_pitch_to_note step alter octave) tie_types
      | _ => Skipped           (* not step or octave is None *)
      end
  end.

Definition read_note (divisions : Z) (note_el : ET.Element)
  : xresult reading :=
  if _note_has_child note_el "grace" then XOk Skipped
  else if _note_has_child note_el "chord" then XOk Skipped
  else
    match find (has_tag "duration") (ET.children note_el) with
    | None => XOk Skipped
    | Some dur_el =>
        match ET.text dur_el with
        | None => XOk Skipped
        | Some t =>
            match int_of_text t with
            | None => XOk Skipped
            | Some dur_divs =>
                xbind (beats_of dur_divs divisions) (fun beats =>
                if _note_has_child note_el "rest" then XOk (RestRead beats)
                else XOk (read_pitch beats (tie_types_of note_el) note_el))
            end
        end
    end.

(** The variables of the loop. *)
Module Part.
Record t : Type := mk {
  events : list ParsedEvent.t;
  tie_active : bool;
  tie_note : option pystring;
  tie_beats_accum : Q
}.
End Part.

Definition in_types (ty : string) (tie_types : list pystring) : bool :=
  existsb (PyStr.eqb (pystr ty)) tie_types.

(** [events.append(ParsedEvent(type="N", beats=tie_beats_accum,
    note=tie_note))]. *)
Definition pending (st : Part.t) : ParsedEvent.t :=
  ParsedEvent.mk (pystr "N") (Part.tie_beats_accum st) (Part.tie_note st).

(** The second half of the loop body: the merging of tied notes. *)
Definition tie_step (st : Part.t) (r : reading) : Part.t :=
  match r with
  | Skipped => st
  | RestRead beats =>
      let rest := ParsedEvent.mk (pystr "R") beats None in
      if Part.tie_active st
      then Part.mk (Part.events st ++ [pending st] ++ [rest]) false None 0.0
      else Part.mk (Part.events st ++ [rest]) (Part.tie_active st)
             (Part.tie_note st) (Part.tie_beats_accum st)
  | PitchRead beats note_name tie_types =>
      let this := ParsedEvent.mk (pystr "N") beats (Some note_name) in
      if in_types "start" tie_types && in_types "stop" tie_types
      then Part.mk (Part.events st ++ [this]) (Part.tie_active st)
             (Part.tie_note st) (Part.tie_beats_accum st)
      else if in_types "start" tie_types
      then Part.mk (if Part.tie_active st
                    then Part.events st ++ [pending st]
                    else Part.events st)
             true (Some note_name) beats
      else if Part.tie_active st
      then
        let st := Part.mk (Part.events st) (Part.tie_active st)
                    (Part.tie_note st) (Part.tie_beats_accum st + beats)%Q in
        if in_types "stop" tie_types
        then Part.mk (Part.events st ++ [pending st]) false None 0.0
        else st
      else Part.mk (Part.events st ++ [this]) (Part.tie_active st)
             (Part.tie_note st) (Part.tie_beats_accum st)
  end.

Definition note_body (divisions : Z) (st : Part.t) (note_el : ET.Element)
  : xresult Part.t :=
  xbind (read_note divisions note_el) (fun r => XOk (tie_step st r)).

Definition measure_body (acc : Z * Part.t) (measure : ET.Element)
  : xresult (Z * Part.t) :=
  let '(divisions, st) := acc in
  let divisions := or_divisions (_get_divisions measure) divisions in
  xbind (xfold (note_body divisions)
           (filter (has_tag "note") (ET.children measure)) st)
        (fun st' => XOk (divisions, st')).

(** The trailing [if tie_active]. *)
Definition finish (st : Part.t) : list ParsedEvent.t :=
  if Part.tie_active st then Part.events st ++ [pending st]
  else Part.events st.

Definition _parse_part (part_el root : ET.Element)
  : xresult (list ParsedEvent.t) :=
  let divisions := or_divisions (_get_divisions root) 1 in
  xbind (xfold measure_body
           (filter (has_tag "measure") (ET.children part_el))
           (divisions, Part.mk [] false None 0.0))
        (fun r => XOk (finish (snd r))).

(** ** _parse_notes_stream *)

(** The loop body of the fallback; its conversions are not under [try]. *)
Definition stream_pitch_child
  (acc : xresult (option pystring * option Z * option Z)) (pc : ET.Element)
  : xresult (option pystring * option Z * option Z) :=
  xbind acc (fun '(step, alter, octave) =>
  match ET.text pc with
  | Some ((_ :: _) as t) =>
      if has_tag "step" pc then XOk (Some (PyStr.strip t), alter, octave)
      else if has_tag "alter" pc then
        match int_of_text t with
        | Some v => XOk (step, Some v, octave)
        | None => XErr (XmlValueError t)
        end
      else if has_tag "octave" pc then
        match int_of_text t with
        | Some v => XOk (step, alter, Some v)
        | None => XErr (XmlValueError t)
        end
      else XOk (step, alter, octave)
  | _ =>
      if has_tag "step" pc then XOk (Some [], alter, octave)
      else XOk (step, alter, octave)
  end).

Definition stream_body (divisions : Z) (events : list ParsedEvent.t)
  (note_el : ET.Element) : xresult (list ParsedEvent.t) :=
  if negb (has_tag "note" note_el) then XOk events
  else if _note_has_child note_el "grace" then XOk events
  else if _note_has_child note_el "chord" then XOk events
  else
    match find (has_tag "duration") (ET.children note_el) with
    | None => XOk events
    | Some dur_el =>
        (* not dur_el or not dur_el.text *)
        if negb (ET.truth dur_el) || negb (str_truth (ET.text dur_el))
        then XOk events
        else
          match ET.text dur_el with
          | None => XOk events
          | Some t =>
              match int_of_text t with
              | None => XErr (XmlValueError t)
              | Some dur_divs =>
                  xbind (beats_of dur_divs divisions) (fun beats =>
                  if _note_has_child note_el "rest"
                  then XOk (events ++ [ParsedEvent.mk (pystr "R") beats None])
                  else
                    match find (has_tag "pitch") (ET.children note_el) with
                    | None => XOk events
                    | Some pitch_el =>
                        if negb (ET.truth pitch_el) then XOk events
                        else
                          xbind (fold_left stream_pitch_child
                                   (ET.children pitch_el)
                                   (XOk (None, None, None)))
                            (fun '(step, alter, octave) =>
                             match step, octave with
                             | Some ((_ :: _) as step), Some octave =>
                                 XOk (events
                                      ++ [ParsedEvent.mk (pystr "N") beats
                                            (Some (_pitch_to_note step alter
                                                     octave))])
                             | _, _ => XOk events
                             end)
                    end)
              end
          end
    end.

Definition _parse_notes_stream (root : ET.Element)
  : xresult (list ParsedEvent.t) :=
  let divisions := or_divisions (_get_divisions root) 1 in
  xfold (stream_body divisions) (ET.iter root) [].

(** * Notions used in the statements and proofs *)

(** ** The update of a layer *)

Section RelaxationNotions.
Context {B : Type}.

(** [total < dp_cur.get(cur_key, math.inf)]. *)
Definition better (dp : dp_table) (k : DPKey) (v : Q) : bool :=
  match dict_get DPKey_eqb dp k with
  | Some best => Qlt_bool v best
  | None => true
  end.

(** The update that [relax] applies, on a candidate (key, total,
    predecessor). *)
Definition upd (acc : dp_table * list (DPKey * B)) (cand : DPKey * Q * B)
  : dp_table * list (DPKey * B) :=
  let '(k, v, b) := cand in
  if better (fst acc) k v
  then (dict_set DPKey_eqb (fst acc) k v, dict_set DPKey_eqb (snd acc) k b)
  else acc.

(** After the candidates [done]: every entry is the total of a candidate
    whose predecessor the second table holds, and no candidate beats the
    entry of its key. *)
Record relax_inv (done : list (DPKey * Q * B))
  (acc : dp_table * list (DPKey * B)) : Prop := {
  ri_nodup : NoDup (map fst (fst acc));
  ri_sound : forall k v, dict_get DPKey_eqb (fst acc) k = Some v ->
             exists b, In (k, v, b) done /\ dict_get DPKey_eqb (snd acc) k = Some b;
  ri_complete : forall k v b, In (k, v, b) done ->
             exists v', dict_get DPKey_eqb (fst acc) k = Some v' /\ (v' <= v)%Q
}.

End RelaxationNotions.

(** ** Layers and paths *)

Section LayerNotions.
Variable slv : ViolinFingeringSolver.

(** The finite value of a transition cost. *)
Definition C_trans (prev_key : DPKey) (cur_st : State) (rest : Q) : Q :=
  match trans_cost slv prev_key cur_st rest with
  | Finite t => t
  | Infinite => 0
  end.

(** The candidate that [relax] forms from an entry of the previous layer
    and a state of the current note. *)
Definition cand (rest : Q) (prev : DPKey * Q) (cur_st : State)
  : DPKey * Q * option DPKey :=
  (next_key (fst prev) cur_st,
   (snd prev + C_trans (fst prev) cur_st rest + _note_cost slv cur_st)%Q,
   Some (fst prev)).

(** All the candidates of a layer, in the order of the two loops. *)
Definition cands (rest : Q) (dp_prev : dp_table) (sts : list State)
  : list (DPKey * Q * option DPKey) :=
  flat_map (fun prev => map (cand rest prev) sts) dp_prev.

(** Paths through the layers, latest layer first: the enumerations and the
    rests crossed so far, the keys chosen, and the accumulated cost. *)
Inductive reach
  : list (list State) -> list Q -> list DPKey -> Q -> Prop :=
| reach_init e s :
    In s e -> reach [e] [] [init_key s] (_note_cost slv s)
| reach_step es rs e r ks pk pc s :
    reach es rs (pk :: ks) pc -> In s e ->
    reach (e :: es) (r :: rs) (next_key pk s :: pk :: ks)
          (pc + C_trans pk s r + _note_cost slv s)%Q.

(** What [solve] knows after a layer: every entry of the cost table is the
    cost of a path that the back-pointers reproduce, and no path into a key
    is cheaper than its entry. *)
Record layer_inv (es : list (list State)) (rs : list Q)
  (dp : dp_table) (backptr : list back_table) : Prop := {
  li_nodup : NoDup (map fst dp);
  li_sound : forall k c, dict_get DPKey_eqb dp k = Some c ->
     exists ks, reach es rs (k :: ks) c /\
                reconstruct (rev backptr) k = k :: ks;
  li_complete : forall k ks c', reach es rs (k :: ks) c' ->
     exists c, dict_get DPKey_eqb dp k = Some c /\ (c <= c')%Q
}.

(** All the cost tables, first layer first. *)
Fixpoint layers_from (dp_prev : dp_table) (prev_notes : list Note.t)
  (sts : list (list State)) : list dp_table :=
  dp_prev ::
  match prev_notes, sts with
  | n_prev :: prev_notes', sts_i :: sts' =>
      layers_from (fst (relax_layer slv dp_prev (Note.rest_after_beats n_prev) sts_i))
                  prev_notes' sts'
  | _, _ => []
  end.

(** The cost tables of [run_dp]. *)
Definition dp_layers (notes : list Note.t) (states_per_note : list (list State))
  : list dp_table :=
  layers_from (fst (init_layer slv (hd [] states_per_note))) notes
              (tl states_per_note).

End LayerNotions.

(** ** The objective *)

(** The keys that the history update derives for a choice of states. *)
Fixpoint keys_from (k : DPKey) (sts : list State) : list DPKey :=
  match sts with
  | [] => []
  | s :: sts' => next_key k s :: keys_from (next_key k s) sts'
  end.

Definition keys_of (sts : list State) : list DPKey :=
  match sts with
  | [] => []
  | s :: sts' => init_key s :: keys_from (init_key s) sts'
  end.

Section ObjectiveNotions.
Variable slv : ViolinFingeringSolver.

(** The per-note costs of the states of [ks]. *)
Fixpoint sum_note_costs (ks : list DPKey) : Q :=
  match ks with
  | [] => 0
  | k :: ks' => (_note_cost slv (state k) + sum_note_costs ks')%Q
  end.

(** The transition costs over the adjacent pairs; [rests] holds the rest
    after each note. *)
Fixpoint sum_trans_costs (ks : list DPKey) (rests : list Q) : Q :=
  match ks, rests with
  | k1 :: ((k2 :: _) as ks'), r :: rests' =>
      (C_trans slv k1 (state k2) r + sum_trans_costs ks' rests')%Q
  | _, _ => 0
  end.

(** The total cost of a sequence of keys. *)
Definition objective (ks : list DPKey) (rests : list Q) : Q :=
  (sum_note_costs ks + sum_trans_costs ks rests)%Q.

End ObjectiveNotions.

(** ** Invariants of states and events *)

Section EnumerationNotions.
Variable slv : ViolinFingeringSolver.

(** The invariants of a state enumerated for [pitch]. *)
Definition state_ok (pitch : Z) (st : State) : Prop :=
  pitch_midi st = pitch /\
  (exists om, py_index _OPEN_MIDIS (string_idx st) = Some om /\
              0 <= string_idx st < 4 /\ stop st = pitch - om) /\
  0 <= stop st <= max_stop_semitones (p slv) /\
  0 <= anchor st <= max_anchor (p slv) /\
  ((finger st = 0 /\ stop st = 0) \/
   (finger st = 1 /\ anchor st = stop st /\ 1 <= anchor st) \/
   (finger st = 2 /\ anchor st = stop st - o2 (shape st) /\ 1 <= anchor st) \/
   (finger st = 3 /\ anchor st = stop st - o3 (shape st) /\ 1 <= anchor st) \/
   (finger st = 4 /\ anchor st = stop st - o4 (shape st) /\ 1 <= anchor st)).

(** An entry of [enumerate(_OPEN_MIDIS)]. *)
Definition string_entry_ok (entry : Z * Z) : Prop :=
  py_index _OPEN_MIDIS (fst entry) = Some (snd entry) /\ 0 <= fst entry < 4.

End EnumerationNotions.

(** The type tag, in upper case, is N or R. *)
Definition tag_ok (ev : event) : Prop :=
  has_type "N" ev = true \/ has_type "R" ev = true.

(** The positions of the note events, counted from [i]. *)
Fixpoint n_positions (i : nat) (evs : list event) : list nat :=
  match evs with
  | [] => []
  | ev :: evs' =>
      if has_type "N" ev then i :: n_positions (S i) evs'
      else n_positions (S i) evs'
  end.

(** The events with the fingerings put back, in input order. *)
Fixpoint interleave (evs : list event) (fings : list Fingering.t)
  : list event_out :=
  match evs with
  | [] => []
  | ev :: evs' =>
      if has_type "R" ev then OutR (ev_beats ev) :: interleave evs' fings
      else match fings with
           | f :: fings' =>
               OutN (ev_beats ev) (ev_note ev) (Some f) :: interleave evs' fings'
           | [] => OutN (ev_beats ev) (ev_note ev) None :: interleave evs' []
           end
  end.

(** ** Emitted notes *)

(** The state that an emitted note describes. *)
Definition state_of_fingering (f : Fingering.t) : State :=
  mkState (Fingering.string_index f) (Fingering.anchor_semitones f)
    (mkHandShape (Fingering.o2 f) (Fingering.o3 f) (Fingering.o4 f))
    (Fingering.finger f) (Fingering.stop_semitones f) (Fingering.pitch_midi f).

(** The key carried by an emitted note: its state and history bits. *)
Definition key_of_fingering (f : Fingering.t) : DPKey :=
  mkDPKey (state_of_fingering f) (Fingering.settled_since_last_shift f)
    (Fingering.last_o2_used f) (Fingering.last_o3_used f)
    (Fingering.last_o4_used f).

(** The note data copied into a fingering. *)
Definition fingering_of_note (f : Fingering.t) (n : Note.t) : Prop :=
  Fingering.note f = Note.note_name n /\
  Fingering.pitch_midi f = Note.pitch_midi n /\
  Fingering.duration_beats f = Note.duration_beats n /\
  string_name (state_of_fingering f) = Some (Fingering.string f) /\
  Fingering.delta_stop_minus_anchor f
  = Fingering.stop_semitones f - Fingering.anchor_semitones f.

(** What a successful [solve] returns, for a non-empty list of notes. *)
Definition solution_facts (slv : ViolinFingeringSolver) (notes : list Note.t)
  (sol : Solution) : Prop :=
  let ks := map key_of_fingering (note_fingerings sol) in
  let rests := map Note.rest_after_beats notes in
  ks = keys_of (map state ks) /\
  Forall2 (fun k n => In (state k) (_states_for_pitch slv (Note.pitch_midi n)))
          ks notes /\
  Forall2 fingering_of_note (note_fingerings sol) notes /\
  (total_cost sol == objective slv ks rests)%Q /\
  (forall sts,
     Forall2 (fun s n => In s (_states_for_pitch slv (Note.pitch_midi n)))
             sts notes ->
     (total_cost sol <= objective slv (keys_of sts) rests)%Q).

(** What [solve] returns when the input has no note. *)
Definition empty_solution : Solution :=
  {| total_cost := 0.0; note_fingerings := []; events_out := [] |}.

(** The invariants of an emitted note, on the fields of the output. *)
Definition fingering_inv (slv : ViolinFingeringSolver) (f : Fingering.t)
  : Prop :=
  (exists om, py_index _OPEN_MIDIS (Fingering.string_index f) = Some om /\
              Fingering.pitch_midi f = om + Fingering.stop_semitones f) /\
  (Fingering.finger f = 2 ->
     Fingering.stop_semitones f - Fingering.anchor_semitones f = Fingering.o2 f
     /\ 1 <= Fingering.anchor_semitones f) /\
  (Fingering.finger f = 3 ->
     Fingering.stop_semitones f - Fingering.anchor_semitones f = Fingering.o3 f
     /\ 1 <= Fingering.anchor_semitones f) /\
  (Fingering.finger f = 4 ->
     Fingering.stop_semitones f - Fingering.anchor_semitones f = Fingering.o4 f
     /\ 1 <= Fingering.anchor_semitones f) /\
  (Fingering.finger f = 1 ->
     Fingering.anchor_semitones f = Fingering.stop_semitones f) /\
  (Fingering.finger f = 0 ->
     Fingering.stop_semitones f = 0 /\ In (Fingering.pitch_midi f) _OPEN_MIDIS) /\
  0 <= Fingering.stop_semitones f <= max_stop_semitones (p slv) /\
  0 <= Fingering.anchor_semitones f <= max_anchor (p slv).

(** ** Worked inputs *)

(** A4 with finger 1 on the D string, in the first shape. *)
Definition D_first_finger_A4 : Fingering.t :=
  Fingering.mk (pystr "A4") 69 1 (pystr "D") 1 1 7 1 3 5 7 0 true
    (-1) (-1) (-1).

(** The result for a single A4 with the default parameters. *)
Definition A4_solution : Solution :=
  {| total_cost := (-0.13000000000)%Q;
     note_fingerings := [D_first_finger_A4];
     events_out := [OutN 1 (pystr "A4") (Some D_first_finger_A4)] |}.

(** The open A string, as the enumeration first lists it. *)
Definition open_A : State := mkState 2 0 (mkHandShape 1 3 5) 0 0 69.

(** ** Components of the transition cost *)

Section ComponentNotions.
Variable slv : ViolinFingeringSolver.








End ComponentNotions.


(** ** Relations between inputs *)

(** An event that normalisation passes: a rest, or a note whose name
    parses. *)
Definition event_ok (ev : event) : Prop :=
  tag_ok ev /\
  (has_type "N" ev = true -> exists midi, note_to_midi (ev_note ev) = Ok midi).





(** ** Note names *)

(** The text of a note name: a letter, accidentals, and the sign and digits
    of the octave. *)
Record note_text : Type := mkNoteText {
  nt_letter : pychar;
  nt_accidentals : list pychar;
  nt_negative : bool;
  nt_digits : list pychar
}.

(** The semitone of a letter, in either case: C=0, D=2, E=4, F=5, G=7, A=9,
    B=11. *)
Definition letter_base (c : pychar) : option Z :=
  assoc_N
    [(67%N, 0); (99%N, 0); (68%N, 2); (100%N, 2); (69%N, 4); (101%N, 4);
     (70%N, 5); (102%N, 5); (71%N, 7); (103%N, 7); (65%N, 9); (97%N, 9);
     (66%N, 11); (98%N, 11)] c.

(** A sharp sign adds 1, a flat sign subtracts 1. *)
Definition accidental_value (c : pychar) : option Z :=
  if N.eqb c hash_char || N.eqb c sharp_sign then Some 1
  else if N.eqb c b_char || N.eqb c flat_sign then Some (-1)
  else None.

(** The sum of the accidentals. *)
Fixpoint sum_accidentals (accs : list pychar) : Z :=
  match accs with
  | [] => 0
  | c :: accs' =>
      match accidental_value c with
      | Some v => v + sum_accidentals accs'
      | None => sum_accidentals accs'
      end
  end.

(** The number that a string of decimal digits writes. *)
Fixpoint decimal (ds : list pychar) : Z :=
  match ds with
  | [] => 0
  | d :: ds' =>
      match PyStr.digit_value d with
      | Some v => v * 10 ^ Z.of_nat (length ds') + decimal ds'
      | None => decimal ds'
      end
  end.

(** A letter A-G in either case, at most two accidentals, one or more
    decimal digits. *)
Definition note_text_ok (n : note_text) : Prop :=
  letter_base (nt_letter n) <> None /\
  (length (nt_accidentals n) <= 2)%nat /\
  Forall (fun c => accidental_value c <> None) (nt_accidentals n) /\
  nt_digits n <> [] /\
  Forall (fun c => PyStr.isdigit c = true) (nt_digits n).

(** The string that a note text writes. *)
Definition render (n : note_text) : pystring :=
  nt_letter n :: nt_accidentals n
    ++ (if nt_negative n then [minus_char] else []) ++ nt_digits n.

(** The octave and the MIDI number that a note text denotes. *)
Definition octave_of (n : note_text) : Z :=
  if nt_negative n then - decimal (nt_digits n) else decimal (nt_digits n).

Definition midi_of (n : note_text) : Z :=
  12 * (octave_of n + 1)
  + (match letter_base (nt_letter n) with Some b => b | None => 0 end
     + sum_accidentals (nt_accidentals n)) mod 12.

(** Whitespace only. *)
Definition blank (ws : pystring) : Prop :=
  Forall (fun c => PyStr.isspace c = true) ws.

(** The two replacements of [note_to_midi], on one character. *)
Definition normal_char (c : pychar) : pychar :=
  let c := if N.eqb c sharp_sign then hash_char else c in
  if N.eqb c flat_sign then b_char else c.

(** The sign and digits of a note text. *)
Definition octave_text (n : note_text) : pystring :=
  (if nt_negative n then [minus_char] else []) ++ nt_digits n.


(** ** The enumeration, exactly *)

(** The key under which [_states_for_pitch] remembers a state in [seen]. *)
Definition key_of_state (st : State) : skey :=
  (string_idx st, anchor st, shape st, finger st).

Section PlayableNotions.
Variable slv : ViolinFingeringSolver.

(** A way to play [pitch]: a string that reaches it within the stop limit,
    a shape of the catalogue, and either the open string with any anchor
    from 0, or a stopped note whose finger puts the anchor in
    1..max_anchor. *)
Definition playable_state (pitch : Z) (st : State) : Prop :=
  pitch_midi st = pitch /\
  (exists om, py_index _OPEN_MIDIS (string_idx st) = Some om /\
              0 <= string_idx st < 4 /\ stop st = pitch - om) /\
  0 <= stop st <= max_stop_semitones (p slv) /\
  In (shape st) (shapes slv) /\
  ((stop st = 0 /\ finger st = 0 /\ 0 <= anchor st <= max_anchor (p slv)) \/
   (stop st <> 0 /\ 1 <= anchor st <= max_anchor (p slv) /\
    ((finger st = 1 /\ anchor st = stop st) \/
     (finger st = 2 /\ anchor st = stop st - o2 (shape st)) \/
     (finger st = 3 /\ anchor st = stop st - o3 (shape st)) \/
     (finger st = 4 /\ anchor st = stop st - o4 (shape st))))).

(** What the loops of [_states_for_pitch] keep: the states listed are ways
    to play the pitch, [seen] holds their keys, and no key occurs twice. *)
Definition enum_inv (pitch : Z) (acc : list State * list skey) : Prop :=
  Forall (playable_state pitch) (fst acc) /\
  snd acc = rev (map key_of_state (fst acc)) /\
  NoDup (map key_of_state (fst acc)).

(** A later accumulator: the invariant holds and nothing was dropped. *)
Definition enum_ext (pitch : Z) (acc0 acc : list State * list skey) : Prop :=
  enum_inv pitch acc /\ incl (fst acc0) (fst acc).

End PlayableNotions.

(** ** Records and output positions *)

(** The beats of the run of rests at the head of [evs]. *)
Fixpoint leading_rest_beats (evs : list event) : Q :=
  match evs with
  | ev :: evs' =>
      if has_type "R" ev then (ev_beats ev + leading_rest_beats evs')%Q else 0
  | [] => 0
  end.

(** What a record of [_parse_events] says about the events: it stands for
    the note event at its index, and its rest is the run of rests that
    follows. *)
Definition note_of_events (evs : list event) (n : Note.t) : Prop :=
  exists ev,
    nth_error evs (Note.event_index n) = Some ev /\
    has_type "N" ev = true /\
    Note.note_name n = ev_note ev /\
    Note.duration_beats n = ev_beats ev /\
    note_to_midi (ev_note ev) = Ok (Note.pitch_midi n) /\
    (Note.rest_after_beats n
     == leading_rest_beats (skipn (S (Note.event_index n)) evs))%Q /\
    (Note.gap_beats n == Note.duration_beats n + Note.rest_after_beats n)%Q.

(** The fingerings carried by output events, in order. *)
Fixpoint fingerings_in (out : list event_out) : list Fingering.t :=
  match out with
  | OutN _ _ (Some f) :: out' => f :: fingerings_in out'
  | _ :: out' => fingerings_in out'
  | [] => []
  end.

(** The image of an input event at its position of [events_out]. *)
Definition event_image (fings : list Fingering.t) (ev : event)
  (out : option event_out) : Prop :=
  (has_type "R" ev = true -> out = Some (OutR (ev_beats ev))) /\
  (has_type "N" ev = true ->
   exists f, out = Some (OutN (ev_beats ev) (ev_note ev) (Some f)) /\
             In f fings /\
             Fingering.note f = ev_note ev /\
             Fingering.duration_beats f = ev_beats ev /\
             note_to_midi (ev_note ev) = Ok (Fingering.pitch_midi f)).

(** An event that [solve] accepts: a rest, or a note whose name parses to a
    pitch between the open G string and the highest stop on the E string. *)
Definition event_playable (slv : ViolinFingeringSolver) (ev : event) : Prop :=
  tag_ok ev /\
  (has_type "N" ev = true ->
   exists midi, note_to_midi (ev_note ev) = Ok midi /\
                55 <= midi <= 76 + max_stop_semitones (p slv)).

(** A note, two rests and a note, and the records that [_parse_events]
    makes of them. *)
Definition two_notes_with_rests : list event :=
  [N_ 1 "A4"; R_ 0.5; R_ 1; N_ 2 "B4"].

Definition two_notes_with_rests_records : list Note.t :=
  [Note.mk 0 (pystr "A4") 69 1 (0.0 + 0.5 + 1) (1 + 0.5 + 1);
   Note.mk 3 (pystr "B4") 71 2 0.0 2].

(** ** Parameters that are read but never decide *)

(** The parameters with other values in the timing and feasibility
    group. *)
Definition with_timing
  (speed adjacent_time skip_time slack open_multiplier rest_multiplier : Q)
  (prm : ViolinFingeringParams) : ViolinFingeringParams := {|
  bpm := bpm prm;
  max_stop_semitones := max_stop_semitones prm;
  max_anchor := max_anchor prm;
  finger2_offsets := finger2_offsets prm;
  finger3_offsets := finger3_offsets prm;
  finger4_offsets := finger4_offsets prm;
  shift_speed_semitones_per_sec := speed;
  adjacent_string_cross_time_sec := adjacent_time;
  skip_string_cross_time_sec := skip_time;
  time_slack_sec := slack;
  open_string_shift_speed_multiplier := open_multiplier;
  rest_shift_speed_multiplier := rest_multiplier;
  shift_event_cost := shift_event_cost prm;
  shift_cost_per_semitone := shift_cost_per_semitone prm;
  adjacent_string_cross_cost := adjacent_string_cross_cost prm;
  skip_string_cross_cost := skip_string_cross_cost prm;
  anchor_linear_cost := anchor_linear_cost prm;
  anchor_quadratic_cost := anchor_quadratic_cost prm;
  stop_cost_per_semitone := stop_cost_per_semitone prm;
  finger_change_cost := finger_change_cost prm;
  same_finger_repeat_penalty := same_finger_repeat_penalty prm;
  same_finger_repeat_cross_string_same_place_penalty :=
    same_finger_repeat_cross_string_same_place_penalty prm;
  shape_change_cost_per_semitone := shape_change_cost_per_semitone prm;
  used_finger_retarget_cost_per_semitone :=
    used_finger_retarget_cost_per_semitone prm;
  finger_base_cost := finger_base_cost prm;
  preferred_finger_by_delta := preferred_finger_by_delta prm;
  preferred_finger_bonus := preferred_finger_bonus prm;
  nonpreferred_finger_penalty := nonpreferred_finger_penalty prm;
  open_string_note_cost := open_string_note_cost prm;
  unsettled_shift_penalty := unsettled_shift_penalty prm;
  settled_shift_bonus := settled_shift_bonus prm;
  long_rest_threshold_sec := long_rest_threshold_sec prm;
  long_rest_shift_multiplier := long_rest_shift_multiplier prm;
  min_shift_event_cost_after_long_rest :=
    min_shift_event_cost_after_long_rest prm
|}.





(** ** The items of compute_fingering *)

(** The item that [compute_fingering] returns for an input event: a rest
    keeps its beats; a note keeps its name and beats, its pitch is the pitch
    of the name, and it lies on the string it names. *)
Definition item_image (ev : Event.t) (item : option FingeringItem) : Prop :=
  (event_is "R" ev = true -> item = Some (ItemRest (Event.beats ev))) /\
  (event_is "R" ev = false ->
   exists name fn,
     Event.note ev = Some name /\ item = Some (ItemNote fn) /\
     FingeringNote.note fn = name /\
     FingeringNote.duration_beats fn = Event.beats ev /\
     note_to_midi name = Ok (FingeringNote.pitch_midi fn) /\
     py_index _STRING_NAMES (FingeringNote.string_index fn)
     = Some (FingeringNote.string fn) /\
     exists om,
       py_index _OPEN_MIDIS (FingeringNote.string_index fn) = Some om /\
       FingeringNote.pitch_midi fn = om + FingeringNote.stop_semitones fn).

(** An event that [compute_fingering] accepts with the default parameters:
    a rest, or a note with a name whose pitch lies between G3 and A7. *)
Definition event_accepted (ev : Event.t) : Prop :=
  event_is "R" ev = true \/
  (event_is "N" ev = true /\
   exists name midi, Event.note ev = Some name /\ name <> [] /\
                     note_to_midi name = Ok midi /\ 55 <= midi <= 105).

(** The item that [compute_fingering] returns for a single A4. *)
Definition A4_item : FingeringItem :=
  ItemNote
    (FingeringNote.mk (pystr "A4") 69 1 (pystr "D") 1 1 7 (Some 7) (Some 1)
       (Some 3) (Some 5) (Some 0) (Some true) (Some (-1)) (Some (-1))
       (Some (-1))).

(** The semitones that [alter] stands for; a missing [alter] is 0. *)
Definition alter_value (alter : option Z) : Z :=
  match alter with
  | Some a => a
  | None => 0
  end.

(** ** What the MusicXML reader reads *)

(** All the readings of a part, measure by measure, each with the
    divisions in force. *)
Fixpoint measure_readings (divisions : Z) (measures : list ET.Element)
  : list (xresult reading) :=
  match measures with
  | [] => []
  | m :: ms =>
      let divisions := or_divisions (_get_divisions m) divisions in
      map (read_note divisions) (filter (has_tag "note") (ET.children m))
      ++ measure_readings divisions ms
  end.

Definition part_readings (part_el root : ET.Element)
  : list (xresult reading) :=
  measure_readings (or_divisions (_get_divisions root) 1)
    (filter (has_tag "measure") (ET.children part_el)).

(** The tied notes of a list of readings merged. *)
Definition merge_ties (rs : list reading) : list ParsedEvent.t :=
  finish (fold_left tie_step rs (Part.mk [] false None 0.0)).

(** The beats of a reading and of a list of events. *)
Definition reading_beats (r : reading) : Q :=
  match r with
  | Skipped => 0
  | RestRead b => b
  | PitchRead b _ _ => b
  end.

Fixpoint total_readings (rs : list reading) : Q :=
  match rs with
  | [] => 0
  | r :: rs' => (reading_beats r + total_readings rs')%Q
  end.

Fixpoint total_beats (evs : list ParsedEvent.t) : Q :=
  match evs with
  | [] => 0
  | ev :: evs' => (ParsedEvent.beats ev + total_beats evs')%Q
  end.

(** The event of a reading that is not part of a tie. *)
Definition untied_event (r : reading) : list ParsedEvent.t :=
  match r with
  | Skipped => []
  | RestRead b => [ParsedEvent.mk (pystr "R") b None]
  | PitchRead b name _ => [ParsedEvent.mk (pystr "N") b (Some name)]
  end.

(** A reading without tie types. *)
Definition untied (r : reading) : Prop :=
  match r with
  | PitchRead _ _ tie_types =>
      in_types "start" tie_types = false /\ in_types "stop" tie_types = false
  | _ => True
  end.

(** The name of a note that was read. *)
Definition name_read (rs : list reading) (name : pystring) : Prop :=
  exists b tys, In (PitchRead b name tys) rs.

(** A parsed event as the [Event] that the API builds from its JSON
    form. *)
Definition as_event (ev : ParsedEvent.t) : Event.t :=
  Event.mk (ParsedEvent.type ev) (ParsedEvent.beats ev) (ParsedEvent.note ev).

(** The readings that did not raise. *)
Fixpoint all_ok {A : Type} (rs : list (xresult A)) : xresult (list A) :=
  match rs with
  | [] => XOk []
  | r :: rs' => xbind r (fun a => xbind (all_ok rs') (fun l => XOk (a :: l)))
  end.

(** The beats held back while a tie is open. *)
Definition held (st : Part.t) : Q :=
  if Part.tie_active st then Part.tie_beats_accum st else 0.

(** An event of the result: a rest without a name, or a note with the name
    of a note that was read. *)
Definition event_read (rs : list reading) (ev : ParsedEvent.t) : Prop :=
  (ParsedEvent.type ev = pystr "R" /\ ParsedEvent.note ev = None) \/
  (ParsedEvent.type ev = pystr "N" /\
   exists name, ParsedEvent.note ev = Some name /\ name_read rs name).

(** What the loop keeps: the events are events of the readings so far, and
    an open tie holds the name of a note that was read. *)
Definition part_inv (rs : list reading) (st : Part.t) : Prop :=
  Forall (event_read rs) (Part.events st) /\
  (Part.tie_active st = true ->
   exists name, Part.tie_note st = Some name /\ name_read rs name).

(** ** A small score *)

(** [<tag>text</tag>]. *)
Definition leaf (tag text : string) : ET.Element :=
  ET.mkElement (pystr tag) (Some (pystr text)) [] [].

(** A [note] element with a pitch, a duration and [tie] children. *)
Definition pitched_note (step octave duration : string) (ties : list string)
  : ET.Element :=
  ET.mkElement (pystr "note") None []
    ([ET.mkElement (pystr "pitch") None []
        [leaf "step" step; leaf "octave" octave];
      leaf "duration" duration]
     ++ map (fun ty => ET.mkElement (pystr "tie") None
                         [(pystr "type", pystr ty)] []) ties).

(** A part of one measure with 2 divisions to the quarter: a C4 of one beat
    tied to a C4 of two beats, then a rest of one beat. *)
Definition sample_part : ET.Element :=
  ET.mkElement (pystr "part") None []
    [ET.mkElement (pystr "measure") None []
       [ET.mkElement (pystr "attributes") None [] [leaf "divisions" "2"];
        pitched_note "C" "4" "2" ["start"%string];
        pitched_note "C" "4" "4" ["stop"%string];
        ET.mkElement (pystr "note") None []
          [ET.mkElement (pystr "rest") None [] []; leaf "duration" "2"]]].

(** A document without a [part]: the fallback is used. *)
Definition sample_stream : ET.Element :=
  ET.mkElement (pystr "score-timewise") None []
    [ET.mkElement (pystr "measure") None []
       [pitched_note "C" "4" "2" []]].

(** * Proofs *)

(** ** Structural equality *)

Lemma HandShape_eqb_eq (a b : HandShape) : HandShape_eqb a b = true <-> a = b.
Proof.
  destruct a, b; unfold HandShape_eqb; simpl.
  rewrite !andb_true_iff, !Z.eqb_eq. split.
  - intros [[-> ->] ->]. reflexivity.
  - intros H; inversion H; auto.
Qed.

Lemma State_eqb_eq (a b : State) : State_eqb a b = true <-> a = b.
Proof.
  destruct a, b; unfold State_eqb; simpl.
  rewrite !andb_true_iff, !Z.eqb_eq, HandShape_eqb_eq. split.
  - intros [[[[[-> ->] ->] ->] ->] ->]. reflexivity.
  - intros H; inversion H; subst; repeat split; reflexivity.
Qed.

Lemma DPKey_eqb_eq (a b : DPKey) : DPKey_eqb a b = true <-> a = b.
Proof.
  destruct a, b; unfold DPKey_eqb; simpl.
  rewrite !andb_true_iff, !Z.eqb_eq, State_eqb_eq, Bool.eqb_true_iff. split.
  - intros [[[[-> ->] ->] ->] ->]. reflexivity.
  - intros H; inversion H; subst; repeat split; reflexivity.
Qed.

Lemma skey_eqb_eq (a b : skey) : skey_eqb a b = true <-> a = b.
Proof.
  destruct a as [[[s1 a1] h1] f1], b as [[[s2 a2] h2] f2]; simpl.
  rewrite !andb_true_iff, !Z.eqb_eq, HandShape_eqb_eq. split.
  - intros [[[-> ->] ->] ->]. reflexivity.
  - intros H; inversion H; subst; repeat split; reflexivity.
Qed.

Lemma PyStr_eqb_eq (a b : pystring) : PyStr.eqb a b = true <-> a = b.
Proof.
  unfold PyStr.eqb. destruct (list_eq_dec N.eq_dec a b); split;
    intros; congruence.
Qed.

(** ** Dictionaries *)

Section DictFacts.
Context {K V : Type} (keqb : K -> K -> bool).
Hypothesis keqb_eq : forall a b, keqb a b = true <-> a = b.

Lemma keqb_refl (k : K) : keqb k k = true.
Proof. apply keqb_eq. reflexivity. Qed.

Lemma keqb_neq (a b : K) : a <> b -> keqb a b = false.
Proof.
  intros H. destruct (keqb a b) eqn:E; [|reflexivity].
  apply keqb_eq in E. contradiction.
Qed.

Lemma dict_get_set_same (d : list (K * V)) k v :
  dict_get keqb (dict_set keqb d k v) k = Some v.
Proof.
  induction d as [|[k' v'] d IH]; simpl.
  - rewrite keqb_refl. reflexivity.
  - destruct (keqb k k') eqn:E; simpl; rewrite E; auto.
Qed.

Lemma dict_get_set_other (d : list (K * V)) k v k' :
  k' <> k -> dict_get keqb (dict_set keqb d k v) k' = dict_get keqb d k'.
Proof.
  intros Hne. induction d as [|[k1 v1] d IH]; simpl.
  - rewrite keqb_neq by assumption. reflexivity.
  - destruct (keqb k k1) eqn:E; simpl.
    + apply keqb_eq in E. subst k1.
      rewrite keqb_neq by assumption. reflexivity.
    + rewrite IH. reflexivity.
Qed.

Lemma dict_get_In (d : list (K * V)) k v :
  dict_get keqb d k = Some v -> In (k, v) d.
Proof.
  induction d as [|[k1 v1] d IH]; simpl; [discriminate|].
  destruct (keqb k k1) eqn:E.
  - apply keqb_eq in E. intros [= ->]. left. congruence.
  - intros H. right. auto.
Qed.

Lemma dict_get_None_notin (d : list (K * V)) k :
  dict_get keqb d k = None -> ~ In k (map fst d).
Proof.
  induction d as [|[k1 v1] d IH]; simpl; [tauto|].
  destruct (keqb k k1) eqn:E; [discriminate|].
  intros H [Heq|Hin]; [|exact (IH H Hin)].
  subst k1. rewrite keqb_refl in E. discriminate.
Qed.

Lemma In_dict_get (d : list (K * V)) k v :
  NoDup (map fst d) -> In (k, v) d -> dict_get keqb d k = Some v.
Proof.
  induction d as [|[k1 v1] d IH]; simpl; [tauto|].
  intros Hnd [Heq|Hin].
  - inversion Heq; subst. rewrite keqb_refl. reflexivity.
  - inversion Hnd as [|? ? Hnotin Hnd']; subst.
    destruct (keqb k k1) eqn:E.
    + apply keqb_eq in E. subst k1. exfalso. apply Hnotin.
      change k with (fst (k, v)). apply in_map. assumption.
    + auto.
Qed.

Lemma dict_set_keys (d : list (K * V)) k v k' :
  In k' (map fst (dict_set keqb d k v)) <-> k' = k \/ In k' (map fst d).
Proof.
  induction d as [|[k1 v1] d IH]; simpl.
  - intuition congruence.
  - destruct (keqb k k1) eqn:E; simpl.
    + apply keqb_eq in E. subst k1. intuition congruence.
    + rewrite IH. intuition congruence.
Qed.

Lemma dict_set_NoDup (d : list (K * V)) k v :
  NoDup (map fst d) -> NoDup (map fst (dict_set keqb d k v)).
Proof.
  induction d as [|[k1 v1] d IH]; simpl; intros Hnd.
  - constructor; [simpl; tauto | constructor].
  - inversion Hnd as [|? ? Hnotin Hnd']; subst.
    destruct (keqb k k1) eqn:E; simpl.
    + constructor; assumption.
    + constructor; [|auto].
      rewrite dict_set_keys. intros [->|Hin]; [|contradiction].
      rewrite keqb_refl in E. discriminate.
Qed.

Lemma dict_set_not_nil (d : list (K * V)) k v : dict_set keqb d k v <> [].
Proof. destruct d as [|[k1 v1] d]; simpl; [|destruct (keqb k k1)]; discriminate. Qed.

End DictFacts.

(** ** Comparison of costs *)

Lemma Qlt_bool_iff (a b : Q) : Qlt_bool a b = true <-> (a < b)%Q.
Proof.
  unfold Qlt_bool. rewrite negb_true_iff. split.
  - intros H. apply Qnot_le_lt. intros Hle.
    apply Qle_bool_iff in Hle. congruence.
  - intros H. destruct (Qle_bool b a) eqn:E; [|reflexivity].
    apply Qle_bool_iff in E. exfalso. exact (Qlt_not_le _ _ H E).
Qed.

Lemma Qlt_bool_false (a b : Q) : Qlt_bool a b = false <-> (b <= a)%Q.
Proof.
  unfold Qlt_bool. rewrite negb_false_iff. apply Qle_bool_iff.
Qed.

(** ** Relaxation of one layer

    The inner loops of [solve] fold one update over a list of candidates
    (key, total, predecessor).  The facts below are about that update alone. *)

Section Relaxation.
Context {B : Type}.

Lemma relax_inv_nil : relax_inv (B:=B) [] ([], []).
Proof.
  split; simpl.
  - constructor.
  - discriminate.
  - tauto.
Qed.

Lemma relax_inv_step done acc cand :
  relax_inv (B:=B) done acc ->
  relax_inv (B:=B) (done ++ [cand]) (upd (B:=B) acc cand).
Proof.
  intros [Hnd Hs Hc]. destruct acc as [dp back], cand as [[k v] b].
  unfold upd; simpl in *. destruct (better dp k v) eqn:Hb; simpl.
  - split; simpl.
    + apply dict_set_NoDup; [apply DPKey_eqb_eq | assumption].
    + intros k0 v0 Hget.
      destruct (DPKey_eqb k0 k) eqn:E.
      * apply DPKey_eqb_eq in E. subst k0.
        rewrite dict_get_set_same in Hget by apply DPKey_eqb_eq.
        injection Hget as <-. exists b. split.
        -- apply in_or_app. right. left. reflexivity.
        -- apply dict_get_set_same, DPKey_eqb_eq.
      * assert (Hne : k0 <> k).
        { intros ->. rewrite (keqb_refl _ DPKey_eqb_eq) in E. discriminate. }
        rewrite dict_get_set_other in Hget by (apply DPKey_eqb_eq || assumption).
        destruct (Hs _ _ Hget) as [b0 [Hin Hback]]. exists b0. split.
        -- apply in_or_app. left. assumption.
        -- rewrite dict_get_set_other by (apply DPKey_eqb_eq || assumption).
           assumption.
    + intros k0 v0 b0 Hin. apply in_app_or in Hin.
      destruct Hin as [Hin|[Heq|[]]].
      * destruct (Hc _ _ _ Hin) as [v' [Hget Hle]].
        destruct (DPKey_eqb k0 k) eqn:E.
        -- apply DPKey_eqb_eq in E. subst k0. exists v. split.
           ++ apply dict_get_set_same, DPKey_eqb_eq.
           ++ unfold better in Hb. rewrite Hget in Hb.
              apply Qlt_bool_iff in Hb. lra.
        -- assert (Hne : k0 <> k).
           { intros ->. rewrite (keqb_refl _ DPKey_eqb_eq) in E. discriminate. }
           exists v'. split; [|assumption].
           rewrite dict_get_set_other by (apply DPKey_eqb_eq || assumption).
           assumption.
      * inversion Heq; subst. exists v0. split.
        -- apply dict_get_set_same, DPKey_eqb_eq.
        -- lra.
  - unfold better in Hb.
    destruct (dict_get DPKey_eqb dp k) as [best|] eqn:Hget; [|discriminate].
    apply Qlt_bool_false in Hb.
    split; simpl.
    + assumption.
    + intros k0 v0 Hget0. destruct (Hs _ _ Hget0) as [b0 [Hin Hback]].
      exists b0. split; [apply in_or_app; left|]; assumption.
    + intros k0 v0 b0 Hin. apply in_app_or in Hin.
      destruct Hin as [Hin|[Heq|[]]].
      * apply (Hc _ _ _ Hin).
      * inversion Heq; subst. exists best. split; assumption.
Qed.

Lemma relax_inv_fold cands : forall done acc,
  relax_inv (B:=B) done acc ->
  relax_inv (B:=B) (done ++ cands) (fold_left (upd (B:=B)) cands acc).
Proof.
  induction cands as [|c cands IH]; intros done acc H; simpl.
  - rewrite app_nil_r. assumption.
  - replace (done ++ c :: cands) with ((done ++ [c]) ++ cands)
      by (rewrite <- app_assoc; reflexivity).
    apply IH, relax_inv_step, H.
Qed.

Lemma fold_upd_not_nil cands : forall acc,
  cands <> [] \/ fst acc <> [] -> fst (fold_left (upd (B:=B)) cands acc) <> [].
Proof.
  induction cands as [|c cands IH]; intros acc H; simpl.
  - destruct H; [congruence | assumption].
  - apply IH. right. destruct acc as [dp back], c as [[k v] b].
    unfold upd; simpl. destruct (better dp k v) eqn:E; simpl.
    + apply dict_set_not_nil.
    + unfold better in E. destruct dp; [discriminate E | discriminate].
Qed.

End Relaxation.

(** ** The layers of the search *)

Section Layers.
Variable slv : ViolinFingeringSolver.

Lemma trans_cost_finite prev_key cur_st rest :
  trans_cost slv prev_key cur_st rest = Finite (C_trans slv prev_key cur_st rest).
Proof. reflexivity. Qed.

Lemma relax_upd rest prev acc cur_st :
  relax slv rest prev acc cur_st = upd acc (cand slv rest prev cur_st).
Proof.
  destruct prev as [pk pc], acc as [dp back]. unfold relax.
  rewrite trans_cost_finite. reflexivity.
Qed.

Lemma relax_layer_fold rest dp_prev sts :
  relax_layer slv dp_prev rest sts
  = fold_left upd (cands slv rest dp_prev sts) ([], []).
Proof.
  unfold relax_layer, cands. generalize (@nil (DPKey * Q), @nil (DPKey * option DPKey)).
  induction dp_prev as [|prev dp_prev IH]; intros acc; simpl; [reflexivity|].
  rewrite fold_left_app, IH. f_equal.
  clear IH. revert acc. induction sts as [|s sts IHs]; intros acc; simpl.
  - reflexivity.
  - rewrite relax_upd. apply IHs.
Qed.

Lemma in_cands rest dp_prev sts k v b :
  In (k, v, b) (cands slv rest dp_prev sts) <->
  exists pk pc s, In (pk, pc) dp_prev /\ In s sts /\
    k = next_key pk s /\
    v = (pc + C_trans slv pk s rest + _note_cost slv s)%Q /\ b = Some pk.
Proof.
  unfold cands. rewrite in_flat_map. split.
  - intros [[pk pc] [Hin Hmap]]. apply in_map_iff in Hmap.
    destruct Hmap as [s [Heq Hs]]. unfold cand in Heq; simpl in Heq.
    inversion Heq; subst. exists pk, pc, s. auto.
  - intros [pk [pc [s [Hin [Hs [-> [-> ->]]]]]]].
    exists (pk, pc). split; [assumption|].
    apply in_map_iff. exists s. split; [reflexivity | assumption].
Qed.

Lemma init_key_inj s s' : init_key s = init_key s' -> s = s'.
Proof. unfold init_key. intros H. inversion H. reflexivity. Qed.

Lemma init_layer_spec sts :
  let acc := init_layer slv sts in
  NoDup (map fst (fst acc)) /\
  (forall k c, dict_get DPKey_eqb (fst acc) k = Some c ->
     exists s, In s sts /\ k = init_key s /\ c = _note_cost slv s /\
               dict_get DPKey_eqb (snd acc) k = Some None) /\
  (forall s, In s sts ->
     dict_get DPKey_eqb (fst acc) (init_key s) = Some (_note_cost slv s)).
Proof.
  unfold init_layer.
  pattern sts. apply rev_ind.
  - simpl. repeat split; [constructor | discriminate | tauto].
  - intros s l [Hnd [Hs Hc]]. rewrite fold_left_app. simpl.
    destruct (fold_left (init_step slv) l ([], [])) as [dp fb]. simpl in *.
    repeat split.
    + apply dict_set_NoDup; [apply DPKey_eqb_eq | assumption].
    + intros k c Hget.
      destruct (DPKey_eqb k (init_key s)) eqn:E.
      * apply DPKey_eqb_eq in E. subst k.
        rewrite dict_get_set_same in Hget by apply DPKey_eqb_eq.
        injection Hget as <-. exists s. repeat split.
        -- apply in_or_app. right. left. reflexivity.
        -- apply dict_get_set_same, DPKey_eqb_eq.
      * assert (Hne : k <> init_key s).
        { intros ->. rewrite (keqb_refl _ DPKey_eqb_eq) in E. discriminate. }
        rewrite dict_get_set_other in Hget by (apply DPKey_eqb_eq || assumption).
        destruct (Hs _ _ Hget) as [s0 [Hin [-> [-> Hback]]]].
        exists s0. repeat split.
        -- apply in_or_app. left. assumption.
        -- rewrite dict_get_set_other by (apply DPKey_eqb_eq || assumption).
           assumption.
    + intros s0 Hin. apply in_app_or in Hin.
      destruct (DPKey_eqb (init_key s0) (init_key s)) eqn:E.
      * apply DPKey_eqb_eq in E. rewrite E.
        apply init_key_inj in E. subst s0.
        apply dict_get_set_same, DPKey_eqb_eq.
      * assert (Hne : init_key s0 <> init_key s).
        { intros Heq. rewrite Heq, (keqb_refl _ DPKey_eqb_eq) in E. discriminate. }
        rewrite dict_get_set_other by (apply DPKey_eqb_eq || assumption).
        destruct Hin as [Hin|[Heq|[]]]; [auto|].
        subst s0. congruence.
Qed.

Lemma init_layer_inv sts :
  layer_inv slv [sts] [] (fst (init_layer slv sts)) [snd (init_layer slv sts)].
Proof.
  destruct (init_layer_spec sts) as [Hnd [Hs Hc]]. split.
  - assumption.
  - intros k c Hget. destruct (Hs _ _ Hget) as [s [Hin [-> [-> Hback]]]].
    exists []. split.
    + constructor. assumption.
    + simpl. rewrite Hback. reflexivity.
  - intros k ks c' Hr. inversion Hr; subst.
    exists (_note_cost slv s). split; [auto | lra].
Qed.

Lemma relax_layer_inv es rs dp backptr e r :
  layer_inv slv es rs dp backptr ->
  layer_inv slv (e :: es) (r :: rs)
    (fst (relax_layer slv dp r e))
    (backptr ++ [snd (relax_layer slv dp r e)]).
Proof.
  intros [Hnd Hs Hc]. rewrite relax_layer_fold.
  pose proof (relax_inv_fold (cands slv r dp e) [] ([], []) relax_inv_nil)
    as [Rnd Rs Rc].
  simpl in Rnd, Rs, Rc.
  destruct (fold_left upd (cands slv r dp e) ([], [])) as [dp' back'] eqn:Hf.
  simpl in *. split.
  - assumption.
  - intros k c Hget. destruct (Rs _ _ Hget) as [b [Hin Hback]].
    apply in_cands in Hin.
    destruct Hin as [pk [pc [s [Hin [Hse [-> [-> ->]]]]]]].
    apply (In_dict_get _ DPKey_eqb_eq _ _ _ Hnd) in Hin.
    destruct (Hs _ _ Hin) as [ks [Hreach Hrec]].
    exists (pk :: ks). split.
    + constructor; assumption.
    + rewrite rev_app_distr. simpl. rewrite Hback, Hrec. reflexivity.
  - intros k ks c' Hr. inversion Hr; subst.
    match goal with H : reach slv es rs (pk :: _) _ |- _ =>
      destruct (Hc _ _ _ H) as [c0 [Hget0 Hle0]] end.
    apply (dict_get_In _ DPKey_eqb_eq) in Hget0.
    destruct (Rc (next_key pk s)
                 (c0 + C_trans slv pk s r + _note_cost slv s)%Q (Some pk))
      as [v' [Hget' Hle']].
    { apply in_cands. exists pk, c0, s. auto. }
    exists v'. split; [assumption | lra].
Qed.

Lemma iterate_inv sts : forall prev_notes dp backptr es rs,
  layer_inv slv es rs dp backptr ->
  (length sts <= length prev_notes)%nat ->
  layer_inv slv (rev sts ++ es)
    (rev (map Note.rest_after_beats (firstn (length sts) prev_notes)) ++ rs)
    (fst (iterate slv dp backptr prev_notes sts))
    (snd (iterate slv dp backptr prev_notes sts)).
Proof.
  induction sts as [|e sts IH]; intros prev_notes dp backptr es rs Hinv Hlen.
  - destruct prev_notes; simpl; assumption.
  - destruct prev_notes as [|n ns]; simpl in Hlen; [lia|].
    simpl.
    pose proof (relax_layer_inv es rs dp backptr e (Note.rest_after_beats n) Hinv)
      as Hnext.
    destruct (relax_layer slv dp (Note.rest_after_beats n) e)
      as [dp_cur back_cur]. simpl in Hnext.
    specialize (IH ns dp_cur (backptr ++ [back_cur]) _ _ Hnext ltac:(lia)).
    rewrite <- !app_assoc. simpl. exact IH.
Qed.

Lemma iterate_last sts : forall prev_notes dp backptr,
  fst (iterate slv dp backptr prev_notes sts)
  = last (layers_from slv dp prev_notes sts) [].
Proof.
  induction sts as [|e sts IH]; intros prev_notes dp backptr.
  - destruct prev_notes; reflexivity.
  - destruct prev_notes as [|n ns]; [reflexivity|].
    simpl. destruct (relax_layer slv dp (Note.rest_after_beats n) e)
      as [dp_cur back_cur] eqn:E. simpl.
    rewrite (IH ns dp_cur). destruct (layers_from slv dp_cur ns sts) eqn:E2.
    + destruct ns, sts; discriminate.
    + reflexivity.
Qed.

Lemma relax_layer_not_nil dp r e :
  dp <> [] -> e <> [] -> fst (relax_layer slv dp r e) <> [].
Proof.
  intros Hdp He. rewrite relax_layer_fold. apply fold_upd_not_nil. left.
  destruct dp as [|prev dp]; [congruence|]. destruct e as [|s e]; [congruence|].
  unfold cands. simpl. discriminate.
Qed.

Lemma init_layer_not_nil e : e <> [] -> fst (init_layer slv e) <> [].
Proof.
  intros He. destruct e as [|s e]; [congruence|].
  unfold init_layer.
  assert (H : forall l acc, fst acc <> [] -> fst (fold_left (init_step slv) l acc) <> []).
  { induction l as [|a l IH]; intros acc Hacc; simpl; [assumption|].
    apply IH. destruct acc as [dp fb]; simpl. apply dict_set_not_nil. }
  simpl. apply H. simpl. discriminate.
Qed.

Lemma layers_from_not_nil sts : forall prev_notes dp,
  dp <> [] -> Forall (fun e => e <> []) sts ->
  Forall (fun layer => layer <> []) (layers_from slv dp prev_notes sts).
Proof.
  induction sts as [|e sts IH]; intros prev_notes dp Hdp Hsts.
  - destruct prev_notes; simpl; constructor; auto.
  - destruct prev_notes as [|n ns]; simpl; constructor; auto.
    inversion Hsts; subst. apply IH; [|assumption].
    apply relax_layer_not_nil; assumption.
Qed.

End Layers.

(** ** The minimum of the last layer *)

Lemma dict_min_fold (d : dp_table) : forall best,
  let r := fold_left
             (fun best kv' => if Qlt_bool (snd kv') (snd best) then kv' else best)
             d best in
  (r = best \/ In r d) /\ (snd r <= snd best)%Q /\
  (forall x, In x d -> (snd r <= snd x)%Q).
Proof.
  induction d as [|kv d IH]; intros best; simpl.
  - repeat split; [auto | lra | tauto].
  - destruct (Qlt_bool (snd kv) (snd best)) eqn:E.
    + apply Qlt_bool_iff in E.
      destruct (IH kv) as [Hin [Hle Hall]]. repeat split.
      * destruct Hin as [->|Hin]; auto.
      * lra.
      * intros x [<-|Hx]; auto.
    + apply Qlt_bool_false in E.
      destruct (IH best) as [Hin [Hle Hall]]. repeat split.
      * destruct Hin as [->|Hin]; auto.
      * assumption.
      * intros x [<-|Hx]; [lra | auto].
Qed.

Lemma dict_min_spec (d : dp_table) k c :
  dict_min d = Some (k, c) ->
  In (k, c) d /\ forall k' c', In (k', c') d -> (c <= c')%Q.
Proof.
  destruct d as [|kv d]; simpl; [discriminate|].
  intros [= H]. destruct (dict_min_fold d kv) as [Hin [Hle Hall]].
  rewrite H in Hin, Hle, Hall. simpl in *. split.
  - destruct Hin as [->|Hin]; auto.
  - intros k' c' [->|Hx]; [assumption|]. apply (Hall _ Hx).
Qed.

Lemma dict_min_None (d : dp_table) : dict_min d = None -> d = [].
Proof. destruct d; [reflexivity | discriminate]. Qed.

(** ** The objective, in note order *)

Section Objective.
Variable slv : ViolinFingeringSolver.

Lemma state_next_key k s : state (next_key k s) = s.
Proof.
  unfold next_key.
  destruct (finger s =? 2); [reflexivity|].
  destruct (finger s =? 3); [reflexivity|].
  destruct (finger s =? 4); reflexivity.
Qed.

Lemma last_default {A : Type} (l : list A) : forall x d d',
  last (x :: l) d = last (x :: l) d'.
Proof.
  induction l as [|y l IH]; intros x d d'; [reflexivity|].
  change (last (y :: l) d = last (y :: l) d'). apply IH.
Qed.

Lemma keys_from_snoc sts : forall k s,
  keys_from k (sts ++ [s])
  = keys_from k sts ++ [next_key (last (keys_from k sts) k) s].
Proof.
  induction sts as [|a sts IH]; intros k s; simpl; [reflexivity|].
  rewrite IH. f_equal. f_equal. f_equal.
  destruct (keys_from (next_key k a) sts); [reflexivity|].
  f_equal. apply last_default.
Qed.

Lemma keys_of_snoc sts s ks pk :
  keys_of sts = ks ++ [pk] ->
  keys_of (sts ++ [s]) = (ks ++ [pk]) ++ [next_key pk s].
Proof.
  destruct sts as [|s0 sts]; simpl.
  - intros H. destruct ks; discriminate.
  - intros H. rewrite keys_from_snoc.
    assert (Hl : last (keys_from (init_key s0) sts) (init_key s0) = pk).
    { transitivity (last (init_key s0 :: keys_from (init_key s0) sts) (init_key s0)).
      - destruct (keys_from (init_key s0) sts); reflexivity.
      - rewrite H. apply last_last. }
    rewrite Hl, <- H. reflexivity.
Qed.

Lemma sum_note_costs_snoc ks k :
  (sum_note_costs slv (ks ++ [k]) == sum_note_costs slv ks + _note_cost slv (state k))%Q.
Proof. induction ks as [|a ks IH]; simpl; [|rewrite IH]; ring. Qed.

Lemma sum_trans_costs_snoc ks : forall rs pk nk r,
  length rs = length ks ->
  (sum_trans_costs slv (ks ++ [pk; nk]) (rs ++ [r])
   == sum_trans_costs slv (ks ++ [pk]) rs + C_trans slv pk (state nk) r)%Q.
Proof.
  induction ks as [|a ks IH]; intros rs pk nk r Hlen.
  - destruct rs; [|discriminate]. simpl. ring.
  - destruct rs as [|r0 rs]; [discriminate|]. simpl in Hlen.
    injection Hlen as Hlen. specialize (IH rs pk nk r Hlen).
    destruct ks as [|b ks]; simpl in *.
    + rewrite IH. ring.
    + rewrite IH. ring.
Qed.

Lemma sum_trans_costs_extra ks : forall rs extra,
  length ks = S (length rs) ->
  sum_trans_costs slv ks (rs ++ extra) = sum_trans_costs slv ks rs.
Proof.
  induction ks as [|a ks IH]; intros rs extra Hlen; [discriminate|].
  destruct ks as [|b ks].
  - destruct rs; [|discriminate]. simpl. destruct extra; reflexivity.
  - destruct rs as [|r rs]; [discriminate|].
    simpl in Hlen. injection Hlen as Hlen.
    change (C_trans slv a (state b) r + sum_trans_costs slv (b :: ks) (rs ++ extra)
            = C_trans slv a (state b) r + sum_trans_costs slv (b :: ks) rs)%Q.
    rewrite (IH rs extra); [reflexivity | simpl; lia].
Qed.

(** A path of the search, read in note order. *)
Lemma reach_forward es rs ks c :
  reach slv es rs ks c ->
  rev ks = keys_of (map state (rev ks)) /\
  Forall2 (fun k e => In (state k) e) (rev ks) (rev es) /\
  (c == objective slv (rev ks) (rev rs))%Q /\
  length ks = S (length rs).
Proof.
  induction 1 as [e s Hin | es rs e r ks pk pc s Hr IH Hin].
  - simpl. repeat split.
    + constructor; [assumption | constructor].
    + unfold objective. simpl. ring.
  - destruct IH as [Hkeys [Hall [Hc Hlen]]].
    change (rev (next_key pk s :: pk :: ks))
      with (rev (pk :: ks) ++ [next_key pk s]).
    change (rev (e :: es)) with (rev es ++ [e]).
    change (rev (r :: rs)) with (rev rs ++ [r]).
    repeat split.
    + rewrite map_app. simpl map at 2. rewrite state_next_key.
      simpl rev in *. symmetry. apply keys_of_snoc. symmetry. exact Hkeys.
    + apply Forall2_app; [assumption|].
      constructor; [rewrite state_next_key; assumption | constructor].
    + unfold objective in *. simpl rev in *.
      rewrite sum_note_costs_snoc, state_next_key.
      rewrite <- app_assoc. simpl app at 2.
      rewrite sum_trans_costs_snoc
        by (rewrite !length_rev; simpl in Hlen; lia).
      rewrite state_next_key. rewrite Hc. ring.
    + simpl in *. lia.
Qed.

(** Every choice of one enumerated state per note is a path of the search. *)
Lemma forward_reach sts : forall es rs,
  sts <> [] -> Forall2 (fun s e => In s e) sts (rev es) ->
  length sts = S (length rs) ->
  exists c, reach slv es rs (rev (keys_of sts)) c /\
            (c == objective slv (keys_of sts) (rev rs))%Q.
Proof.
  induction sts as [|s sts IH] using rev_ind; intros es rs Hne Hall Hlen;
    [congruence|]. clear Hne.
  destruct es as [|e es].
  { apply Forall2_length in Hall. rewrite length_app in Hall. simpl in Hall. lia. }
  simpl rev in Hall. apply Forall2_app_inv_r in Hall.
  destruct Hall as [l1 [l2 [H1 [H2 Heq]]]].
  inversion H2 as [|x ? l2' ? Hs Hnil Hx]. inversion Hnil as [Hl2'|].
  rewrite <- Hx, <- Hl2' in Heq. clear H2 Hnil Hx Hl2' l2 l2'.
  apply app_inj_tail in Heq. destruct Heq as [<- <-].
  rewrite length_app in Hlen. simpl in Hlen.
  destruct sts as [|s0 sts'].
  - (* a single note *)
    apply Forall2_length in H1. rewrite length_rev in H1.
    destruct es; [|discriminate]. clear H1.
    destruct rs; [|simpl in Hlen; lia].
    exists (_note_cost slv s). split.
    + simpl. constructor. assumption.
    + unfold objective. simpl. ring.
  - destruct rs as [|r rs]; [simpl in Hlen; lia|].
    destruct (IH es rs) as [c [Hr Hc]]; [discriminate | assumption | simpl in *; lia |].
    remember (s0 :: sts') as l eqn:Hl.
    assert (Hne : keys_of l <> []) by (subst l; discriminate).
    destruct (exists_last Hne) as [ks [pk Hks]].
    rewrite (keys_of_snoc l s ks pk Hks).
    rewrite Hks in Hr, Hc. rewrite rev_app_distr in Hr. simpl in Hr.
    exists (c + C_trans slv pk s r + _note_cost slv s)%Q. split.
    + rewrite rev_app_distr. simpl. rewrite rev_app_distr. simpl.
      constructor; assumption.
    + unfold objective in *. simpl rev.
      rewrite sum_note_costs_snoc, state_next_key.
      rewrite <- app_assoc. simpl app at 2.
      rewrite sum_trans_costs_snoc.
      * rewrite state_next_key, Hc. ring.
      * assert (Hk : length (keys_of l) = length l).
        { subst l. simpl. f_equal. clear. generalize (init_key s0).
          induction sts'; intros; simpl; auto. }
        rewrite Hks, length_app in Hk. simpl in Hk.
        rewrite length_rev. simpl in Hlen. lia.
Qed.

End Objective.

(** ** The enumerated states *)

Lemma in_py_range lo hi a : In a (py_range lo hi) -> lo <= a < hi.
Proof.
  unfold py_range. rewrite in_map_iff. intros [k [<- Hk]].
  apply in_seq in Hk. lia.
Qed.

Lemma fold_left_preserves {A B : Type} (f : A -> B -> A) (P : A -> Prop)
  (l : list B) :
  (forall a b, In b l -> P a -> P (f a b)) ->
  forall a, P a -> P (fold_left f l a).
Proof.
  induction l as [|b l IH]; intros Hf a Ha; simpl; [assumption|].
  apply IH.
  - intros a' b' Hin. apply Hf. right. assumption.
  - apply Hf; [left; reflexivity | assumption].
Qed.

Section Enumeration.
Variable slv : ViolinFingeringSolver.

Lemma add_state_Forall (P : State -> Prop) acc key st :
  Forall P (fst acc) -> P st -> Forall P (fst (add_state acc key st)).
Proof.
  destruct acc as [states seen]. unfold add_state.
  destruct (existsb (skey_eqb key) seen); simpl; intros H Hst; [assumption|].
  apply Forall_app. split; [assumption | constructor; [assumption | constructor]].
Qed.

Lemma try_finger_ok pitch s_idx open_midi sh fing anchor0 acc :
  string_entry_ok (s_idx, open_midi) ->
  0 <= pitch - open_midi <= max_stop_semitones (p slv) ->
  (fing = 1 /\ anchor0 = pitch - open_midi) \/
  (fing = 2 /\ anchor0 = pitch - open_midi - o2 sh) \/
  (fing = 3 /\ anchor0 = pitch - open_midi - o3 sh) \/
  (fing = 4 /\ anchor0 = pitch - open_midi - o4 sh) ->
  Forall (state_ok slv pitch) (fst acc) ->
  Forall (state_ok slv pitch)
    (fst (try_finger slv s_idx (pitch - open_midi) pitch sh fing anchor0 acc)).
Proof.
  intros [Hidx Hrange] Hstop Hf Hacc. unfold try_finger.
  destruct ((1 <=? anchor0) && (anchor0 <=? max_anchor (p slv))) eqn:E;
    [|assumption].
  apply andb_true_iff in E. destruct E as [E1 E2].
  apply Z.leb_le in E1, E2.
  apply add_state_Forall; [assumption|].
  unfold state_ok; simpl in *.
  split; [reflexivity|].
  split; [exists open_midi; repeat split; try assumption; lia|].
  split; [lia|].
  assert (Hoff : anchor0 <= pitch - open_midi \/ True) by (right; exact I).
  split; [lia|].
  right. destruct Hf as [[-> ->]|[[-> ->]|[[-> ->]|[-> ->]]]]; intuition lia.
Qed.

Lemma states_on_string_ok pitch acc entry :
  string_entry_ok entry ->
  Forall (state_ok slv pitch) (fst acc) ->
  Forall (state_ok slv pitch) (fst (states_on_string slv pitch acc entry)).
Proof.
  intros Hentry Hacc. destruct entry as [s_idx open_midi].
  unfold states_on_string.
  destruct ((pitch - open_midi <? 0)
            || (max_stop_semitones (p slv) <? pitch - open_midi)) eqn:E;
    [assumption|].
  apply orb_false_iff in E. destruct E as [E1 E2].
  apply Z.ltb_ge in E1, E2.
  destruct (pitch - open_midi =? 0) eqn:E0.
  - apply Z.eqb_eq in E0.
    apply fold_left_preserves with (P := fun acc => Forall (state_ok slv pitch) (fst acc));
      [|assumption].
    intros acc1 sh _ Hacc1.
    apply fold_left_preserves with (P := fun acc => Forall (state_ok slv pitch) (fst acc));
      [|assumption].
    intros acc2 a Ha Hacc2. apply in_py_range in Ha.
    apply add_state_Forall; [assumption|].
    destruct Hentry as [Hidx Hrange]. simpl in *.
    unfold state_ok; simpl.
    split; [reflexivity|].
    split; [exists open_midi; repeat split; try assumption; lia|].
    split; [lia|]. split; [lia|].
    left. split; [reflexivity | lia].
  - apply fold_left_preserves with (P := fun acc => Forall (state_ok slv pitch) (fst acc));
      [|assumption].
    intros acc1 sh _ Hacc1.
    apply try_finger_ok; [assumption | lia | right; right; right; split; [reflexivity|lia] |].
    apply try_finger_ok; [assumption | lia | right; right; left; split; [reflexivity|lia] |].
    apply try_finger_ok; [assumption | lia | right; left; split; [reflexivity|lia] |].
    apply try_finger_ok; [assumption | lia | left; split; [reflexivity|lia] |].
    assumption.
Qed.

Lemma _states_for_pitch_ok pitch :
  Forall (state_ok slv pitch) (_states_for_pitch slv pitch).
Proof.
  unfold _states_for_pitch.
  assert (Hentries : Forall string_entry_ok (enumerate _OPEN_MIDIS)).
  { repeat constructor; simpl; lia. }
  assert (H0 : Forall (state_ok slv pitch) (fst (@nil State, @nil skey)))
    by constructor.
  revert H0. generalize (@nil State, @nil skey).
  induction Hentries as [|entry l Hentry Hl IH]; intros acc Hacc; simpl.
  - assumption.
  - apply IH. apply states_on_string_ok; assumption.
Qed.

Lemma state_ok_string_name pitch st :
  state_ok slv pitch st -> exists name, string_name st = Some name.
Proof.
  intros [_ [[om [_ [Hr _]]] _]]. unfold string_name.
  assert (H : string_idx st = 0 \/ string_idx st = 1
              \/ string_idx st = 2 \/ string_idx st = 3) by lia.
  destruct H as [-> | [-> | [-> | ->]]]; eexists; reflexivity.
Qed.

End Enumeration.

(** ** Event normalisation *)

Lemma has_type_N_not_R ev : has_type "N" ev = true -> has_type "R" ev = false.
Proof.
  unfold has_type. intros H. apply PyStr_eqb_eq in H. rewrite H. reflexivity.
Qed.

Lemma parse_from_cons i ev evs notes :
  parse_from i (ev :: evs) = Ok notes ->
  (has_type "N" ev = true /\
   exists midi notes',
     note_to_midi (ev_note ev) = Ok midi /\
     parse_from (S i) evs = Ok notes' /\
     notes = Note.mk i (ev_note ev) midi (ev_beats ev)
               (snd (scan_rests evs (ev_beats ev) 0.0%Q))
               (fst (scan_rests evs (ev_beats ev) 0.0%Q)) :: notes')
  \/ (has_type "N" ev = false /\ has_type "R" ev = true /\
      parse_from (S i) evs = Ok notes).
Proof.
  simpl. destruct (has_type "N" ev) eqn:EN.
  - intros H. left. split; [reflexivity|].
    destruct (note_to_midi (ev_note ev)) as [midi|e]; simpl in H; [|discriminate].
    destruct (scan_rests evs (ev_beats ev) 0.0%Q) as [gap rest_after].
    destruct (parse_from (S i) evs) as [notes'|e]; simpl in H; [|discriminate].
    injection H as <-. exists midi, notes'. auto.
  - destruct (has_type "R" ev) eqn:ER; [|discriminate].
    intros H. right. auto.
Qed.

Lemma parse_from_tags evs : forall i notes,
  parse_from i evs = Ok notes -> Forall tag_ok evs.
Proof.
  induction evs as [|ev evs IH]; intros i notes H; [constructor|].
  apply parse_from_cons in H.
  destruct H as [[HN [midi [notes' [_ [H _]]]]]|[HN [HR H]]].
  - constructor; [left; assumption | eauto].
  - constructor; [right; assumption | eauto].
Qed.

Lemma parse_from_positions evs : forall i notes,
  parse_from i evs = Ok notes ->
  map Note.event_index notes = n_positions i evs.
Proof.
  induction evs as [|ev evs IH]; intros i notes H.
  - injection H as <-. reflexivity.
  - apply parse_from_cons in H. simpl.
    destruct H as [[HN [midi [notes' [_ [H ->]]]]]|[HN [HR H]]]; rewrite HN.
    + simpl. f_equal. eauto.
    + eauto.
Qed.

(** Stepping over the rests that follow a note is the jump [i = j] of the
    source. *)
Lemma parse_from_skips_rests rests : forall i tail,
  Forall (fun ev => has_type "R" ev = true) rests ->
  parse_from i (rests ++ tail) = parse_from (i + length rests) tail.
Proof.
  induction rests as [|ev rests IH]; intros i tail H; simpl.
  - rewrite Nat.add_0_r. reflexivity.
  - inversion H as [|? ? HR Hrest]; subst.
    destruct (has_type "N" ev) eqn:EN.
    + apply has_type_N_not_R in EN. congruence.
    + rewrite HR, IH by assumption. f_equal. lia.
Qed.

Lemma n_positions_ge evs : forall i pos, In pos (n_positions i evs) -> (i <= pos)%nat.
Proof.
  induction evs as [|ev evs IH]; intros i pos; simpl; [tauto|].
  destruct (has_type "N" ev).
  - intros [<-|H]; [lia|]. apply IH in H. lia.
  - intros H. apply IH in H. lia.
Qed.

Lemma n_positions_NoDup evs : forall i, NoDup (n_positions i evs).
Proof.
  induction evs as [|ev evs IH]; intros i; simpl; [constructor|].
  destruct (has_type "N" ev); [|apply IH].
  constructor; [|apply IH].
  intros H. apply n_positions_ge in H. lia.
Qed.

(** ** The output sequence *)

Lemma Nat_eqb_eq' (a b : nat) : Nat.eqb a b = true <-> a = b.
Proof. apply Nat.eqb_eq. Qed.

Lemma index_fold_other (notes : list Note.t) : forall start d pos,
  ~ In pos (map Note.event_index notes) ->
  dict_get Nat.eqb
    (fold_left (fun d (ix : nat * Note.t) =>
                  dict_set Nat.eqb d (Note.event_index (snd ix)) (fst ix))
               (combine (seq start (length notes)) notes) d) pos
  = dict_get Nat.eqb d pos.
Proof.
  induction notes as [|n notes IH]; intros start d pos Hnot; simpl; [reflexivity|].
  rewrite IH by (intros H; apply Hnot; right; assumption).
  apply dict_get_set_other; [apply Nat_eqb_eq'|].
  intros ->. apply Hnot. left. reflexivity.
Qed.

Lemma index_fold_nth (notes : list Note.t) : forall start d k pos,
  NoDup (map Note.event_index notes) ->
  nth_error (map Note.event_index notes) k = Some pos ->
  dict_get Nat.eqb
    (fold_left (fun d (ix : nat * Note.t) =>
                  dict_set Nat.eqb d (Note.event_index (snd ix)) (fst ix))
               (combine (seq start (length notes)) notes) d) pos
  = Some (start + k)%nat.
Proof.
  induction notes as [|n notes IH]; intros start d k pos Hnd Hnth.
  - destruct k; discriminate.
  - simpl in Hnd. inversion Hnd as [|? ? Hnotin Hnd']; subst.
    destruct k as [|k]; simpl in Hnth |- *.
    + injection Hnth as <-.
      rewrite index_fold_other by assumption.
      rewrite dict_get_set_same by apply Nat_eqb_eq'. f_equal. lia.
    + rewrite (IH (S start) _ k pos Hnd' Hnth). f_equal. lia.
Qed.

Lemma index_by_event_nth notes k pos :
  NoDup (map Note.event_index notes) ->
  nth_error (map Note.event_index notes) k = Some pos ->
  dict_get Nat.eqb (index_by_event notes) pos = Some k.
Proof.
  intros Hnd Hnth. unfold index_by_event.
  rewrite (index_fold_nth notes 0 [] k pos Hnd Hnth). reflexivity.
Qed.

Lemma events_out_gen idx fings evs : forall i j,
  (forall k pos, nth_error (n_positions i evs) k = Some pos ->
                 dict_get Nat.eqb idx pos = Some (j + k)%nat) ->
  Forall tag_ok evs ->
  (length (n_positions i evs) <= length (skipn j fings))%nat ->
  mapM (make_event_out idx fings) (combine (seq i (length evs)) evs)
  = Ok (interleave evs (skipn j fings)).
Proof.
  induction evs as [|ev evs IH]; intros i j Hidx Htags Hlen; [reflexivity|].
  inversion Htags as [|? ? Htag Htags']; subst.
  simpl in Hidx, Hlen |- *.
  destruct (has_type "R" ev) eqn:ER.
  - assert (EN : has_type "N" ev = false).
    { destruct (has_type "N" ev) eqn:EN; [|reflexivity].
      apply has_type_N_not_R in EN. congruence. }
    rewrite EN in Hidx, Hlen.
    rewrite (IH (S i) j Hidx Htags' Hlen). reflexivity.
  - destruct Htag as [EN|ER']; [|congruence]. rewrite EN in Hidx, Hlen |- *.
    rewrite (Hidx 0%nat i eq_refl). rewrite Nat.add_0_r.
    simpl in Hlen.
    destruct (skipn j fings) as [|f rest] eqn:Hskip; [simpl in Hlen; lia|].
    assert (Hnth : nth_error fings j = Some f).
    { rewrite <- (Nat.add_0_r j), <- nth_error_skipn, Hskip. reflexivity. }
    rewrite Hnth.
    assert (Hrest : skipn (S j) fings = rest).
    { rewrite <- (skipn_skipn 1 j), Hskip. reflexivity. }
    rewrite (IH (S i) (S j)).
    + rewrite Hrest. reflexivity.
    + intros k pos Hk. rewrite (Hidx (S k) pos Hk). f_equal. lia.
    + assumption.
    + rewrite Hrest. simpl in Hlen. lia.
Qed.

Lemma events_out_interleave evs notes fings :
  _parse_events evs = Ok notes -> length fings = length notes ->
  mapM (make_event_out (index_by_event notes) fings)
       (combine (seq 0 (length evs)) evs)
  = Ok (interleave evs fings).
Proof.
  intros Hparse Hlen. unfold _parse_events in Hparse.
  pose proof (parse_from_positions _ _ _ Hparse) as Hpos.
  change fings with (skipn 0 fings) at 2.
  apply events_out_gen.
  - intros k pos Hk. simpl. apply index_by_event_nth.
    + rewrite Hpos. apply n_positions_NoDup.
    + rewrite Hpos. assumption.
  - apply (parse_from_tags _ _ _ Hparse).
  - simpl. rewrite <- Hpos, length_map. lia.
Qed.

(** ** Monadic maps and related lists *)

Lemma mapM_Forall2 {A B : Type} (f : A -> result B) l : forall r,
  mapM f l = Ok r -> Forall2 (fun a b => f a = Ok b) l r.
Proof.
  induction l as [|a l IH]; intros r H; simpl in H.
  - injection H as <-. constructor.
  - destruct (f a) as [b|e] eqn:Ea; simpl in H; [|discriminate].
    destruct (mapM f l) as [bs|e]; simpl in H; [|discriminate].
    injection H as <-. constructor; auto.
Qed.

Lemma mapM_ok {A B : Type} (f : A -> result B) l :
  (forall a, In a l -> exists b, f a = Ok b) -> exists r, mapM f l = Ok r.
Proof.
  induction l as [|a l IH]; intros H; simpl.
  - eexists; reflexivity.
  - destruct (H a (or_introl eq_refl)) as [b ->].
    destruct IH as [r ->]; [intros; apply H; right; assumption|].
    simpl. eexists; reflexivity.
Qed.

Lemma Forall2_map_r {A B C : Type} (R : A -> C -> Prop) (f : B -> C) l :
  forall l', Forall2 R l (map f l') <-> Forall2 (fun a b => R a (f b)) l l'.
Proof.
  induction l as [|a l IH]; intros [|b l']; simpl; split; intros H;
    try constructor; inversion H; subst; try apply IH; assumption.
Qed.

Lemma Forall2_map_l {A B C : Type} (R : C -> B -> Prop) (f : A -> C) l :
  forall l', Forall2 R (map f l) l' <-> Forall2 (fun a b => R (f a) b) l l'.
Proof.
  induction l as [|a l IH]; intros [|b l']; simpl; split; intros H;
    try constructor; inversion H; subst; try apply IH; assumption.
Qed.

Lemma Forall2_combine {A B : Type} (R : A -> B -> Prop) l l' :
  Forall2 R l l' -> forall a b, In (a, b) (combine l l') -> R a b.
Proof.
  induction 1 as [|x y l l' Hxy H IH]; intros a b Hin; simpl in Hin; [tauto|].
  destruct Hin as [[= <- <-]|Hin]; auto.
Qed.

(** ** The result of [solve] *)

Lemma make_fingering_key n k f :
  make_fingering (n, k) = Ok f -> pitch_midi (state k) = Note.pitch_midi n ->
  key_of_fingering f = k /\ fingering_of_note f n.
Proof.
  unfold make_fingering. destruct (string_name (state k)) as [name|] eqn:En;
    [|discriminate].
  intros [= <-] Hp. destruct k as [[si a [x2 x3 x4] fg sp pm] se l2 l3 l4].
  simpl in *. subst pm. unfold key_of_fingering, state_of_fingering; simpl.
  repeat split. assumption.
Qed.

Lemma check_playable_ok slv notes :
  Forall (fun n => _states_for_pitch slv (Note.pitch_midi n) <> []) notes ->
  check_playable notes
    (map (fun n => _states_for_pitch slv (Note.pitch_midi n)) notes) = Ok tt.
Proof.
  induction 1 as [|n notes Hn H IH]; simpl; [reflexivity|].
  destruct (_states_for_pitch slv (Note.pitch_midi n)); [congruence | assumption].
Qed.

Lemma check_playable_inv slv notes u :
  check_playable notes
    (map (fun n => _states_for_pitch slv (Note.pitch_midi n)) notes) = Ok u ->
  Forall (fun n => _states_for_pitch slv (Note.pitch_midi n) <> []) notes.
Proof.
  induction notes as [|n notes IH]; simpl; intros H; [constructor|].
  destruct (_states_for_pitch slv (Note.pitch_midi n)) eqn:E; [discriminate|].
  constructor; [congruence | auto].
Qed.

Lemma run_dp_inv slv n0 notes' :
  let notes := n0 :: notes' in
  let enums := map (fun n => _states_for_pitch slv (Note.pitch_midi n)) notes in
  layer_inv slv (rev enums)
    (rev (map Note.rest_after_beats (firstn (length notes') notes)))
    (fst (run_dp slv notes enums)) (snd (run_dp slv notes enums)).
Proof.
  intros notes enums. unfold run_dp. subst enums notes.
  cbn [map hd tl].
  pose proof (init_layer_inv slv (_states_for_pitch slv (Note.pitch_midi n0)))
    as H0.
  destruct (init_layer slv (_states_for_pitch slv (Note.pitch_midi n0)))
    as [dp0 fb]. simpl fst in H0. simpl snd in H0.
  pose proof (iterate_inv slv
    (map (fun n => _states_for_pitch slv (Note.pitch_midi n)) notes')
    (n0 :: notes') dp0 [fb] _ _ H0) as H.
  rewrite length_map in H. rewrite app_nil_r in H.
  cbn [rev]. apply H. simpl. lia.
Qed.

Lemma run_dp_not_nil slv n0 notes' :
  let notes := n0 :: notes' in
  let enums := map (fun n => _states_for_pitch slv (Note.pitch_midi n)) notes in
  Forall (fun e => e <> []) enums ->
  Forall (fun layer => layer <> []) (dp_layers slv notes enums) /\
  fst (run_dp slv notes enums) <> [].
Proof.
  intros notes enums Hall. subst notes enums. inversion Hall as [|? ? H0 Hrest]; subst.
  assert (HL : Forall (fun layer => layer <> [])
            (dp_layers slv (n0 :: notes')
               (map (fun n => _states_for_pitch slv (Note.pitch_midi n))
                    (n0 :: notes')))).
  { unfold dp_layers. cbn [map hd tl].
    apply layers_from_not_nil; [apply init_layer_not_nil|]; assumption. }
  split; [assumption|].
  unfold run_dp, dp_layers in *. cbn [map hd tl] in *.
  destruct (init_layer slv (_states_for_pitch slv (Note.pitch_midi n0)))
    as [dp0 fb]. simpl fst in HL.
  rewrite iterate_last.
  rewrite Forall_forall in HL. apply HL.
  remember (layers_from slv dp0 (n0 :: notes')
              (map (fun n => _states_for_pitch slv (Note.pitch_midi n)) notes')) as L.
  assert (L <> []) by (subst L; destruct notes'; discriminate).
  destruct (exists_last H) as [L' [x ->]]. rewrite last_last.
  apply in_or_app. right. left. reflexivity.
Qed.

Lemma objective_rests_extra slv ks rs extra :
  length ks = S (length rs) ->
  objective slv ks (rs ++ extra) = objective slv ks rs.
Proof.
  intros H. unfold objective. rewrite sum_trans_costs_extra by assumption.
  reflexivity.
Qed.

Lemma keys_of_length sts : length (keys_of sts) = length sts.
Proof.
  destruct sts as [|s sts]; simpl; [reflexivity|]. f_equal.
  generalize (init_key s). induction sts; intros; simpl; auto.
Qed.

Lemma solve_spec slv evs notes :
  _parse_events evs = Ok notes -> notes <> [] ->
  Forall (fun n => _states_for_pitch slv (Note.pitch_midi n) <> []) notes ->
  exists sol, solve slv evs = Ok sol /\ solution_facts slv notes sol /\
              events_out sol = interleave evs (note_fingerings sol).
Proof.
  intros Hparse Hne Hplay. destruct notes as [|n0 notes']; [congruence|]. clear Hne.
  unfold solve. rewrite Hparse. cbn [bind].
  rewrite (check_playable_ok slv _ Hplay). cbn [bind].
  set (notes := n0 :: notes') in *.
  set (enums := map (fun n => _states_for_pitch slv (Note.pitch_midi n)) notes).
  pose proof (run_dp_inv slv n0 notes') as Hinv.
  assert (Henums : Forall (fun e => e <> []) enums).
  { subst enums. apply Forall_map. exact Hplay. }
  pose proof (proj2 (run_dp_not_nil slv n0 notes' Henums)) as Hnn.
  cbv zeta in Hinv, Hnn. fold notes in Hinv, Hnn. fold enums in Hinv, Hnn.
  destruct (run_dp slv notes enums) as [dp backptr]. simpl fst in *. simpl snd in *.
  set (rs := rev (map Note.rest_after_beats (firstn (length notes') notes))) in *.
  destruct (dict_min dp) as [[end_key total]|] eqn:Hmin;
    [|apply dict_min_None in Hmin; contradiction].
  destruct (dict_min_spec _ _ _ Hmin) as [Hin Hleast].
  destruct Hinv as [Hnd Hsound Hcomplete].
  pose proof (In_dict_get _ DPKey_eqb_eq _ _ _ Hnd Hin) as Hget.
  destruct (Hsound _ _ Hget) as [ks [Hreach Hrec]].
  rewrite Hrec.
  destruct (reach_forward slv _ _ _ _ Hreach) as [Hkeys [Hall [Hcost Hlen]]].
  rewrite rev_involutive in Hall.
  set (path_keys := rev (end_key :: ks)) in *.
  assert (Hrs : map Note.rest_after_beats notes
                = rev rs ++ map Note.rest_after_beats (skipn (length notes') notes)).
  { subst rs. rewrite rev_involutive, <- map_app, firstn_skipn. reflexivity. }
  assert (Hlen_rs : length rs = length notes').
  { subst rs. rewrite length_rev, length_map, length_firstn. simpl. lia. }
  assert (Hlen_pk : length path_keys = length notes).
  { apply Forall2_length in Hall. subst enums. rewrite length_map in Hall.
    assumption. }
  (* the fingerings *)
  assert (Hall' : Forall2 (fun k n => In (state k)
                     (_states_for_pitch slv (Note.pitch_midi n))) path_keys notes).
  { subst enums. apply Forall2_map_r in Hall. exact Hall. }
  assert (Hok : Forall2 (fun n k => state_ok slv (Note.pitch_midi n) (state k))
                        notes path_keys).
  { apply Forall2_flip. eapply Forall2_impl; [|exact Hall'].
    intros k n Hk. simpl.
    pose proof (_states_for_pitch_ok slv (Note.pitch_midi n)) as Hf.
    rewrite Forall_forall in Hf. auto. }
  destruct (mapM_ok make_fingering (combine notes path_keys)) as [fings Hfings].
  { intros [n k] Hnk. pose proof (Forall2_combine _ _ _ Hok _ _ Hnk) as Hs.
    destruct (state_ok_string_name slv _ _ Hs) as [name Hname].
    unfold make_fingering. rewrite Hname. eexists; reflexivity. }
  rewrite Hfings. cbn [bind].
  pose proof (mapM_Forall2 _ _ _ Hfings) as HF.
  assert (Hpair : Forall2 (fun f (nk : Note.t * DPKey) =>
                     key_of_fingering f = snd nk /\ fingering_of_note f (fst nk))
                   fings (combine notes path_keys)).
  { apply Forall2_flip.
    assert (Hc : Forall (fun nk : Note.t * DPKey =>
              pitch_midi (state (snd nk)) = Note.pitch_midi (fst nk))
              (combine notes path_keys)).
    { apply Forall_forall. intros [n k] Hnk.
      pose proof (Forall2_combine _ _ _ Hok _ _ Hnk) as [Hp _]. exact Hp. }
    clear - HF Hc. induction HF as [|[n k] f l l' Hf HF IH]; [constructor|].
    inversion Hc; subst. constructor; [|auto].
    apply make_fingering_key; assumption. }
  assert (Hks : map key_of_fingering fings = path_keys
                /\ Forall2 fingering_of_note fings notes).
  { clear - Hpair Hlen_pk. revert fings Hpair Hlen_pk.
    generalize path_keys. induction notes as [|n notes IH];
      intros pk fings Hpair Hlen_pk.
    - destruct pk; [|discriminate]. inversion Hpair; subst. split; constructor.
    - destruct pk as [|k pk]; [discriminate|]. simpl in Hpair.
      inversion Hpair as [|f ? fs ? [Hk Hn] Hrest]; subst. simpl in *.
      destruct (IH pk fs Hrest ltac:(lia)) as [-> H2].
      split; [rewrite Hk; reflexivity | constructor; assumption]. }
  destruct Hks as [Hks Hfn].
  assert (Hlen_f : length fings = length notes).
  { apply Forall2_length in Hfn. exact Hfn. }
  rewrite (events_out_interleave evs notes fings Hparse Hlen_f). cbn [bind].
  eexists. split; [reflexivity|]. split; [|reflexivity].
  unfold solution_facts. cbn [total_cost note_fingerings]. rewrite Hks.
  assert (Hlen_ks : length path_keys = S (length (rev rs))).
  { rewrite length_rev, Hlen_rs, Hlen_pk. reflexivity. }
  repeat split.
  - exact Hkeys.
  - exact Hall'.
  - exact Hfn.
  - rewrite Hrs, objective_rests_extra by assumption. exact Hcost.
  - intros sts Hsts.
    assert (Hlen_s : length sts = length notes) by (apply (Forall2_length Hsts)).
    destruct (forward_reach slv sts (rev enums) rs) as [c [Hr Hc]].
    + destruct sts; [discriminate | discriminate].
    + rewrite rev_involutive. subst enums. apply Forall2_map_r. exact Hsts.
    + rewrite Hlen_s, Hlen_rs. reflexivity.
    + destruct (keys_of sts) as [|k0 krest] eqn:Hkeys0.
      { pose proof (keys_of_length sts) as Hl. rewrite Hkeys0 in Hl.
        simpl in Hl. subst notes. simpl in Hlen_s. lia. }
      rewrite <- Hkeys0 in *.
      assert (Hex : exists k ks', rev (keys_of sts) = k :: ks').
      { destruct (rev (keys_of sts)) eqn:E; [|eauto].
        apply (f_equal (@length _)) in E. rewrite length_rev, Hkeys0 in E.
        discriminate. }
      destruct Hex as [k [ks' Hrev]]. rewrite Hrev in Hr.
      destruct (Hcomplete _ _ _ Hr) as [c0 [Hget0 Hle0]].
      apply (dict_get_In _ DPKey_eqb_eq) in Hget0.
      pose proof (Hleast _ _ Hget0) as Hmin0.
      rewrite Hrs, objective_rests_extra
        by (rewrite keys_of_length, length_rev, Hlen_s, Hlen_rs; reflexivity).
      rewrite <- Hc. lra.
Qed.

Lemma solve_no_notes slv evs :
  _parse_events evs = Ok [] -> solve slv evs = Ok empty_solution.
Proof. intros H. unfold solve. rewrite H. reflexivity. Qed.

(** Every successful run is one of the two cases above. *)
Lemma solve_inv slv evs sol :
  solve slv evs = Ok sol ->
  exists notes, _parse_events evs = Ok notes /\
    ((notes = [] /\ sol = empty_solution) \/
     (notes <> [] /\
      Forall (fun n => _states_for_pitch slv (Note.pitch_midi n) <> []) notes /\
      solution_facts slv notes sol /\
      events_out sol = interleave evs (note_fingerings sol))).
Proof.
  intros H. destruct (_parse_events evs) as [notes|e] eqn:Hparse.
  - exists notes. split; [reflexivity|].
    destruct notes as [|n0 notes'].
    + left. rewrite (solve_no_notes slv evs Hparse) in H. injection H as <-. auto.
    + right. split; [discriminate|].
      assert (Hplay : Forall (fun n => _states_for_pitch slv (Note.pitch_midi n) <> [])
                             (n0 :: notes')).
      { unfold solve in H. rewrite Hparse in H. cbn [bind] in H.
        destruct (check_playable (n0 :: notes') _) as [u|e] eqn:Hc;
          [|discriminate].
        apply (check_playable_inv slv _ u Hc). }
      split; [assumption|].
      destruct (solve_spec slv evs _ Hparse ltac:(discriminate) Hplay)
        as [sol' [Hsol' Hfacts]].
      rewrite Hsol' in H. injection H as <-. exact Hfacts.
  - unfold solve in H. rewrite Hparse in H. discriminate.
Qed.


(** * The claims *)





Lemma in_interleave evs : forall fings b n f,
  In (OutN b n (Some f)) (interleave evs fings) -> In f fings.
Proof.
  induction evs as [|ev evs IH]; intros fings b n f; simpl; [tauto|].
  destruct (has_type "R" ev).
  - intros [H|H]; [discriminate | eauto].
  - destruct fings as [|f0 fings].
    + intros [H|H]; [discriminate | eauto].
    + intros [H|H]; [injection H as _ _ ->; left; reflexivity |].
      right. eauto.
Qed.

Lemma py_index_In {A : Type} (l : list A) i a : py_index l i = Some a -> In a l.
Proof.
  unfold py_index. destruct (i <? 0).
  - destruct (- i <=? Z.of_nat (length l)); [|discriminate]. apply nth_error_In.
  - apply nth_error_In.
Qed.

Lemma state_ok_fingering_inv slv pitch f :
  state_ok slv pitch (state_of_fingering f) -> fingering_inv slv f.
Proof.
  unfold state_ok, fingering_inv, state_of_fingering; simpl.
  intros [Hp [[om [Hidx [Hr Hstop]]] [Hs [Ha Hf]]]].
  split; [exists om; split; [assumption | lia]|].
  split; [intros Hfg; intuition lia|].
  split; [intros Hfg; intuition lia|].
  split; [intros Hfg; intuition lia|].
  split; [intros Hfg; intuition lia|].
  split; [|split; lia].
  intros Hfg. assert (Hz : Fingering.stop_semitones f = 0) by intuition lia.
  split; [assumption|].
  apply py_index_In in Hidx.
  replace (Fingering.pitch_midi f) with om by lia. assumption.
Qed.

(** C2. Every note emitted by [solve], in [note_fingerings] or in
    [events_out], satisfies the state invariants: its pitch is the open
    pitch of its string plus its stop; fingers 2, 3 and 4 sit at their shape
    offset above an anchor of at least 1; finger 1 sits on the anchor; finger
    0 is an open string; stop and anchor are within their bounds. *)
Theorem emitted_notes_satisfy_state_invariants (slv : ViolinFingeringSolver)
  (evs : list event) (sol : Solution) :
  solve slv evs = Ok sol ->
  forall f,
    In f (note_fingerings sol) \/
    (exists b n, In (OutN b n (Some f)) (events_out sol)) ->
    fingering_inv slv f.
Proof.
  intros Hsol f Hf. destruct (solve_inv slv evs sol Hsol) as [notes [Hparse Hcase]].
  destruct Hcase as [[-> ->]|[Hne [Hplay [[Hkeys [Hall [Hfn _]]] Hev]]]].
  - simpl in Hf. destruct Hf as [[]|[b [n []]]].
  - assert (Hin : In f (note_fingerings sol)).
    { destruct Hf as [Hin|[b [n Hin]]]; [assumption|].
      rewrite Hev in Hin. apply in_interleave in Hin. assumption. }
    clear Hf. apply Forall2_map_l in Hall.
    assert (Hst : Forall (fun f => exists pitch,
                     state_ok slv pitch (state_of_fingering f))
                   (note_fingerings sol)).
    { clear - Hall. induction Hall as [|f0 n l l' H0 H IH]; constructor; auto.
      exists (Note.pitch_midi n).
      pose proof (_states_for_pitch_ok slv (Note.pitch_midi n)) as Hok.
      rewrite Forall_forall in Hok. apply Hok. exact H0. }
    rewrite Forall_forall in Hst. destruct (Hst f Hin) as [pitch Hok].
    apply (state_ok_fingering_inv slv pitch f Hok).
Qed.

Lemma new_solver_default bpm0 slv :
  new_solver (default_params bpm0) = Ok slv -> slv = default_solver_at bpm0.
Proof.
  unfold new_solver. cbn [bpm default_params].
  destruct (Qeq_bool bpm0 0); [discriminate|]. intros [= <-]. reflexivity.
Qed.

Lemma default_A4_solve_at bpm0 :
  solve (default_solver_at bpm0) [N_ 1 "A4"] = Ok A4_solution.
Proof. vm_compute. reflexivity. Qed.

Lemma default_A4_solve : solve default_solver [N_ 1 "A4"] = Ok A4_solution.
Proof. exact (default_A4_solve_at 80). Qed.

Lemma emitted_notes_satisfy_state_invariants_witness :
  Forall (fingering_inv default_solver) (note_fingerings A4_solution).
Proof.
  apply Forall_forall. intros f Hf.
  apply (emitted_notes_satisfy_state_invariants default_solver
           [N_ 1 "A4"] A4_solution default_A4_solve f).
  left. exact Hf.
Defined.

Lemma note_to_midi_error s e :
  note_to_midi s = Err e -> e = InvalidNote s \/ e = KeyError.
Proof.
  unfold note_to_midi.
  destruct (fullmatch_note _) as [[[g1 acc] g3]|]; [|intros [= <-]; auto].
  destruct (assoc_N _NOTE_BASE _); [discriminate | intros [= <-]; auto].
Qed.






Lemma parse_rests_only evs : forall i,
  Forall (fun ev => has_type "R" ev = true) evs -> parse_from i evs = Ok [].
Proof.
  induction evs as [|ev evs IH]; intros i H; [reflexivity|].
  inversion H as [|? ? HR Hrest]; subst. simpl.
  destruct (has_type "N" ev) eqn:EN.
  - apply has_type_N_not_R in EN. congruence.
  - rewrite HR. apply IH. assumption.
Qed.

(** C5 fails on the code for inputs without a note.  An input made of rests
    only returns through the early exit of [solve], with an empty
    [events_out]: its rests are not emitted. *)
Theorem rests_only_input_emits_no_event (slv : ViolinFingeringSolver)
  (evs : list event) :
  Forall (fun ev => has_type "R" ev = true) evs ->
  solve slv evs = Ok empty_solution /\ events_out empty_solution = [].
Proof.
  intros H. split; [|reflexivity].
  apply solve_no_notes. apply parse_rests_only. assumption.
Qed.

Lemma rests_only_input_emits_no_event_witness :
  solve default_solver [R_ 1] = Ok empty_solution
  /\ events_out empty_solution = [].
Proof.
  apply (rests_only_input_emits_no_event default_solver [R_ 1]).
  constructor; [reflexivity | constructor].
Defined.


(** ** A single A4 with the default parameters *)

(** C3, as the code has it.  For the input [[("N", 1, "A4")]] and the
    default parameters, at any tempo, [solve] puts the note on the D string
    with finger 1 at stop 7 and anchor 7, and returns the total cost
    7 * 0.01 + 0 - 0.20 = -0.13.  The open A string is among the candidates
    and costs 0.1. *)
Theorem single_A4_is_first_finger_on_D (bpm0 : Q)
  (slv : ViolinFingeringSolver) :
  new_solver (default_params bpm0) = Ok slv ->
  exists sol f,
    solve slv [N_ 1 "A4"] = Ok sol /\
    note_fingerings sol = [f] /\
    events_out sol = [OutN 1 (pystr "A4") (Some f)] /\
    Fingering.string f = pystr "D" /\ Fingering.finger f = 1 /\
    Fingering.stop_semitones f = 7 /\ Fingering.anchor_semitones f = 7 /\
    (total_cost sol == -0.13)%Q /\
    In open_A (_states_for_pitch slv 69) /\
    (_note_cost slv open_A == 0.1)%Q.
Proof.
  intros Hslv. apply new_solver_default in Hslv. subst slv.
  exists A4_solution, D_first_finger_A4.
  split; [apply default_A4_solve_at|].
  split; [reflexivity|]. split; [reflexivity|].
  split; [reflexivity|]. split; [reflexivity|].
  split; [reflexivity|]. split; [reflexivity|].
  split; [vm_compute; reflexivity|].
  split; [vm_compute; tauto | vm_compute; reflexivity].
Qed.

Lemma single_A4_is_first_finger_on_D_witness :
  exists sol f,
    solve default_solver [N_ 1 "A4"] = Ok sol /\
    note_fingerings sol = [f] /\
    events_out sol = [OutN 1 (pystr "A4") (Some f)] /\
    Fingering.string f = pystr "D" /\ Fingering.finger f = 1 /\
    Fingering.stop_semitones f = 7 /\ Fingering.anchor_semitones f = 7 /\
    (total_cost sol == -0.13)%Q /\
    In open_A (_states_for_pitch default_solver 69) /\
    (_note_cost default_solver open_A == 0.1)%Q.
Proof.
  apply (single_A4_is_first_finger_on_D 80 default_solver). reflexivity.
Defined.

(** C3 as stated fails: [solve] returns for a single A4, and what it
    returns is not the open A string at cost 0.1. *)
Lemma single_A4_is_not_open_A :
  exists sol,
    solve default_solver [N_ 1 "A4"] = Ok sol /\
    ~ (exists f,
         note_fingerings sol = [f] /\
         Fingering.string f = pystr "A" /\ Fingering.finger f = 0 /\
         Fingering.stop_semitones f = 0 /\
         (total_cost sol == 0.1)%Q).
Proof.
  exists A4_solution. split; [exact default_A4_solve|].
  intros [f [Hf [_ [Hfinger _]]]].
  injection Hf as <-. discriminate Hfinger.
Qed.

(** C10. The total cost can be negative: with the default parameters, at
    any tempo, the single note A4 is played by the preferred finger 1 on the
    D string, and the bonus of -0.20 outweighs the stop cost of 0.07. *)
Theorem total_cost_can_be_negative (bpm0 : Q) (slv : ViolinFingeringSolver) :
  new_solver (default_params bpm0) = Ok slv ->
  exists note sol,
    solve slv [N_ 1 note] = Ok sol /\ (total_cost sol < 0)%Q.
Proof.
  intros Hslv. apply new_solver_default in Hslv. subst slv.
  exists "A4"%string, A4_solution. split; [apply default_A4_solve_at|].
  vm_compute. reflexivity.
Qed.

Lemma total_cost_can_be_negative_witness :
  exists note sol,
    solve default_solver [N_ 1 note] = Ok sol /\ (total_cost sol < 0)%Q.
Proof.
  apply (total_cost_can_be_negative 80 default_solver). reflexivity.
Defined.

(** ** The components of the transition cost *)

Section Components.
Variable slv : ViolinFingeringSolver.



End Components.

(** ** A repeated A4 with the default parameters *)






(** ** Unknown event types *)

Lemma not_tag_ok ev :
  ~ tag_ok ev <-> has_type "N" ev = false /\ has_type "R" ev = false.
Proof.
  unfold tag_ok. destruct (has_type "N" ev), (has_type "R" ev); intuition congruence.
Qed.

Lemma parse_from_unknown evs : forall i0 v i,
  parse_from i0 evs = Err (UnknownEventType v i) <->
  exists pre ev post,
    evs = pre ++ ev :: post /\ i = (i0 + length pre)%nat /\ ev_type ev = v /\
    ~ tag_ok ev /\ Forall event_ok pre.
Proof.
  induction evs as [|ev evs IH]; intros i0 v i.
  - simpl. split; [discriminate|].
    intros [pre [ev [post [H _]]]]. destruct pre; discriminate.
  - split.
    + simpl. destruct (has_type "N" ev) eqn:EN.
      * destruct (note_to_midi (ev_note ev)) as [midi|e] eqn:Em; simpl.
        -- destruct (scan_rests evs (ev_beats ev) 0.0%Q) as [gap rest_after].
           destruct (parse_from (S i0) evs) as [notes|e] eqn:Ep; simpl;
             [discriminate|].
           intros [= ->]. apply IH in Ep.
           destruct Ep as [pre [ev' [post [-> [-> [Hv [Hbad Hpre]]]]]]].
           exists (ev :: pre), ev', post. simpl.
           repeat split; try assumption; try lia.
           constructor; [|assumption].
           split; [left; assumption | intros _; eauto].
        -- intros [= ->]. apply note_to_midi_error in Em.
           destruct Em; discriminate.
      * destruct (has_type "R" ev) eqn:ER.
        -- intros Ep. apply IH in Ep.
           destruct Ep as [pre [ev' [post [-> [-> [Hv [Hbad Hpre]]]]]]].
           exists (ev :: pre), ev', post. simpl.
           repeat split; try assumption; try lia.
           constructor; [|assumption].
           split; [right; assumption | congruence].
        -- intros [= <- <-]. exists [], ev, evs. simpl.
           repeat split; try lia; [|constructor].
           apply not_tag_ok. auto.
    + intros [pre [ev' [post [Heq [-> [Hv [Hbad Hpre]]]]]]].
      destruct pre as [|e pre]; simpl in Heq; injection Heq as <- ->.
      * apply not_tag_ok in Hbad. destruct Hbad as [EN ER].
        simpl. rewrite EN, ER, Hv. f_equal. f_equal. lia.
      * inversion Hpre as [|? ? [Htag Hname] Hpre']; subst.
        assert (Hrest : parse_from (S i0) (pre ++ ev' :: post)
                        = Err (UnknownEventType (ev_type ev')
                                 (i0 + length (ev :: pre)))).
        { apply IH. exists pre, ev', post. simpl.
          repeat split; try assumption; lia. }
        simpl. destruct (has_type "N" ev) eqn:EN.
        -- destruct (Hname eq_refl) as [midi ->]. simpl.
           destruct (scan_rests _ _ _) as [gap rest_after].
           rewrite Hrest. reflexivity.
        -- destruct Htag as [Htag|Htag]; [congruence|]. rewrite Htag.
           exact Hrest.
Qed.

Lemma parse_from_ok evs : forall i0,
  Forall event_ok evs -> exists notes, parse_from i0 evs = Ok notes.
Proof.
  induction evs as [|ev evs IH]; intros i0 H; [eexists; reflexivity|].
  inversion H as [|? ? [Htag Hname] Hrest]; subst.
  destruct (IH (S i0) Hrest) as [notes Hnotes]. simpl.
  destruct (has_type "N" ev) eqn:EN.
  - destruct (Hname eq_refl) as [midi ->]. simpl.
    destruct (scan_rests _ _ _) as [gap rest_after].
    rewrite Hnotes. simpl. eexists; reflexivity.
  - destruct Htag as [Htag|Htag]; [congruence|]. rewrite Htag. eauto.
Qed.

Lemma check_playable_error_kind notes sts e :
  check_playable notes sts = Err e -> exists name midi, e = NoPlayableState name midi.
Proof.
  revert sts. induction notes as [|n notes IH]; intros [|s sts]; simpl;
    try discriminate.
  destruct s; [intros [= <-]; eauto | eauto].
Qed.

(** The errors of [solve] are those of normalisation, or a note without a
    playable state. *)
Lemma solve_error slv evs e :
  solve slv evs = Err e ->
  _parse_events evs = Err e \/
  (exists notes name midi,
     _parse_events evs = Ok notes /\ e = NoPlayableState name midi).
Proof.
  intros H. destruct (_parse_events evs) as [notes|e0] eqn:Hparse.
  - right. destruct notes as [|n0 notes'].
    + rewrite (solve_no_notes slv evs Hparse) in H. discriminate.
    + destruct (check_playable (n0 :: notes')
                  (map (fun n => _states_for_pitch slv (Note.pitch_midi n))
                       (n0 :: notes'))) as [u|e1] eqn:Hc.
      * apply check_playable_inv in Hc.
        destruct (solve_spec slv evs _ Hparse ltac:(discriminate) Hc)
          as [sol [Hsol _]]. congruence.
      * unfold solve in H. rewrite Hparse in H. cbn [bind] in H.
        rewrite Hc in H. cbn [bind] in H. injection H as <-.
        destruct (check_playable_error_kind _ _ _ Hc) as [name [midi ->]].
        exists (n0 :: notes'), name, midi. auto.
  - left. unfold solve in H. rewrite Hparse in H. cbn [bind] in H. injection H as <-. reflexivity.
Qed.

(** C9, as the code has it.  [solve] fails with [UnknownEventType value
    index] exactly when the event at [index] carries the tag [value], that
    tag in upper case is neither N nor R, and every event before it is a
    rest or a note (tags compared in upper case) whose name, for a note,
    parses.  Every input made only of such events passes normalisation. *)
Theorem unknown_event_type_iff_first_bad_tag (slv : ViolinFingeringSolver) :
  (forall evs v i,
     solve slv evs = Err (UnknownEventType v i) <->
     exists pre ev post,
       evs = pre ++ ev :: post /\ i = length pre /\ ev_type ev = v /\
       ~ tag_ok ev /\ Forall event_ok pre) /\
  (forall evs, Forall event_ok evs ->
     exists notes, _parse_events evs = Ok notes).
Proof.
  split.
  - intros evs v i. rewrite <- (parse_from_unknown evs 0 v i). split.
    + intros H. apply solve_error in H.
      destruct H as [H|[notes [name [midi [_ H]]]]]; [exact H | discriminate].
    + intros H. unfold solve, _parse_events. rewrite H. reflexivity.
  - intros evs H. apply parse_from_ok. assumption.
Qed.

Lemma unknown_event_type_iff_first_bad_tag_witness :
  solve default_solver [R_ 1; mkEvent (pystr "X") 1 []]
  = Err (UnknownEventType (pystr "X") 1)
  /\ exists notes, _parse_events [R_ 1; N_ 1 "A4"] = Ok notes.
Proof.
  split.
  - apply (proj1 (unknown_event_type_iff_first_bad_tag default_solver)).
    exists [R_ 1], (mkEvent (pystr "X") 1 []), []. repeat split.
    + intros [H|H]; vm_compute in H; discriminate.
    + constructor; [|constructor]. split; [right; reflexivity|].
      intros H. vm_compute in H. discriminate.
  - apply (proj2 (unknown_event_type_iff_first_bad_tag default_solver)).
    constructor; [|constructor; [|constructor]].
    + split; [right; reflexivity|]. intros H. vm_compute in H. discriminate.
    + split; [left; reflexivity|]. intros _. exists 69. reflexivity.
Defined.

(** C9 as stated fails in both directions of its reading.  An input with a
    tag outside N and R fails with [InvalidNote] when a malformed note comes
    first; and an input whose tags are all N can fail normalisation. *)
Lemma bad_tag_after_bad_note_is_invalid_note :
  let evs := [N_ 1 "H4"; mkEvent (pystr "X") 1 []] in
  (exists ev, In ev evs /\ ev_type ev <> pystr "N" /\ ev_type ev <> pystr "R") /\
  solve default_solver evs = Err (InvalidNote (pystr "H4")) /\
  Forall (fun ev => ev_type ev = pystr "N") [N_ 1 "H4"] /\
  _parse_events [N_ 1 "H4"] = Err (InvalidNote (pystr "H4")).
Proof.
  cbv zeta. split.
  - exists (mkEvent (pystr "X") 1 []). split; [right; left; reflexivity|].
    split; discriminate.
  - split; [reflexivity|]. split; [|reflexivity].
    constructor; [reflexivity | constructor].
Qed.

(** ** Longer rests *)




Section Monotone.
Variable slv : ViolinFingeringSolver.
Hypothesis tempo_positive : (0 <= sec_per_beat slv)%Q.
Hypothesis multiplier_discounts : (long_rest_shift_multiplier (p slv) <= 1)%Q.
Hypothesis event_cost_nonneg : (0 <= shift_event_cost (p slv))%Q.
Hypothesis semitone_cost_nonneg : (0 <= shift_cost_per_semitone (p slv))%Q.
Hypothesis floor_below_event_cost :
  (min_shift_event_cost_after_long_rest (p slv) <= shift_event_cost (p slv))%Q.





End Monotone.



(** ** Note names *)

(** *** Stripping *)

Lemma lstrip_blank ws : forall rest,
  blank ws -> PyStr.lstrip (ws ++ rest) = PyStr.lstrip rest.
Proof.
  induction ws as [|c ws IH]; intros rest H; [reflexivity|].
  inversion H as [|? ? Hc Hws]; subst. simpl. rewrite Hc. auto.
Qed.

Lemma lstrip_head c rest :
  PyStr.isspace c = false -> PyStr.lstrip (c :: rest) = c :: rest.
Proof. intros H. simpl. rewrite H. reflexivity. Qed.


Lemma strip_padded ws1 ws2 c mid d :
  blank ws1 -> blank ws2 ->
  PyStr.isspace c = false -> PyStr.isspace d = false ->
  PyStr.strip (ws1 ++ (c :: mid ++ [d]) ++ ws2) = c :: mid ++ [d].
Proof.
  intros H1 H2 Hc Hd. unfold PyStr.strip, PyStr.rstrip.
  assert (E1 : PyStr.lstrip (ws1 ++ (c :: mid ++ [d]) ++ ws2)
               = (c :: mid ++ [d]) ++ ws2).
  { rewrite lstrip_blank by assumption. apply lstrip_head. assumption. }
  rewrite E1.
  assert (E2 : rev ((c :: mid ++ [d]) ++ ws2) = rev ws2 ++ d :: rev (c :: mid)).
  { rewrite rev_app_distr. f_equal.
    change (c :: mid ++ [d]) with ((c :: mid) ++ [d]).
    rewrite rev_app_distr. reflexivity. }
  rewrite E2.
  rewrite lstrip_blank by (apply Forall_rev; assumption).
  rewrite lstrip_head by assumption.
  change (d :: rev (c :: mid)) with (rev [d] ++ rev (c :: mid)).
  rewrite <- rev_app_distr, rev_involutive. reflexivity.
Qed.


(** *** Character classes *)

Lemma is_note_letter_cases c :
  is_note_letter c = true ->
  In c [65; 66; 67; 68; 69; 70; 71; 97; 98; 99; 100; 101; 102; 103]%N.
Proof.
  unfold is_note_letter. rewrite orb_true_iff, !andb_true_iff, !N.leb_le.
  intros H. simpl.
  assert (c = 65 \/ c = 66 \/ c = 67 \/ c = 68 \/ c = 69 \/ c = 70 \/ c = 71
          \/ c = 97 \/ c = 98 \/ c = 99 \/ c = 100 \/ c = 101 \/ c = 102
          \/ c = 103)%N by lia.
  intuition auto.
Qed.

Lemma letter_base_cases c :
  letter_base c <> None ->
  In c [65; 66; 67; 68; 69; 70; 71; 97; 98; 99; 100; 101; 102; 103]%N.
Proof.
  unfold letter_base. simpl.
  repeat match goal with
         | |- context [N.eqb c ?k] =>
             destruct (N.eqb_spec c k); [subst; intros _; tauto|]
         end.
  congruence.
Qed.

Ltac each_letter H :=
  simpl in H;
  repeat (destruct H as [H|H]; [subst|]); [..|contradiction].

Lemma letter_is_note_letter c :
  letter_base c <> None ->
  is_note_letter c = true /\ PyStr.isspace c = false /\
  assoc_N _NOTE_BASE (PyStr.upper_char c) = letter_base c.
Proof.
  intros H. apply letter_base_cases in H. each_letter H; repeat split.
Qed.

Lemma replace_replace s :
  PyStr.replace flat_sign b_char (PyStr.replace sharp_sign hash_char s)
  = map normal_char s.
Proof. unfold PyStr.replace. rewrite map_map. reflexivity. Qed.

Lemma normal_char_letter c :
  letter_base c <> None -> normal_char c = c.
Proof. intros H. apply letter_base_cases in H. each_letter H; reflexivity. Qed.

Lemma accidental_cases c :
  accidental_value c <> None ->
  c = hash_char \/ c = sharp_sign \/ c = b_char \/ c = flat_sign.
Proof.
  unfold accidental_value.
  destruct (N.eqb_spec c hash_char); [auto|].
  destruct (N.eqb_spec c sharp_sign); [auto|].
  destruct (N.eqb_spec c b_char); [auto|].
  destruct (N.eqb_spec c flat_sign); [auto|]. simpl. congruence.
Qed.

Lemma normal_char_accidental c :
  accidental_value c <> None ->
  is_accidental (normal_char c) = true /\
  accidental_value c
  = Some (if N.eqb (normal_char c) hash_char then 1 else -1).
Proof.
  intros H. apply accidental_cases in H.
  destruct H as [-> | [-> | [-> | ->]]]; split; reflexivity.
Qed.

Lemma isdigit_cases c :
  PyStr.isdigit c = true ->
  In c [48; 49; 50; 51; 52; 53; 54; 55; 56; 57]%N.
Proof.
  unfold PyStr.isdigit, PyStr.digit_value.
  destruct ((48 <=? c)%N && (c <=? 57)%N) eqn:E; [|discriminate].
  apply andb_true_iff in E. rewrite !N.leb_le in E. intros _. simpl.
  assert (c = 48 \/ c = 49 \/ c = 50 \/ c = 51 \/ c = 52 \/ c = 53 \/ c = 54
          \/ c = 55 \/ c = 56 \/ c = 57)%N by lia.
  intuition auto.
Qed.

Lemma digit_facts c :
  PyStr.isdigit c = true ->
  normal_char c = c /\ is_accidental c = false /\ PyStr.isspace c = false /\
  N.eqb c minus_char = false /\ exists v, PyStr.digit_value c = Some v.
Proof.
  intros H. apply isdigit_cases in H.
  each_letter H; repeat split; eexists; reflexivity.
Qed.

Lemma normal_digits ds :
  Forall (fun c => PyStr.isdigit c = true) ds -> map normal_char ds = ds.
Proof.
  induction 1 as [|c ds Hc H IH]; [reflexivity|]. simpl map.
  rewrite IH. f_equal. apply (digit_facts c Hc).
Qed.

Lemma forallb_isdigit ds :
  Forall (fun c => PyStr.isdigit c = true) ds -> forallb PyStr.isdigit ds = true.
Proof. intros H. apply forallb_forall. apply Forall_forall. exact H. Qed.

(** *** The octave *)

Lemma int_digits_fold ds : forall acc,
  Forall (fun c => PyStr.isdigit c = true) ds ->
  fold_left (fun acc c => match PyStr.digit_value c with
                          | Some d => 10 * acc + d
                          | None => acc
                          end) ds acc
  = acc * 10 ^ Z.of_nat (length ds) + decimal ds.
Proof.
  induction ds as [|d ds IH]; intros acc H.
  - simpl. lia.
  - inversion H as [|? ? Hd Hds]; subst.
    cbn [fold_left decimal length]. rewrite IH by assumption.
    rewrite Nat2Z.inj_succ, Z.pow_succ_r by lia.
    destruct (digit_facts d Hd) as [_ [_ [_ [_ [v ->]]]]]. ring.
Qed.

Lemma int_digits_decimal ds :
  Forall (fun c => PyStr.isdigit c = true) ds ->
  PyStr.int_digits ds = decimal ds.
Proof. intros H. unfold PyStr.int_digits. rewrite int_digits_fold by assumption. lia. Qed.

Lemma octave_text_facts n :
  nt_digits n <> [] -> Forall (fun c => PyStr.isdigit c = true) (nt_digits n) ->
  is_octave (octave_text n) = true /\
  int_of_octave (octave_text n) = octave_of n /\
  map normal_char (octave_text n) = octave_text n /\
  exists c r d front, octave_text n = c :: r /\ is_accidental c = false /\
    octave_text n = front ++ [d] /\ PyStr.isspace d = false.
Proof.
  intros Hne Hd. unfold octave_text, octave_of.
  destruct (nt_digits n) as [|d0 ds] eqn:Eds; [congruence|].
  assert (Hfb : forallb PyStr.isdigit (d0 :: ds) = true)
    by (apply forallb_isdigit; assumption).
  assert (Hlast : exists d front, d0 :: ds = front ++ [d]
                                  /\ PyStr.isspace d = false).
  { destruct (exists_last (l := d0 :: ds) ltac:(discriminate)) as [front [d E]].
    exists d, front. split; [assumption|].
    rewrite E in Hd. apply Forall_app in Hd. destruct Hd as [_ Hd].
    inversion Hd; subst. apply digit_facts. assumption. }
  destruct Hlast as [d [front [Efront Hsp]]].
  inversion Hd as [|? ? Hd0 Hds]; subst.
  destruct (digit_facts d0 Hd0) as [_ [Hacc [_ [Hminus _]]]].
  destruct (nt_negative n); cbn [app].
  - repeat split.
    + unfold is_octave. rewrite N.eqb_refl. exact Hfb.
    + unfold int_of_octave. rewrite N.eqb_refl, int_digits_decimal by assumption. reflexivity.
    + change (map normal_char (minus_char :: d0 :: ds))
        with (normal_char minus_char :: map normal_char (d0 :: ds)).
      rewrite (normal_digits (d0 :: ds) Hd). reflexivity.
    + exists minus_char, (d0 :: ds), d, (minus_char :: front).
      repeat split; [|assumption]. rewrite Efront. reflexivity.
  - repeat split.
    + unfold is_octave. rewrite Hminus. exact Hfb.
    + unfold int_of_octave. rewrite Hminus, int_digits_decimal by assumption. reflexivity.
    + apply (normal_digits (d0 :: ds) Hd).
    + exists d0, ds, d, front. repeat split; assumption.
Qed.

(** *** Matching *)

Lemma try_acc_short k rest :
  forallb is_accidental (firstn k rest) = false -> try_acc k rest = None.
Proof. intros H. unfold try_acc. rewrite H, andb_false_r. reflexivity. Qed.

Lemma try_acc_exact accs oct :
  forallb is_accidental accs = true -> is_octave oct = true ->
  try_acc (length accs) (accs ++ oct) = Some (accs, oct).
Proof.
  intros Ha Ho. unfold try_acc.
  rewrite firstn_app, Nat.sub_diag, firstn_all, firstn_O, app_nil_r.
  rewrite skipn_app, Nat.sub_diag, skipn_all, skipn_O.
  rewrite Nat.eqb_refl, Ha. cbn [andb app]. rewrite Ho. reflexivity.
Qed.

Lemma fullmatch_render l accs oct :
  is_note_letter l = true -> (length accs <= 2)%nat ->
  forallb is_accidental accs = true -> is_octave oct = true ->
  (exists c r, oct = c :: r /\ is_accidental c = false) ->
  fullmatch_note (l :: accs ++ oct) = Some (l, accs, oct).
Proof.
  intros Hl Hlen Hacc Hoct [c [r [Heq Hc]]]. unfold fullmatch_note.
  rewrite Hl.
  pose proof (try_acc_exact accs oct Hacc Hoct) as Hk.
  destruct accs as [|a [|b [|x accs]]]; simpl in Hlen; [| | |lia];
    cbn [length] in Hk.
  - rewrite (try_acc_short 2), (try_acc_short 1), Hk; [reflexivity| |];
      subst oct; simpl; rewrite Hc; reflexivity.
  - rewrite (try_acc_short 2), Hk; [reflexivity|].
    subst oct. simpl. rewrite Hc, andb_false_r. reflexivity.
  - rewrite Hk. reflexivity.
Qed.

Lemma try_acc_inv k rest acc tl :
  try_acc k rest = Some (acc, tl) ->
  rest = acc ++ tl /\ length acc = k /\
  forallb is_accidental acc = true /\ is_octave tl = true.
Proof.
  unfold try_acc.
  destruct (Nat.eqb (length (firstn k rest)) k
            && forallb is_accidental (firstn k rest)
            && is_octave (skipn k rest)) eqn:E; [|discriminate].
  intros [= <- <-]. apply andb_true_iff in E. destruct E as [E E3].
  apply andb_true_iff in E. destruct E as [E1 E2]. apply Nat.eqb_eq in E1.
  repeat split; try assumption. symmetry. apply firstn_skipn.
Qed.

Lemma fullmatch_inv t g1 acc g3 :
  fullmatch_note t = Some (g1, acc, g3) ->
  t = g1 :: acc ++ g3 /\ is_note_letter g1 = true /\ (length acc <= 2)%nat /\
  forallb is_accidental acc = true /\ is_octave g3 = true.
Proof.
  unfold fullmatch_note. destruct t as [|c rest]; [discriminate|].
  destruct (is_note_letter c) eqn:Hc; [|discriminate].
  destruct (try_acc 2 rest) as [[a2 t2]|] eqn:E2; simpl.
  { intros [= <- <- <-]. apply try_acc_inv in E2.
    destruct E2 as [-> [Hlen [Ha Ho]]]. repeat split; auto; lia. }
  destruct (try_acc 1 rest) as [[a1 t1]|] eqn:E1; simpl.
  { intros [= <- <- <-]. apply try_acc_inv in E1.
    destruct E1 as [-> [Hlen [Ha Ho]]]. repeat split; auto; lia. }
  destruct (try_acc 0 rest) as [[a0 t0]|] eqn:E0; simpl; [|discriminate].
  intros [= <- <- <-]. apply try_acc_inv in E0.
  destruct E0 as [-> [Hlen [Ha Ho]]]. repeat split; auto; lia.
Qed.






Lemma sum_accidentals_fold accs : forall base,
  Forall (fun c => accidental_value c <> None) accs ->
  fold_left (fun sem ch => sem + (if N.eqb ch hash_char then 1 else -1))
            (map normal_char accs) base
  = base + sum_accidentals accs.
Proof.
  induction accs as [|c accs IH]; intros base H; simpl; [lia|].
  inversion H as [|? ? Hc Hrest]; subst.
  destruct (normal_char_accidental c Hc) as [_ Hv]. rewrite Hv, IH by assumption.
  lia.
Qed.

(** *** Both directions *)

Lemma render_split n :
  note_text_ok n ->
  exists mid d, render n = nt_letter n :: mid ++ [d] /\
                PyStr.isspace d = false.
Proof.
  intros [_ [_ [_ [Hne Hd]]]].
  destruct (octave_text_facts n Hne Hd)
    as [_ [_ [_ [c [r [d [front [_ [_ [Hlast Hsp]]]]]]]]]].
  exists (nt_accidentals n ++ front), d. split; [|assumption].
  unfold render. fold (octave_text n). rewrite Hlast, app_assoc. reflexivity.
Qed.

Lemma note_to_midi_render n ws1 ws2 :
  note_text_ok n -> blank ws1 -> blank ws2 ->
  note_to_midi (ws1 ++ render n ++ ws2) = Ok (midi_of n).
Proof.
  intros Hok H1 H2.
  destruct (render_split n Hok) as [mid [d [Hr Hsp]]].
  destruct Hok as [Hl [Hlen [Hacc [Hne Hd]]]].
  destruct (letter_is_note_letter _ Hl) as [Hletter [Hlsp Hbase]].
  destruct (octave_text_facts n Hne Hd) as [Hoct [Hint [Hnorm Hhead]]].
  unfold note_to_midi. rewrite replace_replace.
  rewrite Hr, strip_padded by assumption. rewrite <- Hr.
  unfold render. fold (octave_text n).
  cbn [map]. rewrite map_app, Hnorm, (normal_char_letter _ Hl).
  rewrite fullmatch_render; try assumption.
  - rewrite Hbase. destruct (letter_base (nt_letter n)) as [base|] eqn:Eb;
      [|congruence].
    rewrite sum_accidentals_fold by assumption. rewrite Hint.
    unfold midi_of. rewrite Eb. reflexivity.
  - rewrite length_map. assumption.
  - apply forallb_forall. intros c Hc. apply in_map_iff in Hc.
    destruct Hc as [c0 [<- Hc0]]. rewrite Forall_forall in Hacc.
    apply (normal_char_accidental c0 (Hacc c0 Hc0)).
  - destruct Hhead as [c [r [_ [_ [Hc [Hca _]]]]]]. eauto.
Qed.

Lemma is_note_letter_base g :
  is_note_letter g = true -> letter_base g <> None.
Proof.
  intros H. apply is_note_letter_cases in H. each_letter H; discriminate.
Qed.


Lemma note_to_midi_no_key_error s : note_to_midi s <> Err KeyError.
Proof.
  unfold note_to_midi.
  destruct (fullmatch_note _) as [[[g1 acc] g3]|] eqn:Em; [|discriminate].
  apply fullmatch_inv in Em. destruct Em as [_ [Hg1 _]].
  destruct (letter_is_note_letter g1 (is_note_letter_base g1 Hg1))
    as [_ [_ Hbase]].
  rewrite Hbase. destruct (letter_base g1) eqn:E; [discriminate|].
  apply is_note_letter_base in Hg1. congruence.
Qed.




(** * Further properties of the solver, its caller and the parser *)

(** ** The enumeration, exactly *)

Lemma py_range_In lo hi a : lo <= a < hi -> In a (py_range lo hi).
Proof.
  intros H. unfold py_range. apply in_map_iff.
  exists (Z.to_nat (a - lo)). split; [lia|].
  apply in_seq. lia.
Qed.

Lemma fold_left_reaches {A B : Type} (f : A -> B -> A) (P Q : A -> Prop)
  (l : list B) (b : B) :
  In b l ->
  (forall a b', In b' l -> P a -> P (f a b')) ->
  (forall a b', In b' l -> P a -> Q a -> Q (f a b')) ->
  (forall a, P a -> Q (f a b)) ->
  forall a, P a -> Q (fold_left f l a).
Proof.
  intros Hin HP HQ Hb.
  assert (Hkeep : forall l', incl l' l -> forall a, P a -> Q a ->
                                               Q (fold_left f l' a)).
  { induction l' as [|x l' IH]; intros Hincl a Ha Hq; simpl; [assumption|].
    assert (Hx : In x l) by (apply Hincl; left; reflexivity).
    apply IH.
    - intros y Hy. apply Hincl. right. assumption.
    - apply HP; assumption.
    - apply HQ; assumption. }
  assert (Hgen : forall l', incl l' l -> In b l' -> forall a, P a ->
                                                        Q (fold_left f l' a)).
  { induction l' as [|x l' IH]; intros Hincl Hb' a Ha; [contradiction|].
    simpl.
    assert (Hx : In x l) by (apply Hincl; left; reflexivity).
    assert (Hincl' : incl l' l) by (intros y Hy; apply Hincl; right; assumption).
    destruct Hb' as [-> | Hb'].
    - apply Hkeep; [assumption | apply HP; assumption | apply Hb; assumption].
    - apply IH; [assumption | assumption | apply HP; assumption]. }
  apply Hgen; [apply incl_refl | assumption].
Qed.

Section PlayableFacts.
Variable slv : ViolinFingeringSolver.

Lemma playable_key_inj pitch a b :
  playable_state slv pitch a -> playable_state slv pitch b ->
  key_of_state a = key_of_state b -> a = b.
Proof.
  intros [Hpa [[oma [Hia [_ Hsa]]] _]] [Hpb [[omb [Hib [_ Hsb]]] _]] Hk.
  destruct a as [si an sh fi st pm], b as [si' an' sh' fi' st' pm'].
  unfold key_of_state in Hk. simpl in *.
  injection Hk as -> -> -> ->.
  rewrite Hia in Hib. injection Hib as ->.
  subst. reflexivity.
Qed.

Lemma enum_ext_refl pitch acc : enum_inv slv pitch acc -> enum_ext slv pitch acc acc.
Proof. intros H. split; [assumption | apply incl_refl]. Qed.

Lemma enum_ext_trans pitch a b c :
  enum_ext slv pitch a b -> enum_ext slv pitch b c -> enum_ext slv pitch a c.
Proof.
  intros [_ H1] [H2 H3]. split; [assumption|].
  intros x Hx. apply H3, H1, Hx.
Qed.

Lemma add_state_enum pitch acc st :
  enum_inv slv pitch acc -> playable_state slv pitch st ->
  enum_ext slv pitch acc (add_state acc (key_of_state st) st) /\
  In st (fst (add_state acc (key_of_state st) st)).
Proof.
  destruct acc as [states seen]. intros [HF [Hs Hn]] Hst. simpl in *.
  subst seen. unfold add_state.
  destruct (existsb (skey_eqb (key_of_state st)) (rev (map key_of_state states)))
    eqn:E.
  - split; [split; [repeat split; assumption | apply incl_refl]|].
    apply existsb_exists in E. destruct E as [k [Hk Ek]].
    apply skey_eqb_eq in Ek. subst k. apply in_rev in Hk.
    apply in_map_iff in Hk. destruct Hk as [st' [Hkey Hin]].
    rewrite Forall_forall in HF.
    rewrite <- (playable_key_inj pitch st' st); auto.
  - assert (Hnot : ~ In (key_of_state st) (map key_of_state states)).
    { intros Hin. apply in_rev in Hin.
      assert (Ht : existsb (skey_eqb (key_of_state st))
                     (rev (map key_of_state states)) = true).
      { apply existsb_exists. exists (key_of_state st).
        split; [assumption | apply skey_eqb_eq; reflexivity]. }
      congruence. }
    simpl. split; [split; [split; [|split] |] |]; cbn [fst snd].
    + apply Forall_app. split; [assumption | constructor; [assumption|constructor]].
    + rewrite map_app, rev_app_distr. reflexivity.
    + rewrite map_app. simpl.
      apply NoDup_rev in Hn.
      rewrite <- (rev_involutive (map key_of_state states ++ [key_of_state st])).
      apply NoDup_rev. rewrite rev_app_distr. simpl.
      constructor; [|assumption].
      intros Hin. apply Hnot. apply in_rev. assumption.
    + intros x Hx. apply in_or_app. left. assumption.
    + apply in_or_app. right. left. reflexivity.
Qed.

Lemma try_finger_enum pitch s_idx open_midi sh fing anchor0 acc :
  string_entry_ok (s_idx, open_midi) ->
  0 <= pitch - open_midi <= max_stop_semitones (p slv) ->
  pitch - open_midi <> 0 ->
  In sh (shapes slv) ->
  (fing = 1 /\ anchor0 = pitch - open_midi) \/
  (fing = 2 /\ anchor0 = pitch - open_midi - o2 sh) \/
  (fing = 3 /\ anchor0 = pitch - open_midi - o3 sh) \/
  (fing = 4 /\ anchor0 = pitch - open_midi - o4 sh) ->
  enum_inv slv pitch acc ->
  let acc' := try_finger slv s_idx (pitch - open_midi) pitch sh fing anchor0 acc in
  enum_ext slv pitch acc acc' /\
  (1 <= anchor0 <= max_anchor (p slv) ->
   In (mkState s_idx anchor0 sh fing (pitch - open_midi) pitch) (fst acc')).
Proof.
  intros [Hidx Hrange] Hstop Hnz Hsh Hf Hacc. unfold try_finger. simpl in *.
  destruct ((1 <=? anchor0) && (anchor0 <=? max_anchor (p slv))) eqn:E.
  - apply andb_true_iff in E. destruct E as [E1 E2].
    apply Z.leb_le in E1, E2.
    assert (Hst : playable_state slv pitch
                    (mkState s_idx anchor0 sh fing (pitch - open_midi) pitch)).
    { unfold playable_state; simpl.
      split; [reflexivity|].
      split; [exists open_midi; repeat split; try assumption; lia|].
      split; [lia|]. split; [assumption|].
      right. split; [assumption|]. split; [lia|].
      destruct Hf as [[-> ->]|[[-> ->]|[[-> ->]|[-> ->]]]]; intuition lia. }
    destruct (add_state_enum pitch acc _ Hacc Hst) as [H1 H2].
    split; [exact H1 | intros _; exact H2].
  - split; [apply enum_ext_refl; assumption|].
    intros [H1 H2].
    apply andb_false_iff in E. destruct E as [E|E];
      [apply Z.leb_gt in E | apply Z.leb_gt in E]; lia.
Qed.

Lemma states_on_string_enum pitch acc entry :
  string_entry_ok entry -> enum_inv slv pitch acc ->
  enum_ext slv pitch acc (states_on_string slv pitch acc entry) /\
  (forall st, playable_state slv pitch st -> string_idx st = fst entry ->
              In st (fst (states_on_string slv pitch acc entry))).
Proof.
  intros Hentry Hacc. destruct entry as [s_idx open_midi].
  pose proof Hentry as [Hidx Hrange]. simpl in Hidx, Hrange.
  assert (Hstop_of : forall st, playable_state slv pitch st ->
            string_idx st = s_idx ->
            stop st = pitch - open_midi /\ pitch_midi st = pitch).
  { intros st [Hp [[om [Hi [_ Hs]]] _]] Hsi. rewrite Hsi in Hi.
    rewrite Hidx in Hi. injection Hi as <-. split; assumption. }
  unfold states_on_string.
  destruct ((pitch - open_midi <? 0)
            || (max_stop_semitones (p slv) <? pitch - open_midi)) eqn:E.
  { split; [apply enum_ext_refl; assumption|].
    intros st Hst Hsi. simpl in Hsi.
    destruct (Hstop_of st Hst Hsi) as [Hs _].
    destruct Hst as [_ [_ [Hr _]]].
    apply orb_true_iff in E. destruct E as [E|E]; apply Z.ltb_lt in E; lia. }
  apply orb_false_iff in E. destruct E as [E1 E2].
  apply Z.ltb_ge in E1, E2.
  destruct (pitch - open_midi =? 0) eqn:E0.
  - apply Z.eqb_eq in E0.
    assert (Hone : forall sh a, In sh (shapes slv) ->
              In a (py_range 0 (max_anchor (p slv) + 1)) ->
              playable_state slv pitch (mkState s_idx a sh 0 (pitch - open_midi) pitch)).
    { intros sh a Hsh Ha. apply in_py_range in Ha.
      unfold playable_state; simpl.
      split; [reflexivity|].
      split; [exists open_midi; repeat split; try assumption; lia|].
      split; [lia|]. split; [assumption|].
      left. repeat split; try assumption; lia. }
    assert (Hinner : forall sh, In sh (shapes slv) -> forall acc1,
              enum_inv slv pitch acc1 ->
              enum_ext slv pitch acc1
                (fold_left (fun acc anchor0 =>
                   add_state acc (s_idx, anchor0, sh, 0)
                     (mkState s_idx anchor0 sh 0 (pitch - open_midi) pitch))
                   (py_range 0 (max_anchor (p slv) + 1)) acc1)).
    { intros sh Hsh acc1 Hacc1.
      apply fold_left_preserves with (P := enum_ext slv pitch acc1);
        [|apply enum_ext_refl; assumption].
      intros acc2 a Ha Hacc2.
      apply enum_ext_trans with (b := acc2); [assumption|].
      apply (add_state_enum pitch acc2
               (mkState s_idx a sh 0 (pitch - open_midi) pitch));
        [apply Hacc2 | apply Hone; assumption]. }
    split.
    + apply fold_left_preserves with (P := enum_ext slv pitch acc);
        [|apply enum_ext_refl; assumption].
      intros acc1 sh Hsh Hacc1.
      apply enum_ext_trans with (b := acc1); [assumption|].
      apply Hinner; [assumption | apply Hacc1].
    + intros st Hst Hsi. simpl in Hsi.
      destruct (Hstop_of st Hst Hsi) as [Hs Hp].
      pose proof Hst as [_ [_ [_ [Hsh Hcase]]]].
      destruct Hcase as [[_ [Hf Ha]] | [Hnz _]]; [|lia].
      assert (Est : st = mkState s_idx (anchor st) (shape st) 0
                            (pitch - open_midi) pitch).
      { destruct st; simpl in *; subst; reflexivity. }
      apply fold_left_reaches
        with (P := enum_inv slv pitch) (Q := fun a => In st (fst a))
             (b := shape st); [assumption | | | | assumption].
      * intros a sh' Hsh' Ha'. apply Hinner; assumption.
      * intros a sh' Hsh' Ha' Hq.
        destruct (Hinner sh' Hsh' a Ha') as [_ Hincl]. apply Hincl, Hq.
      * intros a Ha'.
        apply fold_left_reaches
          with (P := enum_inv slv pitch) (Q := fun a => In st (fst a))
               (b := anchor st);
          [apply py_range_In; lia | | | | assumption].
        -- intros a2 an Han Ha2.
           apply (add_state_enum pitch a2
                    (mkState s_idx an (shape st) 0 (pitch - open_midi) pitch));
             [assumption | apply Hone; assumption].
        -- intros a2 an Han Ha2 Hq.
           destruct (add_state_enum pitch a2
                       (mkState s_idx an (shape st) 0 (pitch - open_midi) pitch)
                       Ha2 (Hone _ _ Hsh Han)) as [[_ Hincl] _].
           apply Hincl, Hq.
        -- intros a2 Ha2. rewrite Est at 1.
           apply (add_state_enum pitch a2
                    (mkState s_idx (anchor st) (shape st) 0 (pitch - open_midi) pitch));
             [assumption|]. rewrite <- Est. assumption.
  - apply Z.eqb_neq in E0.
    assert (Hrng : 0 <= pitch - open_midi <= max_stop_semitones (p slv)) by lia.
    set (step := fun acc sh =>
        let acc := try_finger slv s_idx (pitch - open_midi) pitch sh 1
                     (pitch - open_midi) acc in
        let acc := try_finger slv s_idx (pitch - open_midi) pitch sh 2
                     (pitch - open_midi - o2 sh) acc in
        let acc := try_finger slv s_idx (pitch - open_midi) pitch sh 3
                     (pitch - open_midi - o3 sh) acc in
        try_finger slv s_idx (pitch - open_midi) pitch sh 4
          (pitch - open_midi - o4 sh) acc).
    assert (Hstep : forall sh, In sh (shapes slv) -> forall acc1,
              enum_inv slv pitch acc1 ->
              enum_ext slv pitch acc1 (step acc1 sh) /\
              (forall st, playable_state slv pitch st ->
                          string_idx st = s_idx -> shape st = sh ->
                          In st (fst (step acc1 sh)))).
    { intros sh Hsh acc1 Hacc1. unfold step.
      destruct (try_finger_enum pitch s_idx open_midi sh 1 (pitch - open_midi)
                  acc1 Hentry Hrng E0 Hsh
                  (or_introl (conj eq_refl eq_refl)) Hacc1) as [X1 Y1].
      set (a1 := try_finger slv s_idx (pitch - open_midi) pitch sh 1
                   (pitch - open_midi) acc1) in *.
      destruct (try_finger_enum pitch s_idx open_midi sh 2
                  (pitch - open_midi - o2 sh) a1 Hentry Hrng E0 Hsh
                  (or_intror (or_introl (conj eq_refl eq_refl))) (proj1 X1))
        as [X2 Y2].
      set (a2 := try_finger slv s_idx (pitch - open_midi) pitch sh 2
                   (pitch - open_midi - o2 sh) a1) in *.
      destruct (try_finger_enum pitch s_idx open_midi sh 3
                  (pitch - open_midi - o3 sh) a2 Hentry Hrng E0 Hsh
                  (or_intror (or_intror (or_introl (conj eq_refl eq_refl))))
                  (proj1 X2)) as [X3 Y3].
      set (a3 := try_finger slv s_idx (pitch - open_midi) pitch sh 3
                   (pitch - open_midi - o3 sh) a2) in *.
      destruct (try_finger_enum pitch s_idx open_midi sh 4
                  (pitch - open_midi - o4 sh) a3 Hentry Hrng E0 Hsh
                  (or_intror (or_intror (or_intror (conj eq_refl eq_refl))))
                  (proj1 X3)) as [X4 Y4].
      set (a4 := try_finger slv s_idx (pitch - open_midi) pitch sh 4
                   (pitch - open_midi - o4 sh) a3) in *.
      split.
      - apply enum_ext_trans with (b := a1); [assumption|].
        apply enum_ext_trans with (b := a2); [assumption|].
        apply enum_ext_trans with (b := a3); assumption.
      - intros st Hst Hsi Hshape.
        destruct (Hstop_of st Hst Hsi) as [Hs Hp].
        pose proof Hst as [_ [_ [_ [_ Hcase]]]].
        destruct Hcase as [[Hz _] | [_ [Han Hfing]]]; [lia|].
        assert (Est : st = mkState s_idx (anchor st) sh (finger st)
                              (pitch - open_midi) pitch).
        { destruct st; simpl in *; subst; reflexivity. }
        rewrite Est.
        destruct Hfing as [[Hf Ha]|[[Hf Ha]|[[Hf Ha]|[Hf Ha]]]];
          rewrite Hf; rewrite Hs in Ha; try rewrite Hshape in Ha.
        + apply (proj2 X4), (proj2 X3), (proj2 X2).
          rewrite Ha. apply Y1. lia.
        + apply (proj2 X4), (proj2 X3).
          rewrite Ha. apply Y2. lia.
        + apply (proj2 X4). rewrite Ha. apply Y3. lia.
        + rewrite Ha. apply Y4. lia. }
    change (enum_ext slv pitch acc (fold_left step (shapes slv) acc) /\
            (forall st, playable_state slv pitch st -> string_idx st = s_idx ->
                        In st (fst (fold_left step (shapes slv) acc)))).
    split.
    + apply fold_left_preserves with (P := enum_ext slv pitch acc);
        [|apply enum_ext_refl; assumption].
      intros acc1 sh Hsh Hacc1.
      apply enum_ext_trans with (b := acc1); [assumption|].
      apply Hstep; [assumption | apply Hacc1].
    + intros st Hst Hsi.
      pose proof Hst as [_ [_ [_ [Hsh _]]]].
      apply fold_left_reaches
        with (P := enum_inv slv pitch) (Q := fun a => In st (fst a))
             (b := shape st); [assumption | | | | assumption].
      * intros a sh' Hsh' Ha'. apply Hstep; assumption.
      * intros a sh' Hsh' Ha' Hq.
        destruct (Hstep sh' Hsh' a Ha') as [[_ Hincl] _]. apply Hincl, Hq.
      * intros a Ha'. apply Hstep; auto.
Qed.

Lemma enum_inv_nil pitch : enum_inv slv pitch ([], []).
Proof. split; [constructor | split; [reflexivity | constructor]]. Qed.

Lemma _states_for_pitch_enum pitch :
  enum_inv slv pitch
    (fold_left (states_on_string slv pitch) (enumerate _OPEN_MIDIS) ([], [])) /\
  (forall st, playable_state slv pitch st ->
              In st (_states_for_pitch slv pitch)).
Proof.
  assert (Hentries : forall e, In e (enumerate _OPEN_MIDIS) -> string_entry_ok e).
  { apply Forall_forall. repeat constructor; simpl; lia. }
  split.
  - apply fold_left_preserves with (P := enum_inv slv pitch);
      [|apply enum_inv_nil].
    intros a e He Ha. apply states_on_string_enum; auto.
  - intros st Hst. unfold _states_for_pitch.
    pose proof Hst as [_ [[om [Hi [Hr _]]] _]].
    apply fold_left_reaches
      with (P := enum_inv slv pitch) (Q := fun a => In st (fst a))
           (b := (string_idx st, om)).
    + assert (H : string_idx st = 0 \/ string_idx st = 1
                  \/ string_idx st = 2 \/ string_idx st = 3) by lia.
      destruct H as [H | [H | [H | H]]]; rewrite H in Hi |- *;
        injection Hi as <-; simpl; auto.
    + intros a e He Ha. apply states_on_string_enum; auto.
    + intros a e He Ha Hq.
      destruct (states_on_string_enum pitch a e (Hentries e He) Ha)
        as [[_ Hincl] _].
      apply Hincl, Hq.
    + intros a Ha.
      assert (Hent : string_entry_ok (string_idx st, om))
        by (split; [assumption | simpl; lia]).
      apply (proj2 (states_on_string_enum pitch a _ Hent Ha));
        [assumption | reflexivity].
    + apply enum_inv_nil.
Qed.

End PlayableFacts.

(** X1. [_states_for_pitch] lists exactly the ways to play the pitch: a
    state is in the list if and only if it has the pitch, lies on a string
    that reaches the pitch within [max_stop_semitones], uses a shape of the
    catalogue, and is either the open string with an anchor in
    0..max_anchor, or a stopped note whose finger (1 at the anchor, 2, 3 or
    4 at its offset above it) puts the anchor in 1..max_anchor. *)
Theorem states_for_pitch_lists_exactly_the_playable_states
  (slv : ViolinFingeringSolver) (pitch : Z) (st : State) :
  In st (_states_for_pitch slv pitch) <-> playable_state slv pitch st.
Proof.
  destruct (_states_for_pitch_enum slv pitch) as [[HF _] Hall].
  split.
  - intros Hin. rewrite Forall_forall in HF. apply HF. exact Hin.
  - apply Hall.
Qed.

(** X2. [_states_for_pitch] lists no state twice, also when the catalogue
    of shapes repeats a shape; and no two listed states share string,
    anchor, shape and finger. *)
Theorem states_for_pitch_has_no_duplicates
  (slv : ViolinFingeringSolver) (pitch : Z) :
  NoDup (_states_for_pitch slv pitch) /\
  NoDup (map key_of_state (_states_for_pitch slv pitch)).
Proof.
  destruct (_states_for_pitch_enum slv pitch) as [[_ [_ Hn]] _].
  split; [|exact Hn].
  apply NoDup_map_inv with (f := key_of_state). exact Hn.
Qed.

(** ** The range of playable pitches *)

Lemma open_midi_cases i om :
  py_index _OPEN_MIDIS i = Some om -> 0 <= i < 4 ->
  (i = 0 /\ om = 55) \/ (i = 1 /\ om = 62) \/ (i = 2 /\ om = 69)
  \/ (i = 3 /\ om = 76).
Proof.
  intros H Hr.
  assert (Hi : i = 0 \/ i = 1 \/ i = 2 \/ i = 3) by lia.
  destruct Hi as [-> | [-> | [-> | ->]]]; vm_compute in H;
    injection H as <-; auto 6.
Qed.

Lemma playable_range slv pitch :
  shapes slv <> [] ->
  6 <= max_stop_semitones (p slv) ->
  max_stop_semitones (p slv) <= max_anchor (p slv) ->
  (_states_for_pitch slv pitch <> [] <->
   55 <= pitch <= 76 + max_stop_semitones (p slv)).
Proof.
  intros Hsh Hms Hma.
  destruct (_states_for_pitch_enum slv pitch) as [[HF _] Hall].
  fold (_states_for_pitch slv pitch) in HF.
  split.
  - intros Hne.
    destruct (_states_for_pitch slv pitch) as [|st l]; [congruence|].
    inversion HF as [|? ? Hst _]; subst.
    destruct Hst as [_ [[om [Hi [Hr Hs]]] [Hstop _]]].
    destruct (open_midi_cases _ _ Hi Hr) as [[_ ->]|[[_ ->]|[[_ ->]|[_ ->]]]];
      lia.
  - intros Hr.
    destruct (shapes slv) as [|sh0 shs] eqn:Esh; [congruence|].
    assert (Hpick : exists i om, py_index _OPEN_MIDIS i = Some om /\
                                 0 <= i < 4 /\
                                 0 <= pitch - om <= max_stop_semitones (p slv)).
    { destruct (Z_lt_le_dec pitch 62); [exists 0, 55|
      destruct (Z_lt_le_dec pitch 69); [exists 1, 62|
      destruct (Z_lt_le_dec pitch 76); [exists 2, 69|exists 3, 76]]];
        (split; [reflexivity | lia]). }
    destruct Hpick as [i [om [Hi [Hir Hs]]]].
    assert (Hex : exists st, playable_state slv pitch st).
    { destruct (Z.eq_dec (pitch - om) 0) as [Ez|Ez].
      - exists (mkState i 0 sh0 0 (pitch - om) pitch).
        unfold playable_state; simpl.
        split; [reflexivity|].
        split; [exists om; repeat split; try assumption; lia|].
        split; [lia|]. split; [rewrite Esh; left; reflexivity|].
        left. repeat split; try assumption; lia.
      - exists (mkState i (pitch - om) sh0 1 (pitch - om) pitch).
        unfold playable_state; simpl.
        split; [reflexivity|].
        split; [exists om; repeat split; try assumption; lia|].
        split; [lia|]. split; [rewrite Esh; left; reflexivity|].
        right. split; [assumption|]. split; [lia|]. left. auto. }
    destruct Hex as [st Hst]. apply Hall in Hst.
    intros E. rewrite E in Hst. contradiction.
Qed.

(** ** The records of [_parse_events] *)

Lemma scan_rests_leading evs : forall g r,
  (fst (scan_rests evs g r) == g + leading_rest_beats evs)%Q /\
  (snd (scan_rests evs g r) == r + leading_rest_beats evs)%Q.
Proof.
  induction evs as [|ev evs IH]; intros g r; simpl.
  - split; ring.
  - destruct (has_type "R" ev); simpl.
    + destruct (IH (g + ev_beats ev)%Q (r + ev_beats ev)%Q) as [H1 H2].
      rewrite H1, H2. split; ring.
    + split; ring.
Qed.

Lemma parse_from_notes evs : forall i notes,
  parse_from i evs = Ok notes ->
  Forall (fun n => exists ev,
            (i <= Note.event_index n)%nat /\
            nth_error evs (Note.event_index n - i) = Some ev /\
            has_type "N" ev = true /\
            Note.note_name n = ev_note ev /\
            Note.duration_beats n = ev_beats ev /\
            note_to_midi (ev_note ev) = Ok (Note.pitch_midi n) /\
            (Note.rest_after_beats n
             == leading_rest_beats (skipn (S (Note.event_index n - i)) evs))%Q /\
            (Note.gap_beats n
             == Note.duration_beats n + Note.rest_after_beats n)%Q) notes.
Proof.
  induction evs as [|ev evs IH]; intros i notes H.
  - simpl in H. injection H as <-. constructor.
  - assert (Htail : forall notes', parse_from (S i) evs = Ok notes' ->
              Forall (fun n => exists ev0,
                (i <= Note.event_index n)%nat /\
                nth_error (ev :: evs) (Note.event_index n - i) = Some ev0 /\
                has_type "N" ev0 = true /\
                Note.note_name n = ev_note ev0 /\
                Note.duration_beats n = ev_beats ev0 /\
                note_to_midi (ev_note ev0) = Ok (Note.pitch_midi n) /\
                (Note.rest_after_beats n
                 == leading_rest_beats
                      (skipn (S (Note.event_index n - i)) (ev :: evs)))%Q /\
                (Note.gap_beats n
                 == Note.duration_beats n + Note.rest_after_beats n)%Q) notes').
    { intros notes' H'. apply IH in H'.
      eapply Forall_impl; [|exact H'].
      intros n [ev0 [Hle [Hnth Hrest]]].
      exists ev0. split; [lia|].
      replace (Note.event_index n - i)%nat
        with (S (Note.event_index n - S i)) by lia.
      simpl. split; [assumption|]. exact Hrest. }
    apply parse_from_cons in H.
    destruct H as [[HN [midi [notes' [Hm [Hp ->]]]]] | [_ [_ Hp]]].
    + constructor; [|apply Htail; assumption].
      exists ev. simpl. rewrite Nat.sub_diag. simpl.
      split; [lia|]. split; [reflexivity|]. split; [assumption|].
      split; [reflexivity|]. split; [reflexivity|]. split; [assumption|].
      destruct (scan_rests_leading evs (ev_beats ev) 0.0%Q) as [H1 H2].
      split.
      * rewrite H2. ring.
      * rewrite H1, H2. ring.
    + apply Htail; assumption.
Qed.

Lemma parse_events_notes evs notes :
  _parse_events evs = Ok notes -> Forall (note_of_events evs) notes.
Proof.
  intros H. apply parse_from_notes in H.
  eapply Forall_impl; [|exact H].
  intros n [ev [_ [Hnth Hrest]]]. rewrite Nat.sub_0_r in Hnth, Hrest.
  exists ev. split; assumption.
Qed.

Lemma parse_from_events evs : forall i notes,
  parse_from i evs = Ok notes ->
  Forall (fun ev => tag_ok ev /\
            (has_type "N" ev = true ->
             exists n, In n notes /\
                       note_to_midi (ev_note ev) = Ok (Note.pitch_midi n))) evs.
Proof.
  induction evs as [|ev evs IH]; intros i notes H; [constructor|].
  apply parse_from_cons in H.
  destruct H as [[HN [midi [notes' [Hm [Hp ->]]]]] | [HN [HR Hp]]].
  - constructor.
    + split; [left; assumption|]. intros _.
      eexists. split; [left; reflexivity | exact Hm].
    + apply IH in Hp. eapply Forall_impl; [|exact Hp].
      intros e [Ht He]. split; [assumption|].
      intros HNe. destruct (He HNe) as [n [Hin Hn]].
      exists n. split; [right; assumption | assumption].
  - constructor.
    + split; [right; assumption|]. congruence.
    + apply IH in Hp. exact Hp.
Qed.

(** ** The positions of the output *)

Lemma has_type_R_not_N ev : has_type "R" ev = true -> has_type "N" ev = false.
Proof.
  intros HR. destruct (has_type "N" ev) eqn:EN; [|reflexivity].
  apply has_type_N_not_R in EN. congruence.
Qed.

Lemma fingerings_in_interleave evs : forall i fings,
  Forall tag_ok evs ->
  (length (n_positions i evs) = length fings)%nat ->
  fingerings_in (interleave evs fings) = fings.
Proof.
  induction evs as [|ev evs IH]; intros i fings Ht Hlen; simpl in *.
  - destruct fings; [reflexivity | discriminate].
  - inversion Ht as [|? ? Hev Ht']; subst.
    destruct (has_type "R" ev) eqn:ER.
    + rewrite (has_type_R_not_N ev ER) in Hlen. simpl.
      apply (IH (S i)); assumption.
    + destruct Hev as [EN | ER']; [|congruence].
      rewrite EN in Hlen. destruct fings as [|f fings]; [discriminate|].
      simpl in *. f_equal. apply (IH (S i)); [assumption | lia].
Qed.

Lemma interleave_image evs : forall i notes fings,
  parse_from i evs = Ok notes -> Forall2 fingering_of_note fings notes ->
  length (interleave evs fings) = length evs /\
  forall j ev, nth_error evs j = Some ev ->
               event_image fings ev (nth_error (interleave evs fings) j).
Proof.
  induction evs as [|ev evs IH]; intros i notes fings H HF.
  - split; [reflexivity|]. intros [|j] ev Hj; discriminate.
  - apply parse_from_cons in H.
    destruct H as [[HN [midi [notes' [Hm [Hp ->]]]]] | [HN [HR Hp]]].
    + inversion HF as [|f n0 fings' ? Hf HF']; subst.
      destruct (IH _ _ _ Hp HF') as [Hlen Himg].
      simpl. rewrite (has_type_N_not_R ev HN).
      split; [simpl; congruence|].
      intros [|j] ev' Hj; simpl in Hj |- *.
      * injection Hj as <-. split.
        -- intros HR. rewrite (has_type_N_not_R ev HN) in HR. discriminate.
        -- intros _. exists f.
           destruct Hf as [H1 [H2 [H3 _]]]. simpl in H1, H2, H3.
           split; [reflexivity|]. split; [left; reflexivity|].
           split; [assumption|]. split; [assumption|]. congruence.
      * destruct (Himg j ev' Hj) as [I1 I2]. split; [assumption|].
        intros HN'. destruct (I2 HN') as [f' [E1 [E2 E3]]].
        exists f'. split; [assumption|]. split; [right; assumption|].
        assumption.
    + destruct (IH _ _ _ Hp HF) as [Hlen Himg].
      simpl. rewrite HR.
      split; [simpl; congruence|].
      intros [|j] ev' Hj; simpl in Hj |- *.
      * injection Hj as <-. split.
        -- intros _. reflexivity.
        -- congruence.
      * apply Himg. assumption.
Qed.

Lemma notes_of_note_event evs notes :
  _parse_events evs = Ok notes ->
  (exists ev, In ev evs /\ has_type "N" ev = true) -> notes <> [].
Proof.
  intros H [ev [Hin HN]]. apply parse_from_events in H.
  rewrite Forall_forall in H. destruct (H ev Hin) as [_ Hn].
  destruct (Hn HN) as [n [Hn' _]]. intros ->. contradiction.
Qed.

Lemma solve_positions slv evs sol :
  solve slv evs = Ok sol ->
  (exists ev, In ev evs /\ has_type "N" ev = true) ->
  length (events_out sol) = length evs /\
  (forall i ev, nth_error evs i = Some ev ->
     event_image (note_fingerings sol) ev (nth_error (events_out sol) i)) /\
  fingerings_in (events_out sol) = note_fingerings sol.
Proof.
  intros H Hex. apply solve_inv in H.
  destruct H as [notes [Hp [[-> _] | [Hne [_ [Hfacts Hout]]]]]].
  - exfalso. apply (notes_of_note_event evs [] Hp Hex). reflexivity.
  - destruct Hfacts as [_ [_ [HF _]]].
    destruct (interleave_image evs 0%nat notes _ Hp HF) as [Hlen Himg].
    rewrite Hout. split; [assumption|]. split; [assumption|].
    apply fingerings_in_interleave with (i := 0%nat).
    + apply parse_from_tags in Hp. assumption.
    + apply parse_from_positions in Hp. rewrite <- Hp, length_map.
      symmetry. apply (Forall2_length HF).
Qed.

(** ** Success and failure of [solve] *)

Lemma parse_from_error_kind evs : forall i e,
  parse_from i evs = Err e ->
  (exists s, e = InvalidNote s) \/ e = KeyError
  \/ (exists v j, e = UnknownEventType v j).
Proof.
  induction evs as [|ev evs IH]; intros i e H; simpl in H; [discriminate|].
  destruct (has_type "N" ev).
  - destruct (note_to_midi (ev_note ev)) as [midi|e'] eqn:Em; cbn [bind] in H.
    + destruct (scan_rests evs (ev_beats ev) 0.0%Q) as [g r].
      destruct (parse_from (S i) evs) as [notes'|e''] eqn:Ep; cbn [bind] in H;
        [discriminate|].
      injection H as <-. apply (IH _ _ Ep).
    + injection H as <-. apply note_to_midi_error in Em.
      destruct Em as [-> | ->]; [left; eexists; reflexivity | right; left; reflexivity].
  - destruct (has_type "R" ev).
    + apply (IH _ _ H).
    + injection H as <-. right. right. eexists. eexists. reflexivity.
Qed.

Lemma solve_unplayable slv evs notes e :
  _parse_events evs = Ok notes ->
  check_playable notes
    (map (fun n => _states_for_pitch slv (Note.pitch_midi n)) notes) = Err e ->
  solve slv evs = Err e.
Proof.
  intros Hp Hc. unfold solve. rewrite Hp. cbn [bind].
  destruct notes as [|n0 notes']; [discriminate|].
  rewrite Hc. reflexivity.
Qed.

Lemma check_playable_first slv notes :
  Forall (fun n => _states_for_pitch slv (Note.pitch_midi n) <> []) notes \/
  exists pre n post,
    notes = pre ++ n :: post /\
    Forall (fun n' => _states_for_pitch slv (Note.pitch_midi n') <> []) pre /\
    _states_for_pitch slv (Note.pitch_midi n) = [] /\
    check_playable notes
      (map (fun n => _states_for_pitch slv (Note.pitch_midi n)) notes)
    = Err (NoPlayableState (Note.note_name n) (Note.pitch_midi n)).
Proof.
  induction notes as [|n notes IH]; [left; constructor|].
  destruct (_states_for_pitch slv (Note.pitch_midi n)) as [|s l] eqn:E.
  - right. exists [], n, notes. simpl. rewrite E. repeat split. constructor.
  - destruct IH as [IH | [pre [n' [post [-> [Hpre [Hn' Hc]]]]]]].
    + left. constructor; [rewrite E; discriminate | assumption].
    + right. exists (n :: pre), n', post. simpl. rewrite E.
      split; [reflexivity|].
      split; [constructor; [rewrite E; discriminate | assumption]|].
      split; assumption.
Qed.

Lemma first_unplayable_unique {A : Type} (P : A -> Prop) pre n post pre' n' post' :
  pre ++ n :: post = pre' ++ n' :: post' ->
  Forall P pre -> ~ P n -> Forall P pre' -> ~ P n' ->
  pre = pre' /\ n = n'.
Proof.
  revert pre'. induction pre as [|a pre IH]; intros [|a' pre'] E H1 H2 H3 H4;
    simpl in E; injection E as Ea E.
  - subst. split; reflexivity.
  - subst. inversion H3; subst. contradiction.
  - subst. inversion H1; subst. contradiction.
  - subst. inversion H1; inversion H3; subst.
    destruct (IH pre' E) as [-> ->]; auto.
Qed.

Lemma solve_no_playable_state slv evs name midi :
  solve slv evs = Err (NoPlayableState name midi) <->
  exists notes pre n post,
    _parse_events evs = Ok notes /\ notes = pre ++ n :: post /\
    Forall (fun n' => _states_for_pitch slv (Note.pitch_midi n') <> []) pre /\
    _states_for_pitch slv (Note.pitch_midi n) = [] /\
    name = Note.note_name n /\ midi = Note.pitch_midi n.
Proof.
  split.
  - intros H.
    destruct (_parse_events evs) as [notes|e] eqn:Hp.
    + destruct (check_playable_first slv notes)
        as [Hall | [pre [n [post [-> [Hpre [Hn Hc]]]]]]].
      * exfalso. destruct notes as [|n0 notes'].
        -- rewrite (solve_no_notes slv evs Hp) in H. discriminate.
        -- destruct (solve_spec slv evs (n0 :: notes') Hp) as [sol [Hs _]];
             [discriminate | assumption |]. congruence.
      * rewrite (solve_unplayable slv evs _ _ Hp Hc) in H.
        injection H as <- <-.
        exists (pre ++ n :: post), pre, n, post. repeat split; assumption.
    + exfalso. unfold solve in H. rewrite Hp in H. cbn [bind] in H.
      injection H as ->. unfold _parse_events in Hp.
      apply parse_from_error_kind in Hp.
      destruct Hp as [[s Hs] | [Hs | [v [j Hs]]]]; discriminate.
  - intros [notes [pre [n [post [Hp [-> [Hpre [Hn [-> ->]]]]]]]]].
    destruct (check_playable_first slv (pre ++ n :: post))
      as [Hall | [pre' [n' [post' [E [Hpre' [Hn' Hc]]]]]]].
    + exfalso. apply Forall_app in Hall. destruct Hall as [_ Hall].
      inversion Hall; subst. contradiction.
    + destruct (first_unplayable_unique
                  (fun n => _states_for_pitch slv (Note.pitch_midi n) <> [])
                  _ _ _ _ _ _ E Hpre) as [-> ->]; auto.
      apply (solve_unplayable slv evs _ _ Hp Hc).
Qed.

Lemma solve_succeeds slv evs :
  shapes slv <> [] ->
  6 <= max_stop_semitones (p slv) ->
  max_stop_semitones (p slv) <= max_anchor (p slv) ->
  ((exists sol, solve slv evs = Ok sol) <-> Forall (event_playable slv) evs).
Proof.
  intros Hsh Hms Hma. split.
  - intros [sol H]. apply solve_inv in H.
    destruct H as [notes [Hp Hcase]].
    pose proof (parse_from_events evs 0%nat notes Hp) as Hev.
    eapply Forall_impl; [|exact Hev].
    intros ev [Ht Hn]. split; [assumption|].
    intros HN. destruct (Hn HN) as [n [Hin Hm]].
    exists (Note.pitch_midi n). split; [assumption|].
    destruct Hcase as [[-> _] | [_ [Hall _]]]; [contradiction|].
    rewrite Forall_forall in Hall.
    apply (playable_range slv _ Hsh Hms Hma). apply Hall. assumption.
  - intros Hall.
    assert (Hok : Forall event_ok evs).
    { eapply Forall_impl; [|exact Hall].
      intros ev [Ht Hn]. split; [assumption|].
      intros HN. destruct (Hn HN) as [midi [Hm _]]. exists midi. assumption. }
    destruct (parse_from_ok evs 0%nat Hok) as [notes Hp].
    fold (_parse_events evs) in Hp.
    assert (Hplay : Forall (fun n => _states_for_pitch slv (Note.pitch_midi n) <> [])
                           notes).
    { pose proof (parse_events_notes evs notes Hp) as Hn.
      eapply Forall_impl; [|exact Hn].
      intros n [ev [Hnth [HN [_ [_ [Hm _]]]]]].
      apply (playable_range slv _ Hsh Hms Hma).
      apply nth_error_In in Hnth.
      rewrite Forall_forall in Hall. destruct (Hall ev Hnth) as [_ Hr].
      destruct (Hr HN) as [midi [Hm' Hrange]]. congruence. }
    destruct notes as [|n0 notes'].
    + exists empty_solution. apply solve_no_notes. assumption.
    + destruct (solve_spec slv evs (n0 :: notes') Hp) as [sol [Hs _]];
        [discriminate | assumption |].
      exists sol. assumption.
Qed.

(** X3. With at least one hand shape and a stop limit of at least 6 that
    does not exceed the anchor limit, a pitch has a playable state exactly
    when it lies between the open G string (55) and the highest stop on the
    E string (76 + max_stop_semitones). *)
Theorem playable_pitches_form_a_range (slv : ViolinFingeringSolver)
  (pitch : Z) :
  shapes slv <> [] ->
  6 <= max_stop_semitones (p slv) ->
  max_stop_semitones (p slv) <= max_anchor (p slv) ->
  (_states_for_pitch slv pitch <> [] <->
   55 <= pitch <= 76 + max_stop_semitones (p slv)).
Proof. exact (playable_range slv pitch). Qed.

Lemma playable_pitches_form_a_range_witness :
  _states_for_pitch default_solver 105 <> [] <->
  55 <= 105 <= 76 + max_stop_semitones (p default_solver).
Proof.
  apply (playable_pitches_form_a_range default_solver 105); simpl;
    [discriminate | lia | lia].
Defined.

(** X4. [_parse_events] makes one record per note event, in order: the
    indices of the records are the positions of the note events, each
    record carries the name and the beats of its event and the pitch of the
    name, its rest is the sum of the run of rests that follows the note,
    and its gap is its duration plus that rest. *)
Theorem parse_events_records_the_note_events (evs : list event)
  (notes : list Note.t) :
  _parse_events evs = Ok notes ->
  map Note.event_index notes = n_positions 0 evs /\
  Forall (note_of_events evs) notes.
Proof.
  intros H. split.
  - apply (parse_from_positions evs 0%nat notes H).
  - apply parse_events_notes. assumption.
Qed.

Lemma parse_events_records_the_note_events_witness :
  map Note.event_index two_notes_with_rests_records
  = n_positions 0 two_notes_with_rests /\
  Forall (note_of_events two_notes_with_rests) two_notes_with_rests_records.
Proof.
  apply (parse_events_records_the_note_events two_notes_with_rests).
  reflexivity.
Defined.

(** X5. When the input has a note event and [solve] returns, [events_out]
    has the length of the input; at the position of a rest it holds the
    rest with its beats, at the position of a note the note with its beats,
    its name and a fingering that carries the same name and beats and the
    pitch of the name; and the fingerings of [events_out], in order, are
    [note_fingerings]. *)
Theorem events_out_keeps_the_positions_of_the_input
  (slv : ViolinFingeringSolver) (evs : list event) (sol : Solution) :
  solve slv evs = Ok sol ->
  (exists ev, In ev evs /\ has_type "N" ev = true) ->
  length (events_out sol) = length evs /\
  (forall i ev, nth_error evs i = Some ev ->
     event_image (note_fingerings sol) ev (nth_error (events_out sol) i)) /\
  fingerings_in (events_out sol) = note_fingerings sol.
Proof. exact (solve_positions slv evs sol). Qed.

Lemma events_out_keeps_the_positions_of_the_input_witness :
  length (events_out A4_solution) = length [N_ 1 "A4"] /\
  (forall i ev, nth_error [N_ 1 "A4"] i = Some ev ->
     event_image (note_fingerings A4_solution) ev
       (nth_error (events_out A4_solution) i)) /\
  fingerings_in (events_out A4_solution) = note_fingerings A4_solution.
Proof.
  apply (events_out_keeps_the_positions_of_the_input default_solver
           [N_ 1 "A4"] A4_solution default_A4_solve).
  exists (N_ 1 "A4"). split; [left; reflexivity | reflexivity].
Defined.



(** X7. [solve] fails with "No playable states" for a name and a pitch
    exactly when all events normalise and the first note without a playable
    state has that name and pitch: a malformed event later in the input is
    reported first, and of several unplayable notes the first is named. *)
Theorem no_playable_state_names_the_first_unplayable_note
  (slv : ViolinFingeringSolver) (evs : list event) (name : pystring)
  (midi : Z) :
  solve slv evs = Err (NoPlayableState name midi) <->
  exists notes pre n post,
    _parse_events evs = Ok notes /\ notes = pre ++ n :: post /\
    Forall (fun n' => _states_for_pitch slv (Note.pitch_midi n') <> []) pre /\
    _states_for_pitch slv (Note.pitch_midi n) = [] /\
    name = Note.note_name n /\ midi = Note.pitch_midi n.
Proof. exact (solve_no_playable_state slv evs name midi). Qed.

(** ** Parameters that are read but never decide *)


Section Timing.
Variables speed adjacent_time skip_time slack open_multiplier rest_multiplier : Q.
Variable slv : ViolinFingeringSolver.

Let slv' : ViolinFingeringSolver :=
  {| p := with_timing speed adjacent_time skip_time slack open_multiplier
            rest_multiplier (p slv);
     sec_per_beat := sec_per_beat slv;
     shapes := shapes slv |}.

Lemma transition_cost_timing prev_key cur b l2 l3 l4 avail avail' rest :
  _transition_cost_and_feasible slv' prev_key cur b l2 l3 l4 avail' rest
  = _transition_cost_and_feasible slv prev_key cur b l2 l3 l4 avail rest.
Proof. reflexivity. Qed.

Lemma states_timing pitch :
  _states_for_pitch slv' pitch = _states_for_pitch slv pitch.
Proof. reflexivity. Qed.

Lemma run_dp_timing notes sts : run_dp slv' notes sts = run_dp slv notes sts.
Proof. reflexivity. Qed.

Lemma solve_timing evs : solve slv' evs = solve slv evs.
Proof. reflexivity. Qed.

End Timing.

(** ** Rests and the long-rest threshold *)

Section LongRest.
Variable slv : ViolinFingeringSolver.







End LongRest.

(** X8. The timing and feasibility parameters (shift speed, string-crossing
    times, time slack, the two speed multipliers) and the available time
    passed to the transition cost never change a result: a solver built
    from parameters that differ only in them gives the same transition
    costs and the same answer of [solve] on every input. *)
Theorem timing_parameters_never_change_the_result
  (speed adjacent_time skip_time slack open_multiplier rest_multiplier : Q)
  (prm : ViolinFingeringParams) (slv : ViolinFingeringSolver) :
  new_solver prm = Ok slv ->
  exists slv',
    new_solver (with_timing speed adjacent_time skip_time slack
                  open_multiplier rest_multiplier prm) = Ok slv' /\
    (forall evs, solve slv' evs = solve slv evs) /\
    (forall prev_key cur b l2 l3 l4 avail avail' rest,
       _transition_cost_and_feasible slv' prev_key cur b l2 l3 l4 avail' rest
       = _transition_cost_and_feasible slv prev_key cur b l2 l3 l4 avail rest).
Proof.
  unfold new_solver. cbn [bpm with_timing].
  destruct (Qeq_bool (bpm prm) 0); [discriminate|].
  intros [= <-]. eexists. split; [reflexivity|].
  split.
  - intros evs. reflexivity.
  - intros. reflexivity.
Qed.

Lemma timing_parameters_never_change_the_result_witness :
  exists slv',
    new_solver (with_timing 5 1 2 3 4 6 (default_params 80)) = Ok slv' /\
    (forall evs, solve slv' evs = solve default_solver evs) /\
    (forall prev_key cur b l2 l3 l4 avail avail' rest,
       _transition_cost_and_feasible slv' prev_key cur b l2 l3 l4 avail' rest
       = _transition_cost_and_feasible default_solver prev_key cur b l2 l3 l4
           avail rest).
Proof.
  apply (timing_parameters_never_change_the_result 5 1 2 3 4 6
           (default_params 80) default_solver).
  reflexivity.
Defined.



(** ** The caller of the solver *)

Lemma emapM_Forall2 {A B : Type} (f : A -> eresult B) l : forall r,
  emapM f l = EOk r -> Forall2 (fun a b => f a = EOk b) l r.
Proof.
  induction l as [|a l IH]; intros r H; simpl in H.
  - injection H as <-. constructor.
  - destruct (f a) as [b|e] eqn:Ea; [|discriminate]. cbn [ebind] in H.
    destruct (emapM f l) as [bs|e] eqn:El; [|discriminate]. cbn [ebind] in H.
    injection H as <-. constructor; [assumption | apply IH; reflexivity].
Qed.

Lemma emapM_ok {A B : Type} (f : A -> eresult B) l :
  Forall (fun a => exists b, f a = EOk b) l -> exists r, emapM f l = EOk r.
Proof.
  induction 1 as [|a l [b Hb] _ [r Hr]]; simpl.
  - eexists; reflexivity.
  - rewrite Hb, Hr. eexists; reflexivity.
Qed.

Lemma emapM_error {A B : Type} (f : A -> eresult B) l e :
  emapM f l = EErr e ->
  exists pre a post, l = pre ++ a :: post /\ f a = EErr e /\
                     Forall (fun a' => exists b, f a' = EOk b) pre.
Proof.
  induction l as [|a l IH]; simpl; [discriminate|].
  destruct (f a) as [b|e'] eqn:Ea; cbn [ebind].
  - destruct (emapM f l) as [bs|e'] eqn:El; cbn [ebind]; [discriminate|].
    intros [= ->]. destruct (IH eq_refl) as [pre [a' [post [-> [Ha' Hpre]]]]].
    exists (a :: pre), a', post. split; [reflexivity|]. split; [assumption|].
    constructor; [exists b; assumption | assumption].
  - intros [= ->]. exists [], a, l. split; [reflexivity|].
    split; [assumption | constructor].
Qed.

Lemma Forall2_nth_error {A B : Type} (R : A -> B -> Prop) l l' :
  Forall2 R l l' -> forall i a, nth_error l i = Some a ->
  exists b, nth_error l' i = Some b /\ R a b.
Proof.
  induction 1 as [|x y l l' Hxy _ IH]; intros [|i] a Hi; simpl in *;
    try discriminate.
  - injection Hi as <-. exists y. split; [reflexivity | assumption].
  - apply IH. assumption.
Qed.

Lemma pystr_R_not_N : PyStr.eqb (PyStr.upper (pystr "R")) (pystr "N") = false.
Proof. reflexivity. Qed.

(** What a converted event is. *)
Lemma to_tuple_ok ev tev :
  to_tuple ev = EOk tev ->
  ev_beats tev = Event.beats ev /\
  (event_is "R" ev = true /\ has_type "R" tev = true /\ has_type "N" tev = false)
  \/ (event_is "R" ev = false /\ event_is "N" ev = true /\
      has_type "N" tev = true /\ has_type "R" tev = false /\
      ev_beats tev = Event.beats ev /\
      Event.note ev = Some (ev_note tev) /\ ev_note tev <> []).
Proof.
  unfold to_tuple. destruct (event_is "R" ev) eqn:ER.
  - intros [= <-]. left. split; [reflexivity|]. repeat split; reflexivity.
  - destruct (event_is "N" ev) eqn:EN; [|discriminate].
    destruct (Event.note ev) as [[|c name]|]; try discriminate.
    intros [= <-]. right. repeat split; try reflexivity. discriminate.
Qed.

Lemma to_tuple_tags evs tevs :
  emapM to_tuple evs = EOk tevs ->
  Forall2 (fun ev tev => to_tuple ev = EOk tev) evs tevs /\ Forall tag_ok tevs.
Proof.
  intros H. apply emapM_Forall2 in H. split; [assumption|].
  induction H as [|ev tev l l' H _ IH]; constructor; [|assumption].
  apply to_tuple_ok in H.
  destruct H as [[_ [_ [H _]]] | [_ [_ [H _]]]]; [right | left]; assumption.
Qed.

Lemma str_or_same a : str_or a (str_or a []) = a.
Proof. destruct a; reflexivity. Qed.

(** Every item of a solution flattens. *)
Lemma interleave_flattens evs : forall i fings,
  Forall tag_ok evs ->
  (length (n_positions i evs) <= length fings)%nat ->
  Forall (fun o => exists item, flatten_item o = EOk item) (interleave evs fings).
Proof.
  induction evs as [|ev evs IH]; intros i fings Ht Hlen; simpl in *;
    [constructor|].
  inversion Ht as [|? ? Hev Ht']; subst.
  destruct (has_type "R" ev) eqn:ER.
  - rewrite (has_type_R_not_N ev ER) in Hlen.
    constructor; [eexists; reflexivity | apply (IH (S i)); assumption].
  - destruct Hev as [EN | ER']; [|congruence].
    rewrite EN in Hlen. destruct fings as [|f fings]; [simpl in Hlen; lia|].
    constructor; [eexists; reflexivity|].
    apply (IH (S i)); [assumption | simpl in Hlen; lia].
Qed.

Lemma solution_flattens slv tevs sol :
  solve slv tevs = Ok sol ->
  exists items, emapM flatten_item (events_out sol) = EOk items.
Proof.
  intros H. apply emapM_ok.
  destruct (solve_inv slv tevs sol H) as [notes [Hp Hcase]].
  destruct Hcase as [[_ ->] | [Hne [_ [Hfacts Hout]]]]; [constructor|].
  rewrite Hout. apply interleave_flattens with (i := 0%nat).
  - apply parse_from_tags in Hp. assumption.
  - destruct Hfacts as [_ [_ [HF _]]].
    apply parse_from_positions in Hp. rewrite <- Hp, length_map.
    rewrite (Forall2_length HF). apply Nat.le_refl.
Qed.

Lemma solve_fingerings_inv slv evs sol :
  solve slv evs = Ok sol -> Forall (fingering_inv slv) (note_fingerings sol).
Proof.
  intros H. destruct (solve_inv slv evs sol H) as [notes [_ Hcase]].
  destruct Hcase as [[_ ->] | [_ [_ [[_ [Hall _]] _]]]]; [constructor|].
  apply Forall2_map_l in Hall.
  induction Hall as [|f n l l' H0 _ IH]; constructor; [|assumption].
  pose proof (_states_for_pitch_ok slv (Note.pitch_midi n)) as Hok.
  rewrite Forall_forall in Hok.
  apply (state_ok_fingering_inv slv (Note.pitch_midi n)). apply Hok. exact H0.
Qed.

(** The steps of [compute_fingering], for a result. *)
Lemma compute_fingering_inv events bpm0 items cost :
  compute_fingering events bpm0 = EOk (items, cost) ->
  exists tevs sol,
    emapM to_tuple events = EOk tevs /\
    Qeq_bool bpm0 0 = false /\
    solve (default_solver_at bpm0) tevs = Ok sol /\
    emapM flatten_item (events_out sol) = EOk items /\
    cost = total_cost sol.
Proof.
  unfold compute_fingering.
  destruct (emapM to_tuple events) as [tevs|e] eqn:Ht; cbn [ebind];
    [|discriminate].
  destruct (new_solver (default_params bpm0)) as [slv|e] eqn:Hn;
    cbn [ebind of_solver]; [|discriminate].
  pose proof (new_solver_default bpm0 slv Hn) as ->.
  destruct (solve (default_solver_at bpm0) tevs) as [sol|e] eqn:Hs;
    cbn [ebind of_solver]; [|discriminate].
  destruct (emapM flatten_item (events_out sol)) as [its|e] eqn:Hf;
    cbn [ebind]; [|discriminate].
  intros [= <- <-]. exists tevs, sol.
  split; [reflexivity|]. split; [|auto].
  unfold new_solver in Hn. cbn [bpm default_params] in Hn.
  destruct (Qeq_bool bpm0 0); [discriminate | reflexivity].
Qed.

Lemma new_solver_nonzero bpm0 :
  Qeq_bool bpm0 0 = false ->
  new_solver (default_params bpm0) = Ok (default_solver_at bpm0).
Proof.
  intros H. unfold new_solver. cbn [bpm default_params]. rewrite H.
  reflexivity.
Qed.

Lemma new_solver_zero bpm0 :
  Qeq_bool bpm0 0 = true ->
  new_solver (default_params bpm0) = Err ZeroDivisionError.
Proof.
  intros H. unfold new_solver. cbn [bpm default_params]. rewrite H.
  reflexivity.
Qed.

Lemma event_is_N_not_R ev : event_is "N" ev = true -> event_is "R" ev = false.
Proof.
  unfold event_is. intros H. apply PyStr_eqb_eq in H. rewrite H. reflexivity.
Qed.

Lemma compute_fingering_items events bpm0 items cost :
  compute_fingering events bpm0 = EOk (items, cost) ->
  if existsb (event_is "N") events
  then length items = length events /\
       forall i ev, nth_error events i = Some ev ->
                    item_image ev (nth_error items i)
  else items = [] /\ cost = 0.0%Q.
Proof.
  intros H.
  destruct (compute_fingering_inv _ _ _ _ H)
    as [tevs [sol [Ht [Hb [Hs [Hf ->]]]]]].
  destruct (to_tuple_tags _ _ Ht) as [HF2 Htags].
  destruct (existsb (event_is "N") events) eqn:Eex.
  - apply existsb_exists in Eex. destruct Eex as [ev0 [Hin0 HN0]].
    pose proof (event_is_N_not_R ev0 HN0) as HR0.
    assert (Hex : exists tev, In tev tevs /\ has_type "N" tev = true).
    { apply In_nth_error in Hin0. destruct Hin0 as [i Hi].
      destruct (Forall2_nth_error _ _ _ HF2 i ev0 Hi) as [tev [Hti Hc]].
      exists tev. split; [apply nth_error_In in Hti; assumption|].
      apply to_tuple_ok in Hc.
      destruct Hc as [[_ [E _]] | [_ [_ [E _]]]]; [congruence | assumption]. }
    destruct (solve_positions _ _ _ Hs Hex) as [Hlen [Himg _]].
    pose proof (emapM_Forall2 _ _ _ Hf) as HF3.
    pose proof (solve_fingerings_inv _ _ _ Hs) as Hinv.
    rewrite Forall_forall in Hinv.
    split.
    + rewrite <- (Forall2_length HF3), Hlen. symmetry.
      apply (Forall2_length HF2).
    + intros i ev Hi.
      destruct (Forall2_nth_error _ _ _ HF2 i ev Hi) as [tev [Hti Hc]].
      destruct (Himg i tev Hti) as [ImR ImN].
      apply to_tuple_ok in Hc.
      destruct Hc as [[Hbeats [ER [TR TN]]]
                     | [ER [EN [TN [TR [Hbeats [Hnote Hne]]]]]]].
      * split; [|congruence]. intros _.
        specialize (ImR TR).
        destruct (Forall2_nth_error _ _ _ HF3 i _ ImR) as [item [Hitem Hfl]].
        simpl in Hfl. injection Hfl as <-. rewrite Hitem, Hbeats. reflexivity.
      * split; [congruence|]. intros _.
        destruct (ImN TN) as [f [Hout [Hfin [E1 [E2 E3]]]]].
        destruct (Forall2_nth_error _ _ _ HF3 i _ Hout) as [item [Hitem Hfl]].
        simpl in Hfl. injection Hfl as <-.
        destruct (Hinv f Hfin) as [[om [Hom Hpitch]] _].
        assert (Hname : py_index _STRING_NAMES (Fingering.string_index f)
                        = Some (Fingering.string f)).
        { destruct (solve_inv _ _ _ Hs) as [notes [_ Hcase]].
          destruct Hcase as [[_ ->] | [_ [_ [[_ [_ [Hfn _]]] _]]]];
            [contradiction|].
          apply In_nth_error in Hfin. destruct Hfin as [k Hk].
          destruct (Forall2_nth_error _ _ _ Hfn k f Hk) as [n [_ Hn]].
          destruct Hn as [_ [_ [_ [Hsn _]]]]. exact Hsn. }
        exists (ev_note tev). eexists.
        split; [assumption|]. split; [eassumption|]. simpl.
        split; [rewrite E1; apply str_or_same|].
        split; [congruence|]. split; [assumption|]. split; [assumption|].
        exists om. split; assumption.
  - assert (Hrests : Forall (fun tev => has_type "R" tev = true) tevs).
    { clear - HF2 Eex. induction HF2 as [|ev tev l l' H _ IH]; constructor.
      - simpl in Eex. apply orb_false_iff in Eex. destruct Eex as [E _].
        apply to_tuple_ok in H.
        destruct H as [[_ [_ [E' _]]] | [_ [E' _]]]; [assumption | congruence].
      - apply IH. simpl in Eex. apply orb_false_iff in Eex. apply Eex. }
    unfold solve in Hs. unfold _parse_events in Hs.
    rewrite (parse_rests_only tevs 0%nat Hrests) in Hs. cbn [bind] in Hs.
    injection Hs as <-. simpl in Hf. injection Hf as <-.
    split; reflexivity.
Qed.

(** ** The errors of compute_fingering *)

Lemma parse_from_tagged_error evs : forall i e,
  Forall tag_ok evs -> parse_from i evs = Err e -> exists s, e = InvalidNote s.
Proof.
  intros i e Ht H.
  destruct (parse_from_error_kind evs i e H) as [Hs | [-> | [v [j ->]]]].
  - assumption.
  - exfalso. clear Ht. revert i H.
    induction evs as [|ev evs IH]; intros i H; simpl in H; [discriminate|].
    destruct (has_type "N" ev).
    + destruct (note_to_midi (ev_note ev)) as [midi|e'] eqn:Em; cbn [bind] in H.
      * destruct (scan_rests evs (ev_beats ev) 0.0%Q) as [g r].
        destruct (parse_from (S i) evs) as [notes'|e''] eqn:Ep;
          cbn [bind] in H; [discriminate|].
        injection H as ->. apply (IH _ Ep).
      * injection H as ->. apply (note_to_midi_no_key_error _ Em).
    + destruct (has_type "R" ev); [apply (IH _ H) | discriminate].
  - exfalso. apply parse_from_unknown in H.
    destruct H as [pre [ev [post [-> [_ [_ [Hbad _]]]]]]].
    apply Forall_app in Ht. destruct Ht as [_ Ht].
    inversion Ht; subst. contradiction.
Qed.

Lemma default_playable_range bpm0 pitch :
  _states_for_pitch (default_solver_at bpm0) pitch <> [] <-> 55 <= pitch <= 105.
Proof.
  apply (playable_range (default_solver_at bpm0) pitch); simpl;
    [discriminate | lia | lia].
Qed.

Lemma compute_fingering_errors events bpm0 e :
  compute_fingering events bpm0 = EErr e ->
  (e = MissingNote \/ exists v, e = UnknownType v) \/
  e = SolverError ZeroDivisionError \/
  (exists s, e = SolverError (InvalidNote s)) \/
  (exists name midi, e = SolverError (NoPlayableState name midi) /\
                     ~ 55 <= midi <= 105).
Proof.
  unfold compute_fingering.
  destruct (emapM to_tuple events) as [tevs|e0] eqn:Ht; cbn [ebind].
  - destruct (to_tuple_tags _ _ Ht) as [_ Htags].
    destruct (Qeq_bool bpm0 0) eqn:Hb.
    + rewrite (new_solver_zero _ Hb). cbn [ebind of_solver].
      intros [= <-]. right. left. reflexivity.
    + rewrite (new_solver_nonzero _ Hb). cbn [ebind of_solver].
      destruct (solve (default_solver_at bpm0) tevs) as [sol|e1] eqn:Hs;
        cbn [ebind of_solver].
      * destruct (solution_flattens _ _ _ Hs) as [items ->]. cbn [ebind].
        discriminate.
      * intros [= <-]. right. right.
        destruct (solve_error _ _ _ Hs)
          as [Hp | [notes [name [midi [Hp ->]]]]].
        -- left. destruct (parse_from_tagged_error tevs 0%nat e1 Htags Hp)
             as [s ->].
           exists s. reflexivity.
        -- right. exists name, midi. split; [reflexivity|].
           apply solve_no_playable_state in Hs.
           destruct Hs as [notes' [pre [n [post [_ [_ [_ [Hn [_ ->]]]]]]]]].
           intros Hr. apply (default_playable_range bpm0) in Hr.
           contradiction.
  - intros [= <-]. left.
    apply emapM_error in Ht.
    destruct Ht as [pre [a [post [_ [Ha _]]]]].
    unfold to_tuple in Ha.
    destruct (event_is "R" a); [discriminate|].
    destruct (event_is "N" a).
    + destruct (Event.note a) as [[|c s]|]; try discriminate;
        injection Ha as <-; left; reflexivity.
    + injection Ha as <-. right. eexists. reflexivity.
Qed.

Lemma compute_fingering_succeeds events bpm0 :
  (exists items cost, compute_fingering events bpm0 = EOk (items, cost)) <->
  Qeq_bool bpm0 0 = false /\ Forall event_accepted events.
Proof.
  split.
  - intros [items [cost H]].
    destruct (compute_fingering_inv _ _ _ _ H)
      as [tevs [sol [Ht [Hb [Hs _]]]]].
    split; [assumption|].
    destruct (to_tuple_tags _ _ Ht) as [HF2 _].
    assert (Hsol : exists sol, solve (default_solver_at bpm0) tevs = Ok sol)
      by (exists sol; assumption).
    apply (solve_succeeds (default_solver_at bpm0) tevs) in Hsol;
      [| simpl; discriminate | simpl; lia | simpl; lia].
    clear - HF2 Hsol. induction HF2 as [|ev tev l l' H _ IH]; constructor.
    + inversion Hsol as [|? ? [_ Hp] _]; subst. apply to_tuple_ok in H.
      destruct H as [[_ [ER _]] | [_ [EN [TN [_ [_ [Hnote Hne]]]]]]].
      * left. assumption.
      * right. split; [assumption|].
        destruct (Hp TN) as [midi [Hm Hr]]. simpl in Hr.
        exists (ev_note tev), midi. repeat split; try assumption; lia.
    + apply IH. inversion Hsol; assumption.
  - intros [Hb Hall].
    assert (Ht : exists tevs, emapM to_tuple events = EOk tevs).
    { apply emapM_ok. eapply Forall_impl; [|exact Hall].
      intros ev [ER | [EN [name [midi [Hnote [Hne _]]]]]]; unfold to_tuple.
      - rewrite ER. eexists; reflexivity.
      - destruct (event_is "R" ev); [eexists; reflexivity|].
        rewrite EN, Hnote. destruct name; [congruence|].
        eexists; reflexivity. }
    destruct Ht as [tevs Ht].
    destruct (to_tuple_tags _ _ Ht) as [HF2 _].
    assert (Hplay : Forall (event_playable (default_solver_at bpm0)) tevs).
    { clear - HF2 Hall. induction HF2 as [|ev tev l l' H _ IH]; constructor.
      - inversion Hall as [|? ? Hev _]; subst. apply to_tuple_ok in H.
        destruct H as [[_ [_ [TR TN]]] | [ER [_ [TN [_ [_ [Hnote _]]]]]]].
        + split; [right; assumption | congruence].
        + split; [left; assumption|]. intros _.
          destruct Hev as [ER' | [_ [name [midi [Hn [_ [Hm Hr]]]]]]];
            [congruence|].
          exists midi. rewrite Hnote in Hn. injection Hn as <-.
          split; [assumption | simpl; lia].
      - apply IH. inversion Hall; assumption. }
    apply (solve_succeeds (default_solver_at bpm0) tevs) in Hplay;
      [| simpl; discriminate | simpl; lia | simpl; lia].
    destruct Hplay as [sol Hs].
    destruct (solution_flattens _ _ _ Hs) as [items Hf].
    exists items, (total_cost sol).
    unfold compute_fingering. rewrite Ht. cbn [ebind].
    rewrite (new_solver_nonzero _ Hb). cbn [ebind of_solver].
    rewrite Hs. cbn [ebind of_solver]. rewrite Hf. reflexivity.
Qed.

Lemma default_A4_compute :
  compute_fingering [Event.mk (pystr "N") 1 (Some (pystr "A4"))] 80
  = EOk ([A4_item], (-0.13000000000)%Q).
Proof.
  unfold compute_fingering.
  change (emapM to_tuple [Event.mk (pystr "N") 1 (Some (pystr "A4"))])
    with (EOk [N_ 1 "A4"]).
  cbn [ebind]. rewrite (new_solver_nonzero 80 eq_refl). cbn [ebind of_solver].
  rewrite (default_A4_solve_at 80). reflexivity.
Qed.

(** X10. When [compute_fingering] returns and the input has a note event,
    the item list has the length of the input and holds, at the position of
    each event, its image: a rest with the same beats, or a note with the
    same name and beats whose pitch is the pitch of the name and the open
    pitch of its string plus its stop.  When the input has no note event
    the list is empty and the cost 0.0, whatever rests the input holds. *)
Theorem compute_fingering_returns_one_item_per_event
  (events : list Event.t) (bpm0 : Q) (items : list FingeringItem) (cost : Q) :
  compute_fingering events bpm0 = EOk (items, cost) ->
  if existsb (event_is "N") events
  then length items = length events /\
       forall i ev, nth_error events i = Some ev ->
                    item_image ev (nth_error items i)
  else items = [] /\ cost = 0.0%Q.
Proof. exact (compute_fingering_items events bpm0 items cost). Qed.

Lemma compute_fingering_returns_one_item_per_event_witness :
  length [A4_item] = length [Event.mk (pystr "N") 1 (Some (pystr "A4"))] /\
  forall i ev,
    nth_error [Event.mk (pystr "N") 1 (Some (pystr "A4"))] i = Some ev ->
    item_image ev (nth_error [A4_item] i).
Proof.
  exact (compute_fingering_returns_one_item_per_event
           [Event.mk (pystr "N") 1 (Some (pystr "A4"))] 80 [A4_item]
           (-0.13000000000)%Q default_A4_compute).
Defined.

(** X11. The only exceptions of [compute_fingering] are: a note event
    without a name, an unknown event type, a tempo of zero, a note name
    that does not parse, and a note outside 55..105.  In particular the
    solver never sees an unknown event type, no input is rejected as
    infeasible, and no output note lacks its fingering. *)
Theorem compute_fingering_raises_only_these (events : list Event.t)
  (bpm0 : Q) (e : engine_error) :
  compute_fingering events bpm0 = EErr e ->
  (e = MissingNote \/ exists v, e = UnknownType v) \/
  e = SolverError ZeroDivisionError \/
  (exists s, e = SolverError (InvalidNote s)) \/
  (exists name midi, e = SolverError (NoPlayableState name midi) /\
                     ~ 55 <= midi <= 105).
Proof. exact (compute_fingering_errors events bpm0 e). Qed.

Lemma compute_fingering_raises_only_these_witness :
  (SolverError ZeroDivisionError = MissingNote
   \/ exists v, SolverError ZeroDivisionError = UnknownType v) \/
  SolverError ZeroDivisionError = SolverError ZeroDivisionError \/
  (exists s, SolverError ZeroDivisionError = SolverError (InvalidNote s)) \/
  (exists name midi,
     SolverError ZeroDivisionError = SolverError (NoPlayableState name midi) /\
     ~ 55 <= midi <= 105).
Proof.
  apply (compute_fingering_raises_only_these
           [Event.mk (pystr "N") 1 (Some (pystr "A4"))] 0).
  reflexivity.
Defined.

(** X12. [compute_fingering] returns a result exactly when the tempo is not
    zero and every event is a rest, or a note with a non-empty name that
    parses to a pitch between 55 and 105. *)
Theorem compute_fingering_succeeds_iff_every_event_is_accepted
  (events : list Event.t) (bpm0 : Q) :
  (exists items cost, compute_fingering events bpm0 = EOk (items, cost)) <->
  Qeq_bool bpm0 0 = false /\ Forall event_accepted events.
Proof. exact (compute_fingering_succeeds events bpm0). Qed.

(** ** Note names written by the MusicXML parser *)

Lemma int_digits_snoc ds d v :
  PyStr.digit_value d = Some v ->
  PyStr.int_digits (ds ++ [d]) = 10 * PyStr.int_digits ds + v.
Proof.
  intros H. unfold PyStr.int_digits. rewrite fold_left_app. simpl.
  rewrite H. reflexivity.
Qed.

Lemma int_digits_single d v :
  PyStr.digit_value d = Some v -> PyStr.int_digits [d] = v.
Proof.
  intros H. unfold PyStr.int_digits. cbn [fold_left]. rewrite H. lia.
Qed.

Lemma digit_char v :
  0 <= v < 10 ->
  PyStr.digit_value (48 + Z.to_N v)%N = Some v /\
  PyStr.isdigit (48 + Z.to_N v)%N = true.
Proof.
  intros H.
  assert (Hv : v = 0 \/ v = 1 \/ v = 2 \/ v = 3 \/ v = 4 \/ v = 5 \/ v = 6
               \/ v = 7 \/ v = 8 \/ v = 9) by lia.
  repeat (destruct Hv as [-> | Hv]; [split; reflexivity|]).
  subst. split; reflexivity.
Qed.

Lemma digits_fuel_spec fuel : forall n acc,
  0 <= n < 10 ^ Z.of_nat (S fuel) ->
  exists ds, digits_fuel (S fuel) n acc = ds ++ acc /\ ds <> [] /\
             Forall (fun c => PyStr.isdigit c = true) ds /\
             PyStr.int_digits ds = n.
Proof.
  induction fuel as [|fuel IH]; intros n acc Hn.
  - change (10 ^ Z.of_nat 1) with 10 in Hn.
    assert (E : (n <? 10) = true) by (apply Z.ltb_lt; lia).
    simpl. rewrite E. rewrite Z.mod_small by lia.
    destruct (digit_char n Hn) as [Hv Hd].
    exists [(48 + Z.to_N n)%N]. split; [reflexivity|].
    split; [discriminate|]. split; [constructor; [assumption|constructor]|].
    apply (int_digits_single _ _ Hv).
  - assert (Hmod : 0 <= n mod 10 < 10) by (apply Z.mod_pos_bound; lia).
    destruct (digit_char (n mod 10) Hmod) as [Hv Hd].
    change (digits_fuel (S (S fuel)) n acc)
      with (if n <? 10 then (48 + Z.to_N (n mod 10))%N :: acc
            else digits_fuel (S fuel) (n / 10)
                   ((48 + Z.to_N (n mod 10))%N :: acc)).
    destruct (n <? 10) eqn:E.
    + apply Z.ltb_lt in E. rewrite Z.mod_small in Hv, Hd |- * by lia.
      exists [(48 + Z.to_N n)%N]. split; [reflexivity|].
      split; [discriminate|]. split; [constructor; [assumption|constructor]|].
      apply (int_digits_single _ _ Hv).
    + apply Z.ltb_ge in E.
      assert (Hdiv : 0 <= n / 10 < 10 ^ Z.of_nat (S fuel)).
      { split; [apply Z.div_pos; lia|].
        apply Z.div_lt_upper_bound; [lia|].
        replace (Z.of_nat (S (S fuel))) with (Z.of_nat (S fuel) + 1) in Hn
          by lia.
        rewrite Z.pow_add_r, Z.pow_1_r in Hn by lia. lia. }
      destruct (IH (n / 10) ((48 + Z.to_N (n mod 10))%N :: acc) Hdiv)
        as [ds [Eds [Hne [Hall Hval]]]].
      exists (ds ++ [(48 + Z.to_N (n mod 10))%N]).
      split; [rewrite Eds, <- app_assoc; reflexivity|].
      split; [destruct ds; discriminate|].
      split; [apply Forall_app; split;
              [assumption | constructor; [assumption|constructor]]|].
      etransitivity; [apply (int_digits_snoc ds _ _ Hv)|].
      rewrite Hval. symmetry. apply Z.div_mod. lia.
Qed.

Lemma str_of_nonneg_spec n :
  0 <= n ->
  str_of_nonneg n <> [] /\
  Forall (fun c => PyStr.isdigit c = true) (str_of_nonneg n) /\
  PyStr.int_digits (str_of_nonneg n) = n.
Proof.
  intros Hn. unfold str_of_nonneg.
  assert (Hb : 0 <= n < 10 ^ Z.of_nat (S (Z.to_nat (Z.log2 n)))).
  { split; [assumption|].
    destruct (Z.eq_dec n 0) as [-> | Hnz]; [reflexivity|].
    assert (Hpos : 0 < n) by lia.
    destruct (Z.log2_spec n Hpos) as [_ Hlt].
    pose proof (Z.log2_nonneg n) as Hl.
    replace (Z.of_nat (S (Z.to_nat (Z.log2 n)))) with (Z.succ (Z.log2 n))
      by lia.
    apply Z.lt_le_trans with (m := 2 ^ Z.succ (Z.log2 n)); [assumption|].
    apply Z.pow_le_mono_l. lia. }
  destruct (digits_fuel_spec _ n [] Hb) as [ds [Eds [Hne [Hall Hval]]]].
  rewrite app_nil_r in Eds. rewrite Eds. auto.
Qed.

(** The text of an int is the octave text of a note name. *)
Lemma str_of_int_octave_text octave :
  exists neg ds,
    str_of_int octave = octave_text (mkNoteText 0%N [] neg ds) /\
    ds <> [] /\ Forall (fun c => PyStr.isdigit c = true) ds /\
    (if neg : bool then - decimal ds else decimal ds) = octave.
Proof.
  unfold str_of_int. destruct (octave <? 0) eqn:E.
  - apply Z.ltb_lt in E.
    destruct (str_of_nonneg_spec (- octave)) as [Hne [Hall Hval]]; [lia|].
    exists true, (str_of_nonneg (- octave)).
    split; [reflexivity|]. split; [assumption|]. split; [assumption|].
    rewrite <- (int_digits_decimal _ Hall), Hval. lia.
  - apply Z.ltb_ge in E.
    destruct (str_of_nonneg_spec octave E) as [Hne [Hall Hval]].
    exists false, (str_of_nonneg octave).
    split; [reflexivity|]. split; [assumption|]. split; [assumption|].
    rewrite <- (int_digits_decimal _ Hall), Hval. reflexivity.
Qed.

Lemma letter_base_upper c base :
  letter_base c = Some base ->
  letter_base (PyStr.upper_char c) = Some base.
Proof.
  intros H.
  assert (Hc : letter_base c <> None) by congruence.
  apply letter_base_cases in Hc.
  each_letter Hc; exact H.
Qed.

(** The accidentals that [_pitch_to_note] writes for an alteration of at
    most two semitones. *)
Lemma pitch_to_note_small step alter octave :
  -2 <= alter_value alter <= 2 ->
  exists accs,
    _pitch_to_note step alter octave
    = PyStr.upper step ++ accs ++ str_of_int octave /\
    (length accs <= 2)%nat /\
    Forall (fun c => accidental_value c <> None) accs /\
    sum_accidentals accs = alter_value alter.
Proof.
  intros H. unfold _pitch_to_note.
  destruct alter as [a|]; simpl in H.
  - assert (Ha : a = -2 \/ a = -1 \/ a = 0 \/ a = 1 \/ a = 2) by lia.
    destruct Ha as [-> | [-> | [-> | [-> | ->]]]];
      [exists [b_char; b_char] | exists [b_char] | exists []
       | exists [hash_char] | exists [hash_char; hash_char]];
      (split; [reflexivity|]); simpl;
      (split; [lia|]); (split; [|reflexivity]);
      repeat constructor; discriminate.
  - exists []. simpl. repeat split; [lia | constructor].
Qed.

Lemma pitch_to_note_midi c alter octave base :
  letter_base c = Some base ->
  -2 <= alter_value alter <= 2 ->
  note_to_midi (_pitch_to_note [c] alter octave)
  = Ok (12 * (octave + 1) + (base + alter_value alter) mod 12).
Proof.
  intros Hc Ha.
  destruct (pitch_to_note_small [c] alter octave Ha)
    as [accs [E [Hlen [Hacc Hsum]]]].
  destruct (str_of_int_octave_text octave) as [neg [ds [Eo [Hne [Hds Hval]]]]].
  set (n := mkNoteText (PyStr.upper_char c) accs neg ds).
  assert (Hr : _pitch_to_note [c] alter octave = [] ++ render n ++ []).
  { rewrite E, Eo, app_nil_r. reflexivity. }
  rewrite Hr. rewrite (note_to_midi_render n [] []).
  - unfold midi_of, octave_of. simpl.
    rewrite (letter_base_upper c base Hc), Hsum, Hval. reflexivity.
  - unfold note_text_ok. simpl.
    rewrite (letter_base_upper c base Hc).
    split; [discriminate|]. auto.
  - constructor.
  - constructor.
Qed.

Lemma py_repeat_three ch a :
  3 <= a ->
  exists rest, py_repeat [ch] a = ch :: ch :: ch :: rest /\
               Forall (fun c => c = ch) rest.
Proof.
  intros H. unfold py_repeat.
  destruct (Z.to_nat a) as [|[|[|k]]] eqn:E; try lia.
  exists (concat (repeat [ch] k)). split; [reflexivity|].
  clear E. induction k as [|k IH]; simpl; constructor; auto.
Qed.

Lemma pitch_to_note_large step a octave :
  3 <= Z.abs a ->
  exists ch rest,
    (ch = hash_char \/ ch = b_char) /\
    _pitch_to_note step (Some a) octave
    = PyStr.upper step ++ (ch :: ch :: ch :: rest) ++ str_of_int octave /\
    Forall (fun c => c = ch) rest.
Proof.
  intros H. unfold _pitch_to_note, alter_is.
  destruct (a =? 1) eqn:E1; [apply Z.eqb_eq in E1; lia|].
  destruct (a =? -1) eqn:E2; [apply Z.eqb_eq in E2; lia|].
  destruct (a =? 0) eqn:E0; [apply Z.eqb_eq in E0; lia|].
  simpl. destruct (0 <? a) eqn:Ep.
  - apply Z.ltb_lt in Ep.
    destruct (py_repeat_three hash_char a) as [rest [-> Hr]]; [lia|].
    exists hash_char, rest. auto.
  - apply Z.ltb_ge in Ep.
    destruct (py_repeat_three b_char (- a)) as [rest [-> Hr]]; [lia|].
    exists b_char, rest. auto.
Qed.

Lemma pitch_to_note_rejected c a octave :
  letter_base c <> None -> 3 <= Z.abs a ->
  note_to_midi (_pitch_to_note [c] (Some a) octave)
  = Err (InvalidNote (_pitch_to_note [c] (Some a) octave)).
Proof.
  intros Hc Ha.
  destruct (pitch_to_note_large [c] a octave Ha) as [ch [rest [Hch [E Hrest]]]].
  destruct (str_of_int_octave_text octave) as [neg [ds [Eo [Hne [Hds Hval]]]]].
  set (s := _pitch_to_note [c] (Some a) octave) in *.
  (* the last character is a digit, the first a letter *)
  destruct (exists_last Hne) as [front [d Ed]].
  assert (Hd : PyStr.isdigit d = true).
  { rewrite Ed in Hds. apply Forall_app in Hds. destruct Hds as [_ Hds].
    inversion Hds; assumption. }
  destruct (digit_facts d Hd) as [_ [_ [Hsp _]]].
  assert (Hup : letter_base (PyStr.upper_char c) <> None).
  { destruct (letter_base c) as [b|] eqn:Eb; [|congruence].
    rewrite (letter_base_upper c b Eb). discriminate. }
  destruct (letter_is_note_letter _ Hup) as [Hlet [Hcsp _]].
  set (mid := (ch :: ch :: ch :: rest)
              ++ (if neg then [minus_char] else []) ++ front).
  assert (Es : s = PyStr.upper_char c :: mid ++ [d]).
  { rewrite E, Eo. unfold octave_text, mid. simpl. rewrite Ed.
    repeat rewrite <- app_assoc. reflexivity. }
  assert (Hstrip : PyStr.strip s = s).
  { rewrite Es.
    pose proof (strip_padded [] [] (PyStr.upper_char c) mid d
                  (Forall_nil _) (Forall_nil _) Hcsp Hsp) as Hs.
    rewrite app_nil_r in Hs. exact Hs. }
  assert (Hch' : normal_char ch = ch /\ is_accidental ch = true
                 /\ PyStr.isdigit ch = false /\ N.eqb ch minus_char = false).
  { destruct Hch as [-> | ->]; repeat split; reflexivity. }
  destruct Hch' as [Hn1 [Hn2 [Hn3 Hn4]]].
  assert (Hnorm : map normal_char s
                  = PyStr.upper_char c :: ch :: ch :: ch
                      :: map normal_char (rest ++ str_of_int octave)).
  { rewrite E. simpl. rewrite (normal_char_letter _ Hup), Hn1. reflexivity. }
  unfold note_to_midi. rewrite Hstrip, replace_replace, Hnorm.
  unfold fullmatch_note. rewrite Hlet.
  unfold try_acc. simpl. rewrite Hn2, Hn3, Hn4. simpl.
  reflexivity.
Qed.

(** X13. A note name written by [_pitch_to_note] for a step letter A-G in
    either case, an alteration of at most two semitones (or none) and any
    octave is read back by the solver's [note_to_midi] as
    12 * (octave + 1) plus the semitone of the letter plus the alteration,
    taken modulo 12. *)
Theorem pitch_to_note_is_read_back_by_note_to_midi (c : pychar)
  (alter : option Z) (octave base : Z) :
  letter_base c = Some base ->
  -2 <= alter_value alter <= 2 ->
  note_to_midi (_pitch_to_note [c] alter octave)
  = Ok (12 * (octave + 1) + (base + alter_value alter) mod 12).
Proof. exact (pitch_to_note_midi c alter octave base). Qed.

Lemma pitch_to_note_is_read_back_by_note_to_midi_witness :
  note_to_midi (_pitch_to_note [99%N] (Some (-1)) (-1))
  = Ok (12 * (-1 + 1) + (0 + alter_value (Some (-1))) mod 12).
Proof.
  apply (pitch_to_note_is_read_back_by_note_to_midi 99%N (Some (-1)) (-1) 0).
  - reflexivity.
  - simpl. lia.
Defined.

(** X14. A note name written by [_pitch_to_note] for an alteration of three
    semitones or more, up or down, carries three or more accidentals, and
    the solver's [note_to_midi] rejects it as a bad note format. *)
Theorem pitch_to_note_beyond_two_semitones_is_rejected (c : pychar)
  (a octave : Z) :
  letter_base c <> None -> 3 <= Z.abs a ->
  note_to_midi (_pitch_to_note [c] (Some a) octave)
  = Err (InvalidNote (_pitch_to_note [c] (Some a) octave)).
Proof. exact (pitch_to_note_rejected c a octave). Qed.

Lemma pitch_to_note_beyond_two_semitones_is_rejected_witness :
  note_to_midi (_pitch_to_note [67%N] (Some 3) 4)
  = Err (InvalidNote (_pitch_to_note [67%N] (Some 3) 4)).
Proof.
  apply (pitch_to_note_beyond_two_semitones_is_rejected 67%N 3 4).
  - discriminate.
  - simpl. lia.
Defined.

(** ** The other pitch parser *)

Lemma int_body_digits ds : forall acc b,
  ds <> [] -> Forall (fun c => PyStr.isdigit c = true) ds ->
  int_body ds acc b = Some (acc * 10 ^ Z.of_nat (length ds) + decimal ds).
Proof.
  induction ds as [|d ds IH]; intros acc b Hne Hall; [congruence|].
  inversion Hall as [|? ? Hd Hds]; subst.
  destruct (digit_facts d Hd) as [_ [_ [_ [_ [v Hv]]]]].
  cbn [int_body decimal]. rewrite Hv.
  destruct ds as [|d' ds'].
  - cbn [int_body decimal length].
    change (Z.of_nat 1) with 1. change (Z.of_nat 0) with 0.
    rewrite Z.pow_1_r, Z.pow_0_r. f_equal. lia.
  - rewrite IH; [|discriminate | assumption].
    f_equal. set (k := length (d' :: ds')).
    replace (Z.of_nat (length (d :: d' :: ds'))) with (Z.of_nat k + 1)
      by (unfold k; simpl length; lia).
    rewrite Z.pow_add_r, Z.pow_1_r by lia. ring.
Qed.

Lemma digit_not_int_space c :
  PyStr.isdigit c = true -> int_isspace c = false /\ N.eqb c plus_char = false.
Proof.
  intros H. apply isdigit_cases in H. simpl in H.
  repeat (destruct H as [<- | H]; [split; reflexivity|]). contradiction.
Qed.

Lemma py_int_octave_text n :
  nt_digits n <> [] -> Forall (fun c => PyStr.isdigit c = true) (nt_digits n) ->
  py_int (octave_text n) = Some (octave_of n).
Proof.
  intros Hne Hall.
  destruct (exists_last Hne) as [front [d Ed]].
  assert (Hd : PyStr.isdigit d = true).
  { rewrite Ed in Hall. apply Forall_app in Hall. destruct Hall as [_ Hall].
    inversion Hall; assumption. }
  destruct (digit_not_int_space d Hd) as [Hdsp _].
  assert (Hbody : forall b, int_body (nt_digits n) 0 b
                            = Some (decimal (nt_digits n))).
  { intros b. rewrite (int_body_digits _ 0 b Hne Hall). f_equal. }
  assert (Hrstrip : forall s, rev (drop_while int_isspace (rev (s ++ [d])))
                              = s ++ [d]).
  { intros s. rewrite rev_app_distr. simpl. rewrite Hdsp. simpl.
    rewrite rev_involutive. reflexivity. }
  unfold py_int, octave_text, octave_of.
  destruct (nt_negative n).
  - simpl app. cbn [drop_while].
    change (int_isspace minus_char) with false. cbv iota.
    rewrite Ed at 1.
    change (minus_char :: front ++ [d]) with ((minus_char :: front) ++ [d]).
    rewrite Hrstrip. simpl app. rewrite <- Ed.
    rewrite N.eqb_refl, Hbody. reflexivity.
  - simpl app.
    destruct (nt_digits n) as [|c ds] eqn:Eds; [congruence|].
    inversion Hall as [|? ? Hc _]; subst.
    destruct (digit_not_int_space c Hc) as [Hcsp Hcplus].
    destruct (digit_facts c Hc) as [_ [_ [_ [Hcminus _]]]].
    cbn [drop_while]. rewrite Hcsp.
    rewrite Ed. rewrite Hrstrip. rewrite <- Ed.
    rewrite Hcminus, Hcplus. apply Hbody.
Qed.

Lemma scan_accidentals_app accs : forall tl acc c r,
  Forall (fun a => is_accidental a = true) accs ->
  tl = c :: r -> is_accidental c = false ->
  Utils.scan_accidentals (accs ++ tl) acc = (acc + sum_accidentals accs, tl).
Proof.
  induction accs as [|a accs IH]; intros tl acc c r Hall Htl Hc.
  - subst tl. simpl. rewrite Hc. f_equal. lia.
  - inversion Hall as [|? ? Ha Hall']; subst.
    simpl app. cbn [Utils.scan_accidentals]. rewrite Ha.
    rewrite (IH _ _ c r Hall' eq_refl Hc). f_equal.
    unfold is_accidental in Ha. apply orb_true_iff in Ha.
    destruct Ha as [Ha | Ha]; apply N.eqb_eq in Ha; subst a.
    + change (sum_accidentals (hash_char :: accs))
        with (1 + sum_accidentals accs).
      change (N.eqb hash_char hash_char) with true. cbv iota. lia.
    + change (sum_accidentals (b_char :: accs))
        with (-1 + sum_accidentals accs).
      change (N.eqb b_char hash_char) with false. cbv iota. lia.
Qed.

Lemma utils_note_to_midi_render n base :
  note_text_ok n ->
  Forall (fun a => is_accidental a = true) (nt_accidentals n) ->
  letter_base (nt_letter n) = Some base ->
  Utils.note_to_midi (render n)
  = Utils.Returns (12 * (octave_of n + 1) + base
                   + sum_accidentals (nt_accidentals n)).
Proof.
  intros Hok Hascii Hbase.
  pose proof Hok as [Hl [Hlen [Hacc [Hne Hds]]]].
  destruct (letter_is_note_letter _ Hl) as [_ [Hlsp Hassoc]].
  destruct (render_split n Hok) as [mid [d [Er Hdsp]]].
  destruct (octave_text_facts n Hne Hds)
    as [_ [_ [_ [c [r [d' [front [Eo [Hc _]]]]]]]]].
  assert (Hstrip : PyStr.strip (render n) = render n).
  { rewrite Er.
    pose proof (strip_padded [] [] (nt_letter n) mid d
                  (Forall_nil _) (Forall_nil _) Hlsp Hdsp) as Hs.
    rewrite app_nil_r in Hs. exact Hs. }
  unfold Utils.note_to_midi. rewrite Hstrip.
  unfold render. fold (octave_text n).
  assert (Hrest : exists x xs, nt_accidentals n ++ octave_text n = x :: xs).
  { rewrite Eo. destruct (nt_accidentals n); simpl; eauto. }
  destruct Hrest as [x [xs Hrest]].
  rewrite Hrest. rewrite <- Hrest.
  rewrite (scan_accidentals_app _ _ 0 c r Hascii Eo Hc).
  rewrite (py_int_octave_text n Hne Hds).
  change Utils.NOTE_BASE with _NOTE_BASE. rewrite Hassoc, Hbase.
  f_equal.
Qed.

Lemma clamp_in_range x lo hi :
  lo <= hi ->
  lo <= Utils.clamp x lo hi <= hi /\
  (lo <= x <= hi -> Utils.clamp x lo hi = x).
Proof.
  intros H. unfold Utils.clamp.
  destruct (x <? lo) eqn:E1; [apply Z.ltb_lt in E1; lia|].
  apply Z.ltb_ge in E1.
  destruct (hi <? x) eqn:E2; [apply Z.ltb_lt in E2; lia|].
  apply Z.ltb_ge in E2. lia.
Qed.

(** X15. The two pitch parsers of the repository disagree across the octave
    boundary.  For a note name of a letter A-G, at most two accidentals
    [#] or [b] and an octave, [utils.note_to_midi] returns
    12 * (octave + 1) + semitone of the letter + accidentals without
    reducing modulo 12, so it agrees with the solver's [note_to_midi]
    exactly when the letter with its accidentals stays within 0..11, and
    otherwise (Cb, Cbb, B#, B##) differs from it by an octave. *)
Theorem utils_note_to_midi_differs_across_the_octave (n : note_text)
  (base : Z) :
  note_text_ok n ->
  Forall (fun a => is_accidental a = true) (nt_accidentals n) ->
  letter_base (nt_letter n) = Some base ->
  let sem := base + sum_accidentals (nt_accidentals n) in
  Utils.note_to_midi (render n)
  = Utils.Returns (12 * (octave_of n + 1) + sem) /\
  note_to_midi (render n) = Ok (12 * (octave_of n + 1) + sem mod 12) /\
  (12 * (octave_of n + 1) + sem = 12 * (octave_of n + 1) + sem mod 12
   <-> 0 <= sem < 12).
Proof.
  intros Hok Hascii Hbase sem. split; [|split].
  - rewrite (utils_note_to_midi_render n base Hok Hascii Hbase).
    unfold sem. f_equal. lia.
  - pose proof (note_to_midi_render n [] [] Hok (Forall_nil _) (Forall_nil _))
      as H.
    rewrite app_nil_r in H. simpl app in H. rewrite H.
    unfold midi_of. rewrite Hbase. reflexivity.
  - split.
    + intros H. assert (E : sem = sem mod 12) by lia.
      rewrite E. apply Z.mod_pos_bound. lia.
    + intros H. rewrite Z.mod_small by lia. reflexivity.
Qed.

Lemma utils_note_to_midi_differs_across_the_octave_witness :
  let n := mkNoteText 67%N [b_char] false (pystr "4") in
  let sem := 0 + sum_accidentals (nt_accidentals n) in
  Utils.note_to_midi (render n)
  = Utils.Returns (12 * (octave_of n + 1) + sem) /\
  note_to_midi (render n) = Ok (12 * (octave_of n + 1) + sem mod 12) /\
  (12 * (octave_of n + 1) + sem = 12 * (octave_of n + 1) + sem mod 12
   <-> 0 <= sem < 12).
Proof.
  apply (utils_note_to_midi_differs_across_the_octave
           (mkNoteText 67%N [b_char] false (pystr "4")) 0).
  - unfold note_text_ok. simpl.
    split; [discriminate|]. split; [lia|].
    split; [repeat constructor; discriminate|].
    split; [discriminate | repeat constructor].
  - repeat constructor.
  - reflexivity.
Defined.

(** ** The MusicXML reader *)

Lemma or_divisions_nonzero d otherwise :
  otherwise <> 0 -> or_divisions d otherwise <> 0.
Proof.
  intros H. unfold or_divisions. destruct d as [v|]; [|assumption].
  destruct (v =? 0) eqn:E; [assumption|]. apply Z.eqb_neq in E. assumption.
Qed.

Lemma read_note_ok divisions note_el :
  divisions <> 0 -> exists r, read_note divisions note_el = XOk r.
Proof.
  intros H. unfold read_note, beats_of.
  apply Z.eqb_neq in H. rewrite H.
  destruct (_note_has_child note_el "grace"); [eexists; reflexivity|].
  destruct (_note_has_child note_el "chord"); [eexists; reflexivity|].
  destruct (find (has_tag "duration") (ET.children note_el)) as [dur_el|];
    [|eexists; reflexivity].
  destruct (ET.text dur_el) as [t|]; [|eexists; reflexivity].
  destruct (int_of_text t) as [dur_divs|]; [|eexists; reflexivity].
  cbn [xbind].
  destruct (_note_has_child note_el "rest"); eexists; reflexivity.
Qed.

Lemma all_ok_app {A : Type} (l1 l2 : list (xresult A)) r1 r2 :
  all_ok l1 = XOk r1 -> all_ok l2 = XOk r2 -> all_ok (l1 ++ l2) = XOk (r1 ++ r2).
Proof.
  revert r1. induction l1 as [|x l1 IH]; intros r1 H1 H2; simpl in *.
  - injection H1 as <-. assumption.
  - destruct x as [a|e]; cbn [xbind] in *; [|discriminate].
    destruct (all_ok l1) as [l|e] eqn:E; cbn [xbind] in *; [|discriminate].
    injection H1 as <-. rewrite (IH l eq_refl H2). reflexivity.
Qed.

Lemma notes_loop divisions notes : forall st,
  divisions <> 0 ->
  exists rs, all_ok (map (read_note divisions) notes) = XOk rs /\
             xfold (note_body divisions) notes st
             = XOk (fold_left tie_step rs st).
Proof.
  induction notes as [|n notes IH]; intros st H.
  - exists []. split; reflexivity.
  - destruct (read_note_ok divisions n H) as [r Hr].
    destruct (IH (tie_step st r) H) as [rs [Hrs Hfold]].
    exists (r :: rs). simpl. unfold note_body at 1. rewrite Hr, Hrs.
    cbn [xbind]. split; [reflexivity | assumption].
Qed.

Lemma measures_loop measures : forall divisions st,
  divisions <> 0 ->
  exists rs divisions',
    all_ok (measure_readings divisions measures) = XOk rs /\
    xfold measure_body measures (divisions, st)
    = XOk (divisions', fold_left tie_step rs st).
Proof.
  induction measures as [|m ms IH]; intros divisions st H.
  - exists [], divisions. split; reflexivity.
  - pose proof (or_divisions_nonzero (_get_divisions m) divisions H) as H'.
    set (d := or_divisions (_get_divisions m) divisions) in *.
    destruct (notes_loop d (filter (has_tag "note") (ET.children m)) st H')
      as [rs1 [Hrs1 Hfold1]].
    destruct (IH d (fold_left tie_step rs1 st) H')
      as [rs2 [d' [Hrs2 Hfold2]]].
    exists (rs1 ++ rs2), d'. split.
    + cbn [measure_readings]. fold d. apply all_ok_app; assumption.
    + cbn [xfold]. unfold measure_body at 1. fold d.
      rewrite Hfold1. cbn [xbind]. rewrite Hfold2.
      rewrite fold_left_app. reflexivity.
Qed.

(** [_parse_part] reads every note and merges the ties; it never raises. *)
Lemma parse_part_merges part_el root :
  exists rs, all_ok (part_readings part_el root) = XOk rs /\
             _parse_part part_el root = XOk (merge_ties rs).
Proof.
  assert (H : or_divisions (_get_divisions root) 1 <> 0)
    by (apply or_divisions_nonzero; lia).
  destruct (measures_loop (filter (has_tag "measure") (ET.children part_el))
              _ (Part.mk [] false None 0.0) H) as [rs [d' [Hrs Hfold]]].
  exists rs. split; [exact Hrs|].
  unfold _parse_part. rewrite Hfold. reflexivity.
Qed.

(** *** The merging of ties *)

Lemma total_beats_app l1 l2 :
  (total_beats (l1 ++ l2) == total_beats l1 + total_beats l2)%Q.
Proof.
  induction l1 as [|e l1 IH]; simpl; [ring|]. rewrite IH. ring.
Qed.

Lemma total_readings_app l1 l2 :
  (total_readings (l1 ++ l2) == total_readings l1 + total_readings l2)%Q.
Proof.
  induction l1 as [|e l1 IH]; simpl; [ring|]. rewrite IH. ring.
Qed.

Lemma tie_step_beats st r :
  (total_beats (Part.events (tie_step st r)) + held (tie_step st r)
   == total_beats (Part.events st) + held st + reading_beats r)%Q.
Proof.
  unfold held. destruct r as [|b|b name tys]; simpl.
  - ring.
  - destruct (Part.tie_active st); simpl; rewrite !total_beats_app; simpl; ring.
  - destruct (in_types "start" tys && in_types "stop" tys); simpl.
    + rewrite total_beats_app. simpl. ring.
    + destruct (in_types "start" tys); simpl.
      * destruct (Part.tie_active st); simpl;
          [rewrite total_beats_app; simpl|]; ring.
      * destruct (Part.tie_active st); simpl.
        -- destruct (in_types "stop" tys); simpl;
             [rewrite total_beats_app; simpl|]; ring.
        -- rewrite total_beats_app. simpl. ring.
Qed.

Lemma fold_tie_step_beats rs : forall st,
  (total_beats (Part.events (fold_left tie_step rs st))
   + held (fold_left tie_step rs st)
   == total_beats (Part.events st) + held st + total_readings rs)%Q.
Proof.
  induction rs as [|r rs IH]; intros st; simpl; [ring|].
  rewrite IH, tie_step_beats. ring.
Qed.

Lemma merge_ties_beats rs :
  (total_beats (merge_ties rs) == total_readings rs)%Q.
Proof.
  unfold merge_ties, finish.
  pose proof (fold_tie_step_beats rs (Part.mk [] false None 0.0)) as H.
  unfold held in H. simpl in H.
  destruct (Part.tie_active (fold_left tie_step rs (Part.mk [] false None 0.0))).
  - rewrite total_beats_app. simpl. lra.
  - lra.
Qed.

Lemma name_read_app rs rs' name :
  name_read rs name -> name_read (rs ++ rs') name.
Proof.
  intros [b [tys H]]. exists b, tys. apply in_or_app. left. assumption.
Qed.

Lemma event_read_app rs rs' ev :
  event_read rs ev -> event_read (rs ++ rs') ev.
Proof.
  intros [H | [H [name [H1 H2]]]]; [left; assumption|].
  right. split; [assumption|]. exists name.
  split; [assumption | apply name_read_app; assumption].
Qed.

Lemma tie_step_inv rs st r :
  part_inv rs st -> part_inv (rs ++ [r]) (tie_step st r).
Proof.
  intros [Hev Hact].
  assert (Hev' : Forall (event_read (rs ++ [r])) (Part.events st)).
  { eapply Forall_impl; [|exact Hev]. intros ev. apply event_read_app. }
  assert (Hpend : Part.tie_active st = true ->
                  event_read (rs ++ [r]) (pending st)).
  { intros Ha. destruct (Hact Ha) as [name [Hn Hr]].
    right. split; [reflexivity|]. exists name.
    split; [assumption | apply name_read_app; assumption]. }
  assert (Hrest : forall b, event_read (rs ++ [r])
                              (ParsedEvent.mk (pystr "R") b None)).
  { intros b. left. split; reflexivity. }
  destruct r as [|b|b name tys]; simpl.
  - split; [assumption|]. intros Ha. destruct (Hact Ha) as [name [Hn Hr]].
    exists name. split; [assumption | apply name_read_app; assumption].
  - destruct (Part.tie_active st) eqn:Ea; simpl.
    + split; [|discriminate].
      apply Forall_app. split; [assumption|].
      constructor; [apply Hpend; reflexivity|].
      constructor; [apply Hrest | constructor].
    + split; [|simpl; try rewrite Ea; discriminate].
      apply Forall_app. split; [assumption|].
      constructor; [apply Hrest | constructor].
  - assert (Hname : name_read (rs ++ [PitchRead b name tys]) name).
    { exists b, tys. apply in_or_app. right. left. reflexivity. }
    assert (Hthis : event_read (rs ++ [PitchRead b name tys])
                      (ParsedEvent.mk (pystr "N") b (Some name))).
    { right. split; [reflexivity|]. exists name. split; [reflexivity|].
      assumption. }
    assert (Hkeep : Part.tie_active st = true ->
              exists name0, Part.tie_note st = Some name0 /\
                            name_read (rs ++ [PitchRead b name tys]) name0).
    { intros Ha. destruct (Hact Ha) as [name0 [Hn Hr]].
      exists name0. split; [assumption | apply name_read_app; assumption]. }
    destruct (in_types "start" tys && in_types "stop" tys); simpl.
    + split; [|assumption].
      apply Forall_app. split; [assumption|].
      constructor; [assumption | constructor].
    + destruct (in_types "start" tys); simpl.
      * split.
        -- destruct (Part.tie_active st) eqn:Ea; [|assumption].
           apply Forall_app. split; [assumption|].
           constructor; [apply Hpend; reflexivity | constructor].
        -- intros _. exists name. split; [reflexivity | assumption].
      * destruct (Part.tie_active st) eqn:Ea; simpl.
        -- destruct (in_types "stop" tys); simpl.
           ++ split; [|discriminate].
              apply Forall_app. split; [assumption|].
              constructor; [|constructor].
              destruct (Hkeep eq_refl) as [name0 [Hn Hr]].
              right. split; [reflexivity|]. exists name0.
              split; assumption.
           ++ split; [assumption|]. simpl. intros _. apply Hkeep.
              reflexivity.
        -- split; [|simpl; try rewrite Ea; discriminate].
           apply Forall_app. split; [assumption|].
           constructor; [assumption | constructor].
Qed.

Lemma fold_tie_step_inv rs' : forall rs st,
  part_inv rs st -> part_inv (rs ++ rs') (fold_left tie_step rs' st).
Proof.
  induction rs' as [|r rs' IH]; intros rs st H; simpl.
  - rewrite app_nil_r. assumption.
  - replace (rs ++ r :: rs') with ((rs ++ [r]) ++ rs')
      by (rewrite <- app_assoc; reflexivity).
    apply IH. apply tie_step_inv. assumption.
Qed.

Lemma merge_ties_read rs : Forall (event_read rs) (merge_ties rs).
Proof.
  assert (H0 : part_inv [] (Part.mk [] false None 0.0)).
  { split; [constructor | discriminate]. }
  pose proof (fold_tie_step_inv rs [] _ H0) as [Hev Hact]. simpl in Hev, Hact.
  unfold merge_ties, finish.
  destruct (Part.tie_active (fold_left tie_step rs (Part.mk [] false None 0.0)))
    eqn:Ea; [|assumption].
  apply Forall_app. split; [assumption|].
  constructor; [|constructor].
  destruct (Hact eq_refl) as [name [Hn Hr]].
  right. split; [reflexivity|]. exists name. split; assumption.
Qed.

Lemma merge_ties_untied rs :
  Forall untied rs -> merge_ties rs = flat_map untied_event rs.
Proof.
  intros H.
  assert (Hgen : forall rs st, Forall untied rs -> Part.tie_active st = false ->
            fold_left tie_step rs st
            = Part.mk (Part.events st ++ flat_map untied_event rs) false
                (Part.tie_note st) (Part.tie_beats_accum st)).
  { clear. induction rs as [|r rs IH]; intros st Hall Ha.
    - simpl. rewrite app_nil_r. destruct st; simpl in *. subst. reflexivity.
    - inversion Hall as [|? ? Hr Hall']; subst.
      assert (Hstep : tie_step st r
                      = Part.mk (Part.events st ++ untied_event r) false
                          (Part.tie_note st) (Part.tie_beats_accum st)).
      { destruct r as [|b|b name tys]; simpl.
        - rewrite app_nil_r. destruct st; simpl in *. subst. reflexivity.
        - rewrite Ha. reflexivity.
        - destruct Hr as [Hs Hp]. rewrite Hs, Ha. simpl. reflexivity. }
      simpl. rewrite Hstep. rewrite IH; [|assumption | reflexivity].
      simpl. rewrite <- app_assoc. reflexivity. }
  unfold merge_ties, finish. rewrite Hgen; [|assumption | reflexivity].
  reflexivity.
Qed.

(** *** The names that are read *)

Lemma pitch_to_note_not_empty c step alter octave :
  _pitch_to_note (c :: step) alter octave <> [].
Proof. unfold _pitch_to_note. simpl. discriminate. Qed.

Lemma read_note_name divisions note_el b name tys :
  read_note divisions note_el = XOk (PitchRead b name tys) -> name <> [].
Proof.
  unfold read_note.
  destruct (_note_has_child note_el "grace"); [discriminate|].
  destruct (_note_has_child note_el "chord"); [discriminate|].
  destruct (find (has_tag "duration") (ET.children note_el)) as [dur_el|];
    [|discriminate].
  destruct (ET.text dur_el) as [t|]; [|discriminate].
  destruct (int_of_text t) as [dur_divs|]; [|discriminate].
  destruct (beats_of dur_divs divisions) as [beats|e]; cbn [xbind];
    [|discriminate].
  destruct (_note_has_child note_el "rest"); [discriminate|].
  unfold read_pitch.
  destruct (find (has_tag "pitch") (ET.children note_el)) as [pitch_el|];
    [|discriminate].
  destruct (fold_left read_pitch_child (ET.children pitch_el) (None, None, None))
    as [[[[|c step]|] alter] [octave|]]; try discriminate.
  intros [= _ <- _]. apply pitch_to_note_not_empty.
Qed.

Lemma all_ok_In {A : Type} (l : list (xresult A)) rs a :
  all_ok l = XOk rs -> In a rs -> In (XOk a) l.
Proof.
  revert rs. induction l as [|x l IH]; intros rs H Hin; simpl in H.
  - injection H as <-. contradiction.
  - destruct x as [a'|e]; cbn [xbind] in H; [|discriminate].
    destruct (all_ok l) as [l'|e] eqn:E; cbn [xbind] in H; [|discriminate].
    injection H as <-. destruct Hin as [-> | Hin]; [left; reflexivity|].
    right. apply (IH l' eq_refl Hin).
Qed.

Lemma measure_readings_In measures : forall divisions r,
  In r (measure_readings divisions measures) ->
  exists d note_el, r = read_note d note_el.
Proof.
  induction measures as [|m ms IH]; intros divisions r H; [contradiction|].
  cbn [measure_readings] in H. apply in_app_or in H.
  destruct H as [H | H].
  - apply in_map_iff in H. destruct H as [n [<- _]]. eauto.
  - apply (IH _ _ H).
Qed.

Lemma part_readings_names part_el root rs name :
  all_ok (part_readings part_el root) = XOk rs ->
  name_read rs name -> name <> [].
Proof.
  intros H [b [tys Hin]].
  pose proof (all_ok_In _ _ _ H Hin) as Hin'.
  apply measure_readings_In in Hin'. destruct Hin' as [d [n E]].
  symmetry in E. apply (read_note_name d n b name tys E).
Qed.

Lemma to_tuple_read rs ev :
  (forall name, name_read rs name -> name <> []) ->
  event_read rs ev -> exists tev, to_tuple (as_event ev) = EOk tev.
Proof.
  intros Hnames [[Ht Hn] | [Ht [name [Hn Hr]]]];
    unfold to_tuple, event_is, as_event; simpl; rewrite Ht.
  - eexists. reflexivity.
  - change (PyStr.eqb (PyStr.upper (pystr "N")) (pystr "R")) with false.
    change (PyStr.eqb (PyStr.upper (pystr "N")) (pystr "N")) with true.
    cbv iota. rewrite Hn. specialize (Hnames name Hr).
    destruct name; [congruence|]. eexists. reflexivity.
Qed.

(** *** The fallback *)

Lemma stream_body_leaf divisions note_el :
  (forall d, find (has_tag "duration") (ET.children note_el) = Some d ->
             ET.children d = []) ->
  stream_body divisions [] note_el = XOk [].
Proof.
  intros H. unfold stream_body.
  destruct (negb (has_tag "note" note_el)); [reflexivity|].
  destruct (_note_has_child note_el "grace"); [reflexivity|].
  destruct (_note_has_child note_el "chord"); [reflexivity|].
  destruct (find (has_tag "duration") (ET.children note_el)) as [dur_el|];
    [|reflexivity].
  unfold ET.truth. rewrite (H dur_el eq_refl). reflexivity.
Qed.

Lemma stream_leaves divisions els :
  (forall note_el d, In note_el els ->
     find (has_tag "duration") (ET.children note_el) = Some d ->
     ET.children d = []) ->
  xfold (stream_body divisions) els [] = XOk [].
Proof.
  induction els as [|e els IH]; intros H; [reflexivity|].
  cbn [xfold]. rewrite stream_body_leaf.
  - cbn [xbind]. apply IH. intros n d Hin. apply H. right. assumption.
  - intros d. apply H. left. reflexivity.
Qed.

(** The tie of the small score is merged into one note of three beats. *)
Lemma sample_part_events :
  _parse_part sample_part sample_part
  = XOk [ParsedEvent.mk (pystr "N") (12 # 4) (Some (pystr "C4"));
         ParsedEvent.mk (pystr "R") (2 # 2) None].
Proof. vm_compute. reflexivity. Qed.


(** X17. The merging of tied notes keeps the beats: the beats of the events
    that [_parse_part] returns add up to the beats of the notes and rests it
    read (the notes that are not grace or chord notes, have a duration that
    parses, and are a rest or carry a step and an octave). *)
Theorem parse_part_keeps_the_beats (part_el root : ET.Element) :
  exists events rs,
    _parse_part part_el root = XOk events /\
    all_ok (part_readings part_el root) = XOk rs /\
    (total_beats events == total_readings rs)%Q.
Proof.
  destruct (parse_part_merges part_el root) as [rs [Hrs H]].
  exists (merge_ties rs), rs.
  split; [exact H|]. split; [exact Hrs|]. apply merge_ties_beats.
Qed.

(** X18. The events of [_parse_part] always pass the conversion loop of
    [compute_fingering]: every event is a rest without a name or a note
    with the non-empty name of a note that was read, so neither "missing
    note" nor "unknown event type" is raised for them. *)
Theorem parse_part_events_pass_the_conversion (part_el root : ET.Element) :
  exists events rs tuple_events,
    _parse_part part_el root = XOk events /\
    all_ok (part_readings part_el root) = XOk rs /\
    Forall (event_read rs) events /\
    emapM to_tuple (map as_event events) = EOk tuple_events.
Proof.
  destruct (parse_part_merges part_el root) as [rs [Hrs H]].
  pose proof (merge_ties_read rs) as Hread.
  assert (Hconv : exists tevs,
            emapM to_tuple (map as_event (merge_ties rs)) = EOk tevs).
  { apply emapM_ok. apply Forall_map.
    eapply Forall_impl; [|exact Hread].
    intros ev Hev. apply (to_tuple_read rs ev); [|assumption].
    intros name. apply (part_readings_names part_el root rs name Hrs). }
  destruct Hconv as [tevs Hconv].
  exists (merge_ties rs), rs, tevs. auto.
Qed.

(** X19. Without ties nothing is merged: when no note that is read carries
    a tie type "start" or "stop", [_parse_part] returns one event per note
    or rest read, in document order, with its beats and its name. *)
Theorem parse_part_without_ties_is_one_event_per_note
  (part_el root : ET.Element) :
  exists events rs,
    _parse_part part_el root = XOk events /\
    all_ok (part_readings part_el root) = XOk rs /\
    (Forall untied rs -> events = flat_map untied_event rs).
Proof.
  destruct (parse_part_merges part_el root) as [rs [Hrs H]].
  exists (merge_ties rs), rs.
  split; [exact H|]. split; [exact Hrs|]. apply merge_ties_untied.
Qed.

(** X20. The fallback [_parse_notes_stream] returns no event for a document
    in which no [duration] element has child elements, as in every MusicXML
    document: [not dur_el] is true for an element without children, so
    every note is skipped. *)
Theorem parse_notes_stream_skips_every_note (root : ET.Element) :
  (forall note_el d, In note_el (ET.iter root) ->
     find (has_tag "duration") (ET.children note_el) = Some d ->
     ET.children d = []) ->
  _parse_notes_stream root = XOk [].
Proof.
  intros H. unfold _parse_notes_stream. apply stream_leaves. exact H.
Qed.

Lemma parse_notes_stream_skips_every_note_witness :
  In (pitched_note "C" "4" "2" []) (ET.iter sample_stream) /\
  _parse_notes_stream sample_stream = XOk [].
Proof.
  split; [simpl; auto|].
  apply (parse_notes_stream_skips_every_note sample_stream).
  intros note_el d Hin Hfind. simpl in Hin.
  repeat (destruct Hin as [<- | Hin];
          [try discriminate Hfind;
           try (vm_compute in Hfind; injection Hfind as <-; reflexivity)|]).
  contradiction.
Defined.
